(** * DocumentExtractorAPI: the extraction engine, the worker and the
      submission gate of [app/extractor.py], [app/worker.py] and
      [app/main.py], as a shallow embedding.

    Python [str] values are lists of Unicode code points.  The character
    classes of [re] and the case mappings of [str] follow Python on the
    ASCII range; white space is the full Unicode list.  A code point above
    127 is otherwise a caseless symbol that is neither a digit nor a word
    character, which is what the two non-ASCII characters of the source,
    the euro and the pound sign, are.  Python goes further on some of
    them: [str.upper] maps U+0131 to I, [\d] matches every decimal digit
    of Unicode; so where a statement depends on the case or the class of
    a character it is made for texts of ASCII characters.  A [float] is
    the decimal number it was read from, with no rounding: where amounts
    are compared, the statement is made for amounts of at most fifteen
    significant digits, which the rounding of Python keeps apart. *)

From Stdlib Require Import ZArith NArith QArith Lia List Ascii String Bool.
From stdpp Require Import base option list gmap strings.

Open Scope N_scope.

(** ** Python strings *)

Abbreviation char := N (only parsing).
Abbreviation pystr := (list N) (only parsing).

(** A literal of the source. *)
Definition lit (s : string) : pystr :=
  map N_of_ascii (list_ascii_of_string s).

Module Py.

Definition eqb (a b : pystr) : bool := bool_decide (a = b).

Fixpoint startswith (s pre : pystr) {struct pre} : bool :=
  match pre, s with
  | [], _ => true
  | p :: pre', c :: s' => (p =? c) && startswith s' pre'
  | _ :: _, [] => false
  end.

(** [sub in s] *)
Fixpoint contains (sub s : pystr) : bool :=
  startswith s sub ||
  match s with
  | [] => false
  | _ :: s' => contains sub s'
  end.

(** [x in l] for a list of strings *)
Definition mem (x : pystr) (l : list pystr) : bool :=
  existsb (eqb x) l.

Fixpoint replace_fuel (fuel : nat) (old new s : pystr) : pystr :=
  match fuel with
  | O => s
  | S fuel' =>
      match s with
      | [] => []
      | c :: s' =>
          if startswith s old
          then new ++ replace_fuel fuel' old new (drop (length old) s)
          else c :: replace_fuel fuel' old new s'
      end
  end.

(** [s.replace(old, new)], for the non-empty [old] of the source. *)
Definition replace (old new s : pystr) : pystr :=
  replace_fuel (length s) old new s.

(** [s.count(c)] for a one-character [c]. *)
Definition count (c : char) (s : pystr) : nat :=
  length (filter (fun x => x = c) s).

Fixpoint rfind_from (i : Z) (c : char) (s : pystr) (last : Z) : Z :=
  match s with
  | [] => last
  | x :: s' => rfind_from (i + 1) c s' (if x =? c then i else last)
  end.

(** [s.rfind(c)] for a one-character [c]: the highest index, or -1. *)
Definition rfind (c : char) (s : pystr) : Z :=
  rfind_from 0%Z c s (-1)%Z.

Fixpoint split_acc (sep : char) (s cur : pystr) : list pystr :=
  match s with
  | [] => [rev cur]
  | x :: s' =>
      if x =? sep then rev cur :: split_acc sep s' []
      else split_acc sep s' (x :: cur)
  end.

(** [s.split(sep)] for a one-character [sep]. *)
Definition split (sep : char) (s : pystr) : list pystr :=
  split_acc sep s [].

Definition is_upper_ascii (c : char) : bool := (65 <=? c) && (c <=? 90).
Definition is_lower_ascii (c : char) : bool := (97 <=? c) && (c <=? 122).
Definition is_alpha_ascii (c : char) : bool :=
  is_upper_ascii c || is_lower_ascii c.
Definition is_digit_ascii (c : char) : bool := (48 <=? c) && (c <=? 57).

Definition upper_char (c : char) : char :=
  if is_lower_ascii c then c - 32 else c.
Definition lower_char (c : char) : char :=
  if is_upper_ascii c then c + 32 else c.

Definition upper (s : pystr) : pystr := map upper_char s.
Definition lower (s : pystr) : pystr := map lower_char s.

(** [str.isspace] on one character, which is also [\s] of [re]. *)
Definition is_space (c : char) : bool :=
  ((9 <=? c) && (c <=? 13)) || ((28 <=? c) && (c <=? 32))
  || (c =? 133) || (c =? 160) || (c =? 5760)
  || ((8192 <=? c) && (c <=? 8202))
  || (c =? 8232) || (c =? 8233) || (c =? 8239) || (c =? 8287)
  || (c =? 12288).

Fixpoint lstrip (s : pystr) : pystr :=
  match s with
  | c :: s' => if is_space c then lstrip s' else s
  | [] => []
  end.

(** [s.strip()] *)
Definition strip (s : pystr) : pystr :=
  rev (lstrip (rev (lstrip s))).

Definition digit_val (c : char) : N := c - 48.

(** [int(s)] on a string of ASCII digits. *)
Definition int_of_digits (s : pystr) : N :=
  fold_left (fun acc c => 10 * acc + digit_val c) s 0.

Definition digit_char (d : N) : char := 48 + d mod 10.

Fixpoint zfill_digits (width : nat) (n : N) (acc : pystr) : pystr :=
  match width with
  | O => acc
  | S w => zfill_digits w (n / 10) (digit_char n :: acc)
  end.

(** [n] in decimal, zero-padded to [width] digits, for [n < 10^width]. *)
Definition zfill (width : nat) (n : N) : pystr :=
  zfill_digits width n [].

End Py.

(** ** The fragment of [re] the extractor uses *)

Module Re.

Inductive regex : Type :=
| Eps
| Chr (p : char -> bool)
| Seq (r1 r2 : regex)
| Alt (r1 r2 : regex)
| Rep (r : regex) (lo : nat) (hi : option nat)
| Grp (n : nat) (r : regex)
| WordB.

(** The position of the matcher: the character before it, for [\b], and
    the text still to read. *)
Record cursor : Type := Cursor { prev : option char; rest : pystr }.

Definition groups : Type := gmap nat pystr.

Record rmatch_result : Type := Match {
  m_groups : groups;
  m_text : pystr;
  m_end : cursor
}.

(** [\d] and [\w] *)
Definition is_digit (c : char) : bool := Py.is_digit_ascii c.
Definition is_word (c : char) : bool :=
  Py.is_alpha_ascii c || Py.is_digit_ascii c || (c =? 95).

Definition word_opt (o : option char) : bool :=
  match o with
  | Some c => is_word c
  | None => false
  end.

Definition at_boundary (cur : cursor) : bool :=
  negb (Bool.eqb (word_opt (prev cur)) (word_opt (head (rest cur)))).

Definition below (hi : option nat) (n : nat) : bool :=
  match hi with
  | Some h => Nat.ltb n h
  | None => true
  end.

Definition span (from to : cursor) : pystr :=
  take (length (rest from) - length (rest to)) (rest from).

(** Backtracking matcher in continuation-passing style: alternatives in
    the order they are written, repetitions greedy.  An iteration of a
    repetition has to read at least one character, as every repeated
    pattern of the source does. *)
Fixpoint rmatch (r : regex) (g : groups) (cur : cursor)
    (k : groups -> cursor -> option (groups * cursor)) {struct r}
    : option (groups * cursor) :=
  match r with
  | Eps => k g cur
  | Chr p =>
      match rest cur with
      | c :: s' => if p c then k g (Cursor (Some c) s') else None
      | [] => None
      end
  | Seq r1 r2 => rmatch r1 g cur (fun g' cur' => rmatch r2 g' cur' k)
  | Alt r1 r2 =>
      match rmatch r1 g cur k with
      | Some m => Some m
      | None => rmatch r2 g cur k
      end
  | Grp n r' =>
      rmatch r' g cur (fun g' cur' => k (<[n := span cur cur']> g') cur')
  | WordB => if at_boundary cur then k g cur else None
  | Rep r' lo hi =>
      (fix loop (fuel n : nat) (g : groups) (cur : cursor) {struct fuel}
         : option (groups * cursor) :=
         let stop := if Nat.leb lo n then k g cur else None in
         match fuel with
         | O => stop
         | S fuel' =>
             if below hi n then
               match
                 rmatch r' g cur (fun g' cur' =>
                   if Nat.ltb (length (rest cur')) (length (rest cur))
                   then loop fuel' (S n) g' cur'
                   else None)
               with
               | Some m => Some m
               | None => stop
               end
             else stop
         end) (length (rest cur)) O g cur
  end.

Definition match_here (r : regex) (cur : cursor) : option rmatch_result :=
  match rmatch r ∅ cur (fun g c => Some (g, c)) with
  | Some (g, c) => Some (Match g (span cur c) c)
  | None => None
  end.

Fixpoint search_at (r : regex) (p : option char) (s : pystr)
    : option rmatch_result :=
  match match_here r (Cursor p s) with
  | Some m => Some m
  | None =>
      match s with
      | [] => None
      | c :: s' => search_at r (Some c) s'
      end
  end.

(** [re.search(r, s)]: the leftmost match. *)
Definition search (r : regex) (s : pystr) : option rmatch_result :=
  search_at r None s.

Fixpoint finditer_at (fuel : nat) (r : regex) (p : option char) (s : pystr)
    : list rmatch_result :=
  match fuel with
  | O => []
  | S fuel' =>
      match search_at r p s with
      | None => []
      | Some m =>
          m :: finditer_at fuel' r (prev (m_end m)) (rest (m_end m))
      end
  end.

(** [r.finditer(s)]: the successive matches, none overlapping, for a
    pattern that matches no empty string. *)
Definition finditer (r : regex) (s : pystr) : list rmatch_result :=
  finditer_at (S (length s)) r None s.

(** [m.group(n)] *)
Definition group (m : rmatch_result) (n : nat) : option pystr :=
  m_groups m !! n.

(** *** Pattern syntax *)

Definition chr (c : char) : regex := Chr (N.eqb c).
Definition chr_ci (c : char) : regex :=
  Chr (fun x => Py.lower_char x =? Py.lower_char c).
Definition one_of (cs : pystr) : regex :=
  Chr (fun x => existsb (N.eqb x) cs).

Fixpoint seq_of (rs : list regex) : regex :=
  match rs with
  | [] => Eps
  | [r] => r
  | r :: rs' => Seq r (seq_of rs')
  end.

Fixpoint alt_of (rs : list regex) : regex :=
  match rs with
  | [] => Chr (fun _ => false)
  | [r] => r
  | r :: rs' => Alt r (alt_of rs')
  end.

(** A literal, and a literal under [re.IGNORECASE]. *)
Definition str (s : string) : regex := seq_of (map chr (lit s)).
Definition str_ci (s : string) : regex := seq_of (map chr_ci (lit s)).

Definition digit : regex := Chr is_digit.          (* \d *)
Definition digit09 : regex := Chr Py.is_digit_ascii.  (* [0-9] *)
Definition space : regex := Chr Py.is_space.       (* \s *)
Definition star (r : regex) : regex := Rep r 0 None.
Definition plus (r : regex) : regex := Rep r 1 None.
Definition opt (r : regex) : regex := Rep r 0 (Some 1%nat).
Definition times (r : regex) (n : nat) : regex := Rep r n (Some n).
Definition between (r : regex) (lo hi : nat) : regex := Rep r lo (Some hi).

End Re.

(** ** [app/extractor.py] *)

(** What an attempt can raise: the extractor's typed failure, the
    [TimeoutError] of the worker's guard, and any other exception, of which
    only [str(ex)] is ever read. *)
Inductive Exn : Type :=
| ExtractorFailure (code message : pystr)
| TimeoutError (description : pystr)
| OtherException (description : pystr).

Inductive result (A : Type) : Type :=
| Ok (a : A)
| Raise (e : Exn).
Arguments Ok {A} a.
Arguments Raise {A} e.

(** The mapping [extract_from_text] returns; a [float] is the rational it
    was read from. *)
Record Fields : Type := mkFields {
  doc_type : option pystr;
  invoice_number : option pystr;
  invoice_date : option pystr;
  total_amount : option Q;
  currency : option pystr
}.

Module Extractor.
Import Re.

Definition MONTHS : gmap pystr N :=
  list_to_map
    [ (lit "january", 1); (lit "february", 2); (lit "march", 3);
      (lit "april", 4); (lit "may", 5); (lit "june", 6);
      (lit "july", 7); (lit "august", 8); (lit "september", 9);
      (lit "october", 10); (lit "november", 11); (lit "december", 12) ].

Definition SUPPORTED_CURRENCY_CODES : list pystr :=
  map lit ["USD"; "EUR"; "GBP"; "AUD"; "CAD"; "CHF"; "CNY"; "INR"; "JPY";
           "NZD"]%string.

Definition CR : char := 13.
Definition LF : char := 10.
Definition dollar : char := 36.
Definition euro : char := 8364.
Definition pound : char := 163.
Definition comma : char := 44.
Definition dot : char := 46.

Definition _normalize_text (text : pystr) : pystr :=
  Py.replace [CR] [LF] (Py.replace [CR; LF] [LF] text).

Definition _detect_doc_type (text : pystr) : pystr :=
  let upper := Py.upper text in
  if Py.contains (lit "INVOICE") upper then lit "invoice"
  else if Py.contains (lit "RECEIPT") upper then lit "receipt"
  else lit "unknown".

(** [[A-Za-z0-9\-_/]] *)
Definition token_char : regex :=
  Chr (fun c => Py.is_alpha_ascii c || Py.is_digit_ascii c
                || (c =? 45) || (c =? 95) || (c =? 47)).
(** [[:#]] and [[:\s]] *)
Definition colon_hash : regex := one_of (lit ":#").
Definition colon_space : regex := Chr (fun c => (c =? 58) || Py.is_space c).

Definition invoice_patterns : list regex :=
  [ seq_of [str_ci "Invoice"; star space; str_ci "Number"; opt colon_hash;
            star space; Grp 1 (plus token_char)];
    seq_of [str_ci "Invoice"; star space; chr 35; star colon_space;
            Grp 1 (plus token_char)];
    seq_of [str_ci "Invoice"; plus colon_space; Grp 1 (plus token_char)];
    seq_of [str_ci "Transaction"; star space; chr 35; star colon_space;
            Grp 1 (plus token_char)];
    seq_of [str_ci "Transaction"; star space; str_ci "Number";
            opt colon_hash; star space; Grp 1 (plus token_char)] ].

(** The text of a group that takes part in every match of its pattern. *)
Definition grp (m : rmatch_result) (n : nat) : pystr :=
  default [] (group m n).

Fixpoint first_match (pats : list regex) (text : pystr) : option pystr :=
  match pats with
  | [] => None
  | pat :: pats' =>
      match search pat text with
      | Some m => Some (Py.strip (grp m 1))
      | None => first_match pats' text
      end
  end.

Definition _extract_invoice_number (text : pystr) : option pystr :=
  first_match invoice_patterns text.

(** [\b(\d{4})-(\d{2})-(\d{2})\b] *)
Definition iso_date_pattern : regex :=
  seq_of [WordB; Grp 1 (times digit 4); chr 45; Grp 2 (times digit 2);
          chr 45; Grp 3 (times digit 2); WordB].

(** [\b([A-Za-z]{3,9})\s+(\d{1,2}),\s*(\d{4})\b] *)
Definition month_date_pattern : regex :=
  seq_of [WordB; Grp 1 (between (Chr Py.is_alpha_ascii) 3 9); plus space;
          Grp 2 (between digit 1 2); chr comma; star space;
          Grp 3 (times digit 4); WordB].

Definition is_leap (year : N) : bool :=
  ((year mod 4 =? 0) && negb (year mod 100 =? 0)) || (year mod 400 =? 0).

Definition days_in_month (year month : N) : N :=
  if month =? 2 then (if is_leap year then 29 else 28)
  else if (month =? 4) || (month =? 6) || (month =? 9) || (month =? 11)
  then 30 else 31.

(** [datetime(year, month, day)]: [None] stands for its [ValueError]. *)
Definition datetime (year month day : N) : option (N * N * N) :=
  if (1 <=? year) && (year <=? 9999) && (1 <=? month) && (month <=? 12)
     && (1 <=? day) && (day <=? days_in_month year month)
  then Some (year, month, day) else None.

(** [dt.strftime("%Y-%m-%d")], the year on four digits as Python
    documents [%Y]; the C library of some platforms leaves a year below
    1000 unpadded. *)
Definition strftime_ymd (dt : N * N * N) : pystr :=
  let '(y, m, d) := dt in
  Py.zfill 4 y ++ lit "-" ++ Py.zfill 2 m ++ lit "-" ++ Py.zfill 2 d.

Definition _extract_date_iso (text : pystr) : option pystr :=
  match search iso_date_pattern text with
  | Some m => Some (grp m 1 ++ lit "-" ++ grp m 2 ++ lit "-" ++ grp m 3)
  | None =>
      match search month_date_pattern text with
      | Some m2 =>
          let month_name := Py.lower (grp m2 1) in
          match MONTHS !! month_name with
          | Some month_num =>
              if month_num =? 0 then None
              else
                let day := Py.int_of_digits (grp m2 2) in
                let year := Py.int_of_digits (grp m2 3) in
                match datetime year month_num day with
                | Some dt => Some (strftime_ymd dt)
                | None => None
                end
          | None => None
          end
      | None => None
      end
  end.

(** [float(s)] for a string of ASCII digits, [','], ['.'] and white
    space, which is all that a matched number can hold: such a string
    parses when, stripped, it is a run of digits with at most one dot and
    at least one digit.  The value is kept exact; [None] stands for
    [ValueError]. *)
Fixpoint break_at (c : char) (s : pystr) : pystr * option pystr :=
  match s with
  | [] => ([], None)
  | x :: s' =>
      if x =? c then ([], Some s')
      else let '(a, b) := break_at c s' in (x :: a, b)
  end.

Definition all_digits (s : pystr) : bool := forallb Py.is_digit_ascii s.
Definition nonempty (s : pystr) : bool := negb (Py.eqb s []).

Definition float (s : pystr) : option Q :=
  let '(ip, fp) := break_at dot (Py.strip s) in
  match fp with
  | None =>
      if nonempty ip && all_digits ip
      then Some (Qred (Z.of_N (Py.int_of_digits ip) # 1))
      else None
  | Some f =>
      if all_digits ip && all_digits f && (nonempty ip || nonempty f)
      then Some (Qred (Z.of_N (Py.int_of_digits (ip ++ f))
                       # Z.to_pos (10 ^ Z.of_nat (length f))))
      else None
  end.

(** [\b(TOTAL|Grand\s+Total|Total\s+Paid)\b] under [re.IGNORECASE] *)
Definition total_pattern : regex :=
  seq_of [WordB;
          Grp 1 (alt_of [str_ci "TOTAL";
                         seq_of [str_ci "Grand"; plus space; str_ci "Total"];
                         seq_of [str_ci "Total"; plus space; str_ci "Paid"]]);
          WordB].

Definition symbol_class : regex := one_of [dollar; euro; pound].
Definition symbol_pattern : regex := symbol_class.

(** [\b(USD|EUR|GBP|AUD|CAD|CHF|CNY|INR|JPY|NZD)\b] *)
Definition code_pattern : regex :=
  seq_of [WordB;
          Grp 1 (alt_of (map str ["USD"; "EUR"; "GBP"; "AUD"; "CAD"; "CHF";
                                  "CNY"; "INR"; "JPY"; "NZD"]%string));
          WordB].

(** The second group of both amount patterns:
    [([0-9]{1,3}(?:[,.\s][0-9]{3})*(?:[.,][0-9]{2})|[0-9]+(?:[.,][0-9]{2})?)] *)
Definition separator : regex :=
  Chr (fun c => (c =? comma) || (c =? dot) || Py.is_space c).
Definition decimals : regex := Seq (one_of [dot; comma]) (times digit09 2).
Definition number_group : regex :=
  Grp 2 (Alt (seq_of [between digit09 1 3;
                      star (Seq separator (times digit09 3));
                      decimals])
             (Seq (plus digit09) (opt decimals))).

Definition symbol_amount_regex : regex :=
  seq_of [Grp 1 symbol_class; star space; number_group].
Definition amount_regex : regex :=
  seq_of [opt (Grp 1 symbol_class); star space; number_group].

Definition found (r : regex) (line : pystr) : bool :=
  bool_decide (is_Some (search r line)).

(** The normalisation both loops of the source apply to [raw_number]
    before [float]; the test of the source on [normalized.count(".")]
    guards a [pass] and is left out. *)
Definition _normalize_number (raw_number : pystr) : pystr :=
  let normalized := Py.replace [comma] [] (Py.replace [32] [] raw_number) in
  if Py.contains [comma] raw_number && Py.contains [dot] raw_number then
    if (Py.rfind comma raw_number >? Py.rfind dot raw_number)%Z
    then Py.replace [comma] [dot] (Py.replace [dot] [] raw_number)
    else normalized
  else normalized.

Definition currency_of_symbol (symbol : pystr) : option pystr :=
  if Py.eqb symbol [euro] then Some (lit "EUR")
  else if Py.eqb symbol [dollar] then Some (lit "USD")
  else if Py.eqb symbol [pound] then Some (lit "GBP")
  else None.

(** [if line not in candidates: candidates.append(line)] *)
Definition add_candidate (candidates : list pystr) (line : pystr)
    : list pystr :=
  if Py.mem line candidates then candidates else candidates ++ [line].

Definition line_code_of (cand : pystr) : option pystr :=
  match search code_pattern cand with
  | Some code_match =>
      if Py.mem (grp code_match 1) SUPPORTED_CURRENCY_CODES
      then Some (grp code_match 1) else None
  | None => None
  end.

(** The amounts of one candidate line; a number [float] rejects is
    skipped by [continue]. *)
Definition amounts_of_candidate (cand : pystr) : list (Q * option pystr) :=
  let line_code := line_code_of cand in
  let anchored :=
    omap (fun m =>
            match float (_normalize_number (grp m 2)) with
            | None => None
            | Some amount_val =>
                Some (amount_val,
                      match line_code with
                      | Some c => Some c
                      | None => currency_of_symbol (grp m 1)
                      end)
            end)
         (finditer symbol_amount_regex cand) in
  let generic :=
    if negb (found symbol_amount_regex cand) then
      omap (fun m =>
              match float (_normalize_number (grp m 2)) with
              | None => None
              | Some amount_val =>
                  Some (amount_val,
                        match group m 1 with
                        | Some (c :: symbol_opt) =>
                            currency_of_symbol (c :: symbol_opt)
                        | _ => line_code
                        end)
              end)
           (finditer amount_regex cand)
    else [] in
  anchored ++ generic.

(** [max(parsed_candidates, key=lambda x: x[0])]: the first of the
    largest. *)
Fixpoint max_amount (best : Q * option pystr) (l : list (Q * option pystr))
    : Q * option pystr :=
  match l with
  | [] => best
  | x :: l' =>
      max_amount (match (fst best ?= fst x)%Q with Lt => x | _ => best end) l'
  end.

Definition _extract_currency_and_amount (text : pystr)
    : option pystr * option Q :=
  let normalized_lines := Py.split LF (_normalize_text text) in
  let hinted l := found symbol_pattern l || found code_pattern l in
  let totals := List.filter (found total_pattern) normalized_lines in
  let totals_with_currency := List.filter hinted totals in
  let candidates :=
    fold_left (fold_left add_candidate)
      [ match totals_with_currency with [] => totals | _ => totals_with_currency end;
        List.filter (found symbol_pattern) normalized_lines;
        List.filter (found code_pattern) normalized_lines ]
      [] in
  let has_any_currency_hint := existsb hinted normalized_lines in
  let candidates :=
    if negb has_any_currency_hint
    then fold_left add_candidate
           (List.filter (found amount_regex) normalized_lines) candidates
    else candidates in
  let parsed_candidates := concat (map amounts_of_candidate candidates) in
  match parsed_candidates with
  | [] => (None, None)
  | first :: others =>
      let '(best_amount, best_currency) := max_amount first others in
      (best_currency, Some best_amount)
  end.

Definition FAILURE_MARKER : pystr := lit "<<TRIGGER_EXTRACTOR_FAILURE>>".

Definition extract_from_text (document_text : pystr) : result Fields :=
  if Py.contains FAILURE_MARKER document_text then
    Raise (ExtractorFailure
             (lit "EXTRACTOR_TIMEOUT")
             (lit "Extraction process timed out after 30 seconds"))
  else
    let doc_type := _detect_doc_type document_text in
    let invoice_number := _extract_invoice_number document_text in
    let invoice_date := _extract_date_iso document_text in
    let '(currency, total_amount) :=
      _extract_currency_and_amount document_text in
    Ok {| doc_type := Some doc_type;
          invoice_number := invoice_number;
          invoice_date := invoice_date;
          total_amount := total_amount;
          currency := currency |}.

End Extractor.

(** ** [app/models.py] *)

Module Models.

Inductive Status : Type := PENDING | COMPLETED | FAILED.

Record ExtractionRequest : Type := mkRequest {
  id : pystr;
  idempotency_key : pystr;
  status : Status;
  document_text : pystr;
  doc_type : option pystr;
  invoice_number : option pystr;
  invoice_date : option pystr;
  total_amount : option Q;
  currency : option pystr;
  error_code : option pystr;
  error_message : option pystr;
  created_at : N;
  updated_at : N
}.

Definition is_pending (s : Status) : bool :=
  match s with PENDING => true | _ => false end.

(** The table [extraction_requests], in insertion order. *)
Definition table : Type := list ExtractionRequest.

(** [session.get(ExtractionRequest, request_id)] *)
Definition get (request_id : pystr) (t : table) : option ExtractionRequest :=
  List.find (fun r => Py.eqb (id r) request_id) t.

(** [session.query(ExtractionRequest).filter(idempotency_key == key).one_or_none()] *)
Definition by_key (key : pystr) (t : table) : option ExtractionRequest :=
  List.find (fun r => Py.eqb (idempotency_key r) key) t.

(** The [UPDATE] a commit emits for a modified row. *)
Definition update (req : ExtractionRequest) (t : table) : table :=
  map (fun r => if Py.eqb (id r) (id req) then req else r) t.

(** The [INSERT] of a flush is refused, with [IntegrityError], when the
    primary key or the unique [idempotency_key] is taken. *)
Definition conflicts (req : ExtractionRequest) (t : table) : bool :=
  existsb (fun r => Py.eqb (id r) (id req)
                    || Py.eqb (idempotency_key r) (idempotency_key req)) t.

End Models.

(** ** The state the request handlers and the worker share: the table, and
       the worker's queue, attempts and stop event. *)

Record State : Type := mkState {
  db : Models.table;
  _q : list pystr;
  _attempts : gmap pystr Z;
  _stop_event : bool
}.

Definition initial : State := mkState [] [] ∅ false.

Definition with_db (t : Models.table) (st : State) : State :=
  mkState t (_q st) (_attempts st) (_stop_event st).
Definition with_q (q : list pystr) (st : State) : State :=
  mkState (db st) q (_attempts st) (_stop_event st).
Definition with_attempts (a : gmap pystr Z) (st : State) : State :=
  mkState (db st) (_q st) a (_stop_event st).

(** ** [app/worker.py] *)

(** What one attempt meets outside the program: the reply of
    [extract_with_llm], whether the guard's thread finishes within the
    budget, times out, or the attempt dies of some other exception (a
    thread that cannot be started, say), and the clock. *)
Inductive LLMReply : Type :=
| LLMReturns (llm_result : Fields)
| LLMRaises (description : pystr).

Inductive Guard : Type :=
| Completes
| TimesOut
| Faults (description : pystr).

Record Attempt : Type := mkAttempt {
  llm : LLMReply;
  guard : Guard;
  now : N
}.

Module Worker.

Section ExtractionWorker.

(** [EXTRACTOR_BACKEND], [WORKER_MAX_RETRIES] and
    [WORKER_TASK_TIMEOUT_SECONDS], the last as [str] prints it. *)
Variable _backend : pystr.
Variable _max_retries : Z.
Variable _task_timeout_seconds : pystr.

Definition enqueue (request_id : pystr) (st : State) : State :=
  with_q (_q st ++ [request_id]) st.

Definition stop (st : State) : State :=
  mkState (db st) (_q st ++ [lit "__STOP__"]) (_attempts st) true.

(** [a or b] on optional strings: [a] when it is neither [None] nor
    empty. *)
Definition or_else (a b : option pystr) : option pystr :=
  match a with
  | Some (_ :: _) => a
  | _ => b
  end.

Definition merge (llm_result regex_result : Fields) : Fields :=
  {| doc_type := or_else (doc_type llm_result) (doc_type regex_result);
     invoice_number :=
       or_else (invoice_number llm_result) (invoice_number regex_result);
     invoice_date :=
       or_else (invoice_date llm_result) (invoice_date regex_result);
     total_amount :=
       match total_amount llm_result with
       | Some x => Some x
       | None => total_amount regex_result
       end;
     currency := or_else (currency llm_result) (currency regex_result) |}.

Definition all_none (f : Fields) : bool :=
  bool_decide (doc_type f = None) && bool_decide (invoice_number f = None)
  && bool_decide (invoice_date f = None)
  && match total_amount f with None => true | Some _ => false end
  && bool_decide (currency f = None).

Definition run_extractor (reply : LLMReply) (document_text : pystr)
    : result Fields :=
  if Py.eqb _backend (lit "llm") then
    match reply with
    | LLMReturns llm_result =>
        match Extractor.extract_from_text document_text with
        | Ok regex_result =>
            let merged := merge llm_result regex_result in
            if all_none merged then Ok regex_result else Ok merged
        | Raise _ => Extractor.extract_from_text document_text
        end
    | LLMRaises _ => Extractor.extract_from_text document_text
    end
  else Extractor.extract_from_text document_text.

Definition execute_with_timeout (func : result Fields) (g : Guard)
    : result Fields :=
  match g with
  | TimesOut =>
      Raise (TimeoutError (lit "Extraction timed out after "
                           ++ _task_timeout_seconds ++ lit " seconds"))
  | Faults description => Raise (OtherException description)
  | Completes => func
  end.

Definition attempt (a : Attempt) (document_text : pystr) : result Fields :=
  execute_with_timeout (run_extractor (llm a) document_text) (guard a).

Definition completed (req : Models.ExtractionRequest) (r : Fields) (t : N)
    : Models.ExtractionRequest :=
  {| Models.id := Models.id req;
     Models.idempotency_key := Models.idempotency_key req;
     Models.status := Models.COMPLETED;
     Models.document_text := Models.document_text req;
     Models.doc_type := doc_type r;
     Models.invoice_number := invoice_number r;
     Models.invoice_date := invoice_date r;
     Models.total_amount := total_amount r;
     Models.currency := currency r;
     Models.error_code := None;
     Models.error_message := None;
     Models.created_at := Models.created_at req;
     Models.updated_at := t |}.

Definition error_of (ex : Exn) : pystr * pystr :=
  match ex with
  | TimeoutError description => (lit "EXTRACTOR_TIMEOUT", description)
  | ExtractorFailure code message => (code, message)
  | OtherException description => (lit "EXTRACTOR_ERROR", description)
  end.

Definition failed (req : Models.ExtractionRequest) (ex : Exn) (t : N)
    : Models.ExtractionRequest :=
  {| Models.id := Models.id req;
     Models.idempotency_key := Models.idempotency_key req;
     Models.status := Models.FAILED;
     Models.document_text := Models.document_text req;
     Models.doc_type := None;
     Models.invoice_number := None;
     Models.invoice_date := None;
     Models.total_amount := None;
     Models.currency := None;
     Models.error_code := Some (fst (error_of ex));
     Models.error_message := Some (snd (error_of ex));
     Models.created_at := Models.created_at req;
     Models.updated_at := t |}.

Definition _process_request (request_id : pystr) (a : Attempt)
    (st : State) : State :=
  match Models.get request_id (db st) with
  | None => st
  | Some req =>
      if negb (Models.is_pending (Models.status req)) then st
      else
        match attempt a (Models.document_text req) with
        | Ok r => with_db (Models.update (completed req r (now a)) (db st)) st
        | Raise ex =>
            let attempts :=
              (default 0 (_attempts st !! request_id) + 1)%Z in
            let st :=
              with_attempts (<[request_id := attempts]> (_attempts st)) st
            in
            if (attempts <=? _max_retries)%Z then enqueue request_id st
            else with_db (Models.update (failed req ex (now a)) (db st)) st
        end
  end.

(** The loop of [_run], one [Attempt] for each turn it takes. *)
Fixpoint _run (turns : list Attempt) (st : State) : State :=
  match turns with
  | [] => st
  | a :: turns' =>
      if _stop_event st then st
      else
        match _q st with
        | [] => _run turns' st
        | request_id :: q' =>
            if Py.eqb request_id (lit "__STOP__") then with_q q' st
            else _run turns' (_process_request request_id a (with_q q' st))
        end
  end.

End ExtractionWorker.

End Worker.

(** ** [app/schemas.py] and [app/main.py] *)

Module Schemas.

Record ExtractRequestBody : Type := mkBody {
  idempotency_key : pystr;
  document_text : pystr
}.

Record ExtractPostResponse : Type := mkPostResponse {
  request_id : pystr;
  status : Models.Status
}.

End Schemas.

Module Main.

(** What the handler gives back: a response, or the [IntegrityError] it
    raises again. *)
Inductive Reply : Type :=
| Responds (r : Schemas.ExtractPostResponse)
| RaisesIntegrityError.

Definition new_request (body : Schemas.ExtractRequestBody) (req_id : pystr)
    (t : N) : Models.ExtractionRequest :=
  {| Models.id := req_id;
     Models.idempotency_key := Schemas.idempotency_key body;
     Models.status := Models.PENDING;
     Models.document_text := Schemas.document_text body;
     Models.doc_type := None;
     Models.invoice_number := None;
     Models.invoice_date := None;
     Models.total_amount := None;
     Models.currency := None;
     Models.error_code := None;
     Models.error_message := None;
     Models.created_at := t;
     Models.updated_at := t |}.

Definition respond (r : Models.ExtractionRequest) : Reply :=
  Responds (Schemas.mkPostResponse (Models.id r) (Models.status r)).

(** [submit_extraction(body)].  [req_id] is what [_generate_request_id]
    draws and [t] the clock; [others] is what the other sessions and the
    worker commit between the handler's query and its flush, the identity
    when the handler runs alone. *)
Definition submit_extraction (body : Schemas.ExtractRequestBody)
    (req_id : pystr) (t : N) (others : State -> State) (st : State)
    : Reply * State :=
  match Models.by_key (Schemas.idempotency_key body) (db st) with
  | Some existing => (respond existing, st)
  | None =>
      let new_req := new_request body req_id t in
      let st := others st in
      if Models.conflicts new_req (db st) then
        match Models.by_key (Schemas.idempotency_key body) (db st) with
        | Some existing_again => (respond existing_again, st)
        | None => (RaisesIntegrityError, st)
        end
      else
        (Responds (Schemas.mkPostResponse req_id Models.PENDING),
         Worker.enqueue req_id (with_db (db st ++ [new_req]) st))
  end.

End Main.

(** ** The life of the system: submissions, worker turns and the stop. *)

(** How many times an id is in the queue. *)
Definition queued (request_id : pystr) (q : list pystr) : nat :=
  length (List.filter (Py.eqb request_id) q).

Module Lifecycle.

Section Configured.

Variable _backend : pystr.
Variable _max_retries : Z.
Variable _task_timeout_seconds : pystr.

Definition process : pystr -> Attempt -> State -> State :=
  Worker._process_request _backend _max_retries _task_timeout_seconds.
Definition run : list Attempt -> State -> State :=
  Worker._run _backend _max_retries _task_timeout_seconds.

Inductive step : State -> State -> Prop :=
| step_submit body req_id t st :
    step st (snd (Main.submit_extraction body req_id t (fun s => s) st))
| step_process request_id a st :
    step st (process request_id a st)
| step_run turns st :
    step st (run turns st)
| step_stop st :
    step st (Worker.stop st).

Definition reachable (st : State) : Prop := rtc step initial st.

(** The steps the system itself takes: the worker processes only what
    its loop pops. *)
Inductive system_step : State -> State -> Prop :=
| system_submit body req_id t st :
    system_step st
      (snd (Main.submit_extraction body req_id t (fun s => s) st))
| system_run turns st :
    system_step st (run turns st)
| system_stop st :
    system_step st (Worker.stop st).

(** The steps of the worker alone. *)
Inductive worker_step : State -> State -> Prop :=
| worker_process request_id a st :
    worker_step st (process request_id a st)
| worker_run turns st :
    worker_step st (run turns st).

Local Abbreviation attempt :=
  (Worker.attempt _backend _task_timeout_seconds).

(** The attempts counted for a request so far. *)
Definition attempts_of (request_id : pystr) (st : State) : Z :=
  default 0%Z (_attempts st !! request_id).

Definition count_attempt (request_id : pystr) (st : State) : State :=
  with_attempts
    (<[request_id := (attempts_of request_id st + 1)%Z]> (_attempts st)) st.

(** The five ways through [_process_request]. *)
Inductive outcome (request_id : pystr) (a : Attempt) (st : State)
    : State -> Prop :=
| out_missing :
    Models.get request_id (db st) = None ->
    outcome request_id a st st
| out_skipped req :
    Models.get request_id (db st) = Some req ->
    Models.status req <> Models.PENDING ->
    outcome request_id a st st
| out_completed req f :
    Models.get request_id (db st) = Some req ->
    Models.status req = Models.PENDING ->
    attempt a (Models.document_text req) = Ok f ->
    outcome request_id a st
      (with_db (Models.update (Worker.completed req f (now a)) (db st)) st)
| out_retried req ex :
    Models.get request_id (db st) = Some req ->
    Models.status req = Models.PENDING ->
    attempt a (Models.document_text req) = Raise ex ->
    (attempts_of request_id st + 1 <= _max_retries)%Z ->
    outcome request_id a st
      (Worker.enqueue request_id (count_attempt request_id st))
| out_failed req ex :
    Models.get request_id (db st) = Some req ->
    Models.status req = Models.PENDING ->
    attempt a (Models.document_text req) = Raise ex ->
    (_max_retries < attempts_of request_id st + 1)%Z ->
    outcome request_id a st
      (with_db (Models.update (Worker.failed req ex (now a)) (db st))
         (count_attempt request_id st)).

(** An attempt on a text fails. *)
Definition fails (text : pystr) (a : Attempt) : Prop :=
  exists ex, attempt a text = Raise ex.

(** Where a request that always fails stands: [PENDING], once in the
    queue, with at most [_max_retries] attempts counted; or [FAILED], out
    of the queue, with [_max_retries + 1]. *)
Definition retrying (request_id : pystr) (req : Models.ExtractionRequest)
    (st : State) : Prop :=
  (Models.get request_id (db st) = Some req
   /\ queued request_id (_q st) = 1%nat
   /\ (attempts_of request_id st <= _max_retries)%Z)
  \/ (exists ex t,
        Models.get request_id (db st) = Some (Worker.failed req ex t)
        /\ queued request_id (_q st) = 0%nat
        /\ attempts_of request_id st = (_max_retries + 1)%Z).

End Configured.

End Lifecycle.

(** ** The notions the properties are stated with *)

(** [sub] occurs in [s]. *)
Definition occurs_in (sub s : pystr) : Prop :=
  exists pre post, s = pre ++ sub ++ post.


(** The two groups of columns of a request. *)
Definition result_null (r : Models.ExtractionRequest) : Prop :=
  Models.doc_type r = None /\ Models.invoice_number r = None
  /\ Models.invoice_date r = None /\ Models.total_amount r = None
  /\ Models.currency r = None.

Definition error_null (r : Models.ExtractionRequest) : Prop :=
  Models.error_code r = None /\ Models.error_message r = None.

Definition exactly_one_group_null (r : Models.ExtractionRequest) : Prop :=
  (result_null r /\ ~ error_null r) \/ (~ result_null r /\ error_null r).

(** A status never regresses from [a] to [b]. *)
Definition status_le (a b : Models.Status) : Prop :=
  a = Models.PENDING \/ a = b.

(** The rows that carry an idempotency key. *)
Definition keyed (key : pystr) (t : Models.table) : Models.table :=
  List.filter (fun r => Py.eqb (Models.idempotency_key r) key) t.

(** What never changes in a row. *)
Definition ident (r : Models.ExtractionRequest) : pystr * pystr :=
  (Models.id r, Models.idempotency_key r).

(** The merge as the specification words it, with "is not null" as the
    test of presence for every field; to be compared with [Worker.merge]. *)
Definition prefer {A : Type} (external heuristic : option A) : option A :=
  match external with
  | Some x => Some x
  | None => heuristic
  end.

Definition merge_as_claimed (external heuristic : Fields) : Fields :=
  {| doc_type := prefer (doc_type external) (doc_type heuristic);
     invoice_number :=
       prefer (invoice_number external) (invoice_number heuristic);
     invoice_date := prefer (invoice_date external) (invoice_date heuristic);
     total_amount := prefer (total_amount external) (total_amount heuristic);
     currency := prefer (currency external) (currency heuristic) |}.

(** A string counts as present for [or] when it is neither null nor
    empty. *)
Definition truthy (a : option pystr) : Prop :=
  exists c s, a = Some (c :: s).

(** A merged string field takes the external value when that is truthy,
    the heuristic value otherwise; the amount takes the external value
    when that is not null. *)
Definition takes (merged external heuristic : option pystr) : Prop :=
  (truthy external -> merged = external)
  /\ (~ truthy external -> merged = heuristic).

Definition takes_amount (merged external heuristic : option Q) : Prop :=
  (external <> None -> merged = external)
  /\ (external = None -> merged = heuristic).

Definition all_null (f : Fields) : Prop :=
  doc_type f = None /\ invoice_number f = None /\ invoice_date f = None
  /\ total_amount f = None /\ currency f = None.

(** What holds of every row the system can reach. *)
Definition job_ok (r : Models.ExtractionRequest) : Prop :=
  match Models.status r with
  | Models.PENDING => result_null r /\ error_null r
  | Models.COMPLETED => is_Some (Models.doc_type r) /\ error_null r
  | Models.FAILED =>
      result_null r /\ is_Some (Models.error_code r)
      /\ is_Some (Models.error_message r)
  end.

Definition wf (st : State) : Prop :=
  NoDup (map Models.id (db st))
  /\ NoDup (map Models.idempotency_key (db st))
  /\ Forall job_ok (db st).

(** Every row found by its id is still found, its status not gone
    back. *)
Definition status_mono (st st' : State) : Prop :=
  forall i r, Models.get i (db st) = Some r ->
    exists r', Models.get i (db st') = Some r'
               /\ status_le (Models.status r) (Models.status r').

(** A step keeps the table well formed and the ids and keys as they
    are. *)
Definition keeps_wf (st st' : State) : Prop :=
  wf st -> wf st' /\ map ident (db st') = map ident (db st).

(** ** A small system to run the theorems on: the heuristic backend, one
       retry, and two submissions, the second of a text that makes the
       extractor fail. *)

Definition demo_backend : pystr := lit "regex".
Definition demo_retries : Z := 1.
Definition demo_timeout : pystr := lit "60.0".

Definition demo_body : Schemas.ExtractRequestBody :=
  Schemas.mkBody (lit "key-1") (lit "Invoice Number: INV-1 of 2024-01-15").

Definition failing_body : Schemas.ExtractRequestBody :=
  Schemas.mkBody (lit "key-2") (lit "<<TRIGGER_EXTRACTOR_FAILURE>>").

Definition demo_attempt : Attempt := mkAttempt (LLMRaises []) Completes 9.

Definition demo_state : State :=
  snd (Main.submit_extraction demo_body (lit "req_a") 1 (fun s => s) initial).

Definition failing_state : State :=
  snd (Main.submit_extraction failing_body (lit "req_b") 2 (fun s => s)
         initial).

Definition demo_process : pystr -> Attempt -> State -> State :=
  Lifecycle.process demo_backend demo_retries demo_timeout.

Definition demo_run : list Attempt -> State -> State :=
  Lifecycle.run demo_backend demo_retries demo_timeout.

Definition the_failure : Exn :=
  ExtractorFailure (lit "EXTRACTOR_TIMEOUT")
    (lit "Extraction process timed out after 30 seconds").

(** An external result whose [doc_type] is the empty string, and the
    heuristic result on a text. *)
Definition empty_doc_type : Fields :=
  mkFields (Some []) None None None None.

Definition demo_text : pystr := lit "INVOICE".

Definition demo_heuristic : Fields :=
  mkFields (Some (lit "invoice")) None None None None.

(** The small system further on: the first request processed; both
    requests submitted; the failing one after three turns of the loop; and
    an attempt on which the external backend answers a document type of
    its own. *)
Definition done_state : State :=
  demo_process (lit "req_a") demo_attempt demo_state.

Definition done_row : Models.ExtractionRequest :=
  default (Main.new_request demo_body (lit "req_a") 1)
    (Models.get (lit "req_a") (db done_state)).

Definition both_state : State :=
  snd (Main.submit_extraction failing_body (lit "req_b") 2 (fun s => s)
         demo_state).

Definition failed_state : State :=
  demo_run [demo_attempt; demo_attempt; demo_attempt] failing_state.

Definition failed_row : Models.ExtractionRequest :=
  Worker.failed (Main.new_request failing_body (lit "req_b") 2) the_failure 9.

Definition foreign_attempt : Attempt :=
  mkAttempt (LLMReturns (mkFields (Some (lit "bill")) None None None None))
    Completes 9.

(** ** [get_extraction] of [app/main.py] *)

Module Fetch.

Record ExtractionResult : Type := mkResult {
  doc_type : pystr;
  invoice_number : option pystr;
  invoice_date : option pystr;
  total_amount : option Q;
  currency : option pystr
}.

Record ExtractionError : Type := mkError {
  code : pystr;
  message : pystr
}.

Record ExtractGetResponse : Type := mkGetResponse {
  request_id : pystr;
  status : Models.Status;
  result : option ExtractionResult;
  error : option ExtractionError
}.

(** What the handler gives back: a response, the 404 of an unknown id,
    the error pydantic raises on a [doc_type] outside [DocTypeLiteral], or
    the error of [session.refresh] on a row that is gone. *)
Inductive Reply : Type :=
| Responds (r : ExtractGetResponse)
| NotFound
| RaisesValidationError
| RaisesRefreshError.

Definition DocTypeLiteral : list pystr :=
  map lit ["invoice"; "receipt"; "unknown"]%string.

(** [a or d] *)
Definition or_default (a : option pystr) (d : pystr) : pystr :=
  match a with
  | Some (c :: s) => c :: s
  | _ => d
  end.

Definition completed_reply (req : Models.ExtractionRequest) : Reply :=
  let doc_type := or_default (Models.doc_type req) (lit "unknown") in
  if Py.mem doc_type DocTypeLiteral then
    Responds
      (mkGetResponse (Models.id req) (Models.status req)
         (Some (mkResult doc_type (Models.invoice_number req)
                  (Models.invoice_date req) (Models.total_amount req)
                  (Models.currency req)))
         None)
  else RaisesValidationError.

Definition failed_reply (req : Models.ExtractionRequest) : Reply :=
  Responds
    (mkGetResponse (Models.id req) (Models.status req) None
       (Some (mkError (or_default (Models.error_code req) (lit "UNKNOWN_ERROR"))
                (or_default (Models.error_message req) [])))).

Definition pending_reply (req : Models.ExtractionRequest) : Reply :=
  Responds (mkGetResponse (Models.id req) (Models.status req) None None).

(** The loop over [range(max_attempts)]: [later i] is the table the
    [i]-th [session.refresh(req)] reads, after its sleep. *)
Fixpoint poll (n i : nat) (later : nat -> Models.table)
    (req : Models.ExtractionRequest) : Reply :=
  match n with
  | O => pending_reply req
  | S n' =>
      match Models.get (Models.id req) (later i) with
      | None => RaisesRefreshError
      | Some req' =>
          match Models.status req' with
          | Models.COMPLETED => completed_reply req'
          | Models.FAILED => failed_reply req'
          | Models.PENDING => poll n' (S i) later req'
          end
      end
  end.

(** [get_extraction(request_id)], with [GET_POLL_ATTEMPTS] as
    [max_attempts]. *)
Definition get_extraction (request_id : pystr) (max_attempts : Z)
    (t : Models.table) (later : nat -> Models.table) : Reply :=
  match Models.get request_id t with
  | None => NotFound
  | Some req =>
      match Models.status req with
      | Models.COMPLETED => completed_reply req
      | Models.FAILED => failed_reply req
      | Models.PENDING => poll (Z.to_nat max_attempts) O later req
      end
  end.

End Fetch.

(** ** More notions *)

(** What a row keeps for life. *)
Definition payload (r : Models.ExtractionRequest)
    : pystr * pystr * pystr * N :=
  (Models.id r, Models.idempotency_key r, Models.document_text r,
   Models.created_at r).

(** From one state to a later one a row found by its id is still found,
    with its payload; it is the very same row if it had left [PENDING]
    or is still [PENDING]. *)
Definition settled (st st' : State) : Prop :=
  forall i r, Models.get i (db st) = Some r ->
    exists r', Models.get i (db st') = Some r'
      /\ payload r' = payload r
      /\ (Models.status r <> Models.PENDING -> r' = r)
      /\ (Models.status r' = Models.PENDING -> r' = r).

(** The error codes the worker can store. *)
Definition stored_code (c : pystr) : Prop :=
  c = lit "EXTRACTOR_TIMEOUT" \/ c = lit "EXTRACTOR_ERROR".

(** A row under the heuristic backend: a result carries one of the three
    document types, a failure one of the two codes. *)
Definition heuristic_row (r : Models.ExtractionRequest) : Prop :=
  match Models.status r with
  | Models.PENDING => True
  | Models.COMPLETED =>
      exists d, Models.doc_type r = Some d /\ In d Fetch.DocTypeLiteral
  | Models.FAILED =>
      exists c, Models.error_code r = Some c /\ stored_code c
  end.

(** A row under any backend: a result carries a non-empty document
    type, a failure one of the two codes. *)
Definition stored_row (r : Models.ExtractionRequest) : Prop :=
  match Models.status r with
  | Models.PENDING => True
  | Models.COMPLETED => truthy (Models.doc_type r)
  | Models.FAILED =>
      exists c, Models.error_code r = Some c /\ stored_code c
  end.

(** The successive tables a fetch reads come from a system that takes
    steps. *)
Definition evolves (step : State -> State -> Prop) (st : State)
    (later : nat -> State) : Prop :=
  rtc step st (later O) /\ forall i, rtc step (later i) (later (S i)).


(** What is counted for every id: nothing for an unknown one, and for a
    request between 0 and the retries allowed, or one more once it is
    [FAILED]. *)
Definition counted (max_retries : Z) (st : State) : Prop :=
  forall i,
    match Models.get i (db st) with
    | None => _attempts st !! i = None
    | Some r =>
        match Models.status r with
        | Models.FAILED =>
            Lifecycle.attempts_of i st = (Z.max max_retries 0 + 1)%Z
        | _ =>
            (0 <= Lifecycle.attempts_of i st <= Z.max max_retries 0)%Z
        end
    end.


(** The local variables [candidates] and [parsed_candidates] of
    [_extract_currency_and_amount], as functions of the text. *)
Definition candidates_of (text : pystr) : list pystr :=
  let normalized_lines :=
    Py.split Extractor.LF (Extractor._normalize_text text) in
  let hinted l :=
    Extractor.found Extractor.symbol_pattern l
    || Extractor.found Extractor.code_pattern l in
  let totals :=
    List.filter (Extractor.found Extractor.total_pattern) normalized_lines in
  let totals_with_currency := List.filter hinted totals in
  let candidates :=
    fold_left (fold_left Extractor.add_candidate)
      [ match totals_with_currency with
        | [] => totals
        | _ => totals_with_currency
        end;
        List.filter (Extractor.found Extractor.symbol_pattern)
          normalized_lines;
        List.filter (Extractor.found Extractor.code_pattern)
          normalized_lines ]
      [] in
  let has_any_currency_hint := existsb hinted normalized_lines in
  if negb has_any_currency_hint
  then fold_left Extractor.add_candidate
         (List.filter (Extractor.found Extractor.amount_regex)
            normalized_lines) candidates
  else candidates.

Definition parsed_candidates (text : pystr) : list (Q * option pystr) :=
  concat (map Extractor.amounts_of_candidate (candidates_of text)).

(** A text with its line ends made uniform: each CR LF pair, and each CR
    left, as one LF. *)
Fixpoint unix_newlines (s : pystr) : pystr :=
  match s with
  | [] => []
  | c :: s' =>
      if c =? Extractor.CR then
        Extractor.LF ::
        match s' with
        | d :: s'' => if d =? Extractor.LF then unix_newlines s''
                      else unix_newlines s'
        | [] => []
        end
      else c :: unix_newlines s'
  end.




(** What the heuristic engine can give for the amount and its currency:
    no currency without an amount, no negative amount, no currency outside
    the supported codes. *)
Definition amount_shape (currency : option pystr) (amount : option Q)
    : Prop :=
  (amount = None -> currency = None)
  /\ (forall q, amount = Some q -> (0 <= q)%Q)
  /\ (forall c, currency = Some c ->
        In c Extractor.SUPPORTED_CURRENCY_CODES).

(** ** [_best_effort_parse_json] of [app/llm_extractor.py] *)

Module LLM.

Fixpoint find_from (i : Z) (sub s : pystr) : Z :=
  if Py.startswith s sub then i
  else
    match s with
    | [] => (-1)%Z
    | _ :: s' => find_from (i + 1) sub s'
    end.

(** [s.find(sub)]: the lowest index at which [sub] starts, or -1. *)
Definition find (sub s : pystr) : Z := find_from 0%Z sub s.

Fixpoint rfind_from (i : Z) (sub s : pystr) (last : Z) : Z :=
  let last := if Py.startswith s sub then i else last in
  match s with
  | [] => last
  | _ :: s' => rfind_from (i + 1) sub s' last
  end.

(** [s.rfind(sub)]: the highest index at which [sub] starts, or -1. *)
Definition rfind (sub s : pystr) : Z := rfind_from 0%Z sub s (-1)%Z.

(** [s[a:b]] and [s[a:]] for [0 <= a] and [0 <= b]. *)
Definition slice (a b : Z) (s : pystr) : pystr :=
  take (Z.to_nat (b - a)) (drop (Z.to_nat a) s).
Definition slice_from (a : Z) (s : pystr) : pystr :=
  drop (Z.to_nat a) s.

Section BestEffort.

(** The values of Python, [None] among them, and [json.loads], which
    gives no value where it raises. *)
Variable value : Type.
Variable none : value.
Variable json_loads : pystr -> option value.

Definition fence : pystr := lit "```".

(** The second attempt: what stands between the first and the last
    fence, without the line of the language tag. *)
Definition fenced_of (text : pystr) : option pystr :=
  if Py.contains fence text then
    let fence_start := find fence text in
    let fence_end := rfind fence text in
    if (fence_end >? fence_start)%Z then
      let fenced := Py.strip (slice (fence_start + 3) fence_end text) in
      if Py.contains [Extractor.LF] fenced
         && negb (Py.startswith (Py.lstrip fenced) (lit "{"))
      then
        let first_newline := find [Extractor.LF] fenced in
        Some (slice_from (first_newline + 1) fenced)
      else Some fenced
    else None
  else None.

(** The third attempt: from the first opening brace to the last closing
    one. *)
Definition braced_of (text : pystr) : option pystr :=
  let l := find (lit "{") text in
  let r := rfind (lit "}") text in
  if negb (l =? -1)%Z && negb (r =? -1)%Z && (r >? l)%Z
  then Some (slice l (r + 1) text) else None.

Definition _best_effort_parse_json (text : pystr) : value :=
  match json_loads text with
  | Some v => v
  | None =>
      match fenced_of text ≫= json_loads with
      | Some v => v
      | None =>
          match braced_of text ≫= json_loads with
          | Some v => v
          | None => none
          end
      end
  end.

End BestEffort.

End LLM.

(** A JSON object as a text, and a text that holds [body] in a fenced
    block with the language tag [tag]. *)
Definition json_object (inner : pystr) : pystr :=
  lit "{" ++ inner ++ lit "}".

Definition fenced_block (before tag body after : pystr) : pystr :=
  before ++ LLM.fence ++ tag ++ [Extractor.LF] ++ body ++ [Extractor.LF]
  ++ LLM.fence ++ after.

(** A reader that knows the empty object only. *)
Definition demo_loads (s : pystr) : option bool :=
  if Py.eqb s (lit "{}") then Some true else None.

(** ** What a pattern matches *)

(** A count of iterations within the upper bound of a repetition. *)
Definition within (hi : option nat) (n : nat) : Prop :=
  match hi with
  | Some h => (n <= h)%nat
  | None => True
  end.

(** [count] matches one after the other. *)
Fixpoint reps
    (M : Re.groups -> Re.cursor -> pystr -> Re.groups -> Re.cursor -> Prop)
    (count : nat) (g : Re.groups) (cur : Re.cursor) (w : pystr)
    (g' : Re.groups) (cur' : Re.cursor) : Prop :=
  match count with
  | O => w = [] /\ g' = g /\ cur' = cur
  | S c =>
      exists w1 w2 g1 cur1,
        M g cur w1 g1 cur1 /\ reps M c g1 cur1 w2 g' cur' /\ w = w1 ++ w2
  end.

(** [matches r g cur w g' cur']: from the position [cur], with the groups
    [g], the pattern [r] can read [w], to end at [cur'] with the groups
    [g']. *)
Fixpoint matches (r : Re.regex) (g : Re.groups) (cur : Re.cursor)
    (w : pystr) (g' : Re.groups) (cur' : Re.cursor) {struct r} : Prop :=
  match r with
  | Re.Eps => w = [] /\ g' = g /\ cur' = cur
  | Re.Chr p =>
      exists c, p c = true /\ Re.rest cur = c :: Re.rest cur'
                /\ Re.prev cur' = Some c /\ w = [c] /\ g' = g
  | Re.Seq r1 r2 =>
      exists w1 w2 g1 cur1,
        matches r1 g cur w1 g1 cur1 /\ matches r2 g1 cur1 w2 g' cur'
        /\ w = w1 ++ w2
  | Re.Alt r1 r2 => matches r1 g cur w g' cur' \/ matches r2 g cur w g' cur'
  | Re.Rep r' lo hi =>
      exists count,
        (lo <= count)%nat /\ within hi count
        /\ reps (matches r') count g cur w g' cur'
  | Re.Grp n r' =>
      exists g1, matches r' g cur w g1 cur' /\ g' = <[n := w]> g1
  | Re.WordB => Re.at_boundary cur = true /\ w = [] /\ g' = g /\ cur' = cur
  end.

(** The loop [Re.rmatch] runs for a repetition, under a name. *)
Section RepLoop.

Variable rm : Re.groups -> Re.cursor ->
              (Re.groups -> Re.cursor -> option (Re.groups * Re.cursor)) ->
              option (Re.groups * Re.cursor).
Variable lo : nat.
Variable hi : option nat.
Variable k : Re.groups -> Re.cursor -> option (Re.groups * Re.cursor).

Fixpoint rep_loop (fuel n : nat) (g : Re.groups) (cur : Re.cursor)
    {struct fuel} : option (Re.groups * Re.cursor) :=
  let stop := if Nat.leb lo n then k g cur else None in
  match fuel with
  | O => stop
  | S fuel' =>
      if Re.below hi n then
        match
          rm g cur (fun g' cur' =>
            if Nat.ltb (length (Re.rest cur')) (length (Re.rest cur))
            then rep_loop fuel' (S n) g' cur'
            else None)
        with
        | Some m => Some m
        | None => stop
        end
      else stop
  end.

End RepLoop.

(** The characters of [[A-Za-z0-9\-_/]]. *)
Definition is_token_char (c : N) : bool :=
  Py.is_alpha_ascii c || Py.is_digit_ascii c
  || (c =? 45) || (c =? 95) || (c =? 47).


(** * Properties of the text primitives *)

Lemma eqb_eq (a b : pystr) : Py.eqb a b = true <-> a = b.
Proof. unfold Py.eqb. apply bool_decide_eq_true. Qed.

Lemma eqb_neq (a b : pystr) : Py.eqb a b = false <-> a <> b.
Proof. unfold Py.eqb. apply bool_decide_eq_false. Qed.

Lemma eqb_refl (a : pystr) : Py.eqb a a = true.
Proof. by apply eqb_eq. Qed.

Lemma startswith_spec (pre s : pystr) :
  Py.startswith s pre = true <-> exists post, s = pre ++ post.
Proof.
  revert s; induction pre as [|p pre IH]; intros s; simpl.
  - split; [intros _; by exists s | done].
  - destruct s as [|c s].
    + split; [done | intros [post H]; discriminate].
    + rewrite andb_true_iff, N.eqb_eq, IH. split.
      * intros [-> [post ->]]. by exists post.
      * intros [post H]. injection H as -> ->. split; [done | by exists post].
Qed.

Lemma contains_spec (sub s : pystr) :
  Py.contains sub s = true <-> occurs_in sub s.
Proof.
  unfold occurs_in. induction s as [|c s IH].
  - simpl. rewrite orb_false_r, startswith_spec. split.
    + intros [post H]. by exists [], post.
    + intros [pre [post H]]. destruct pre; [by exists post | discriminate].
  - cbn [Py.contains]. rewrite orb_true_iff, startswith_spec, IH. split.
    + intros [[post H] | [pre [post H]]].
      * by exists [], post.
      * exists (c :: pre), post. by rewrite H.
    + intros [pre [post H]]. destruct pre as [|x pre].
      * left. by exists post.
      * right. injection H as -> ->. by exists pre, post.
Qed.

Lemma contains_false (sub s : pystr) :
  Py.contains sub s = false <-> ~ occurs_in sub s.
Proof.
  rewrite <- contains_spec. by destruct (Py.contains sub s).
Qed.


(** * The extraction engine *)

Section ExtractorProperties.
Import Extractor.


Lemma extract_from_text_ok (text : pystr) :
  Py.contains FAILURE_MARKER text = false ->
  extract_from_text text =
    Ok {| doc_type := Some (_detect_doc_type text);
          invoice_number := _extract_invoice_number text;
          invoice_date := _extract_date_iso text;
          total_amount := snd (_extract_currency_and_amount text);
          currency := fst (_extract_currency_and_amount text) |}.
Proof.
  intros H. unfold extract_from_text. rewrite H.
  by destruct (_extract_currency_and_amount text).
Qed.

Lemma extract_from_text_raise (text : pystr) :
  Py.contains FAILURE_MARKER text = true ->
  extract_from_text text =
    Raise (ExtractorFailure
             (lit "EXTRACTOR_TIMEOUT")
             (lit "Extraction process timed out after 30 seconds")).
Proof. intros H. unfold extract_from_text. by rewrite H. Qed.

(** C6: [extract_from_text] raises exactly when the text holds the
    failure marker; what it raises is then an [ExtractorFailure] of code
    [EXTRACTOR_TIMEOUT]; on every other text it returns a field mapping. *)
Theorem extract_from_text_raises_iff_marker (text : pystr) :
  ((exists e, extract_from_text text = Raise e)
     <-> occurs_in FAILURE_MARKER text)
  /\ (forall e, extract_from_text text = Raise e ->
        exists message, e = ExtractorFailure (lit "EXTRACTOR_TIMEOUT") message)
  /\ ((exists f, extract_from_text text = Ok f)
        <-> ~ occurs_in FAILURE_MARKER text).
Proof.
  rewrite <- contains_spec.
  destruct (Py.contains FAILURE_MARKER text) eqn:Hm.
  - rewrite (extract_from_text_raise _ Hm). repeat split.
    + by eexists.
    + intros e [= <-]. by eexists.
    + by intros [f Hf].
    + by intros H.
  - rewrite (extract_from_text_ok _ Hm). repeat split.
    + by intros [e He].
    + done.
    + done.
    + done.
    + intros _. by eexists.
Qed.



(** C5: the ISO branch of [_extract_date_iso] comes first and returns
    the matched text as it stands, whatever the calendar says:
    "2024-02-30", which [datetime] refuses, comes back as the date, while
    the month-name branch gives no date for the same day. *)
Theorem iso_date_not_validated :
  (forall text m,
     Re.search iso_date_pattern text = Some m ->
     _extract_date_iso text
     = Some (grp m 1 ++ lit "-" ++ grp m 2 ++ lit "-" ++ grp m 3))
  /\ (forall text,
        Re.search iso_date_pattern text = None ->
        Re.search month_date_pattern text = None ->
        _extract_date_iso text = None)
  /\ _extract_date_iso (lit "2024-02-30") = Some (lit "2024-02-30")
  /\ (exists f, extract_from_text (lit "Invoice of 2024-02-30") = Ok f
                /\ invoice_date f = Some (lit "2024-02-30"))
  /\ datetime 2024 2 30 = None
  /\ _extract_date_iso (lit "February 30, 2024") = None
  /\ _extract_date_iso (lit "December 15, 2024") = Some (lit "2024-12-15")
  /\ _extract_date_iso (lit "December 15, 2024, due 2025-01-14")
     = Some (lit "2025-01-14").
Proof.
  split; [intros text m H; unfold _extract_date_iso; by rewrite H |].
  split; [intros text H1 H2; unfold _extract_date_iso; by rewrite H1, H2 |].
  split; [by vm_compute |]. split.
  - eexists. split; [by vm_compute | by vm_compute].
  - repeat split; by vm_compute.
Qed.

(** C7: "1.234,56" and "1,234.56" both parse to 1234.56, and where the
    dot comes last the spaces are stripped; where the comma comes last
    they are kept, so that the amount "1 234.567,89" does not parse and is
    dropped. *)
Theorem comma_last_keeps_spaces :
  float (_normalize_number (lit "1.234,56")) = Some (Qred (123456 # 100))
  /\ float (_normalize_number (lit "1,234.56")) = Some (Qred (123456 # 100))
  /\ _normalize_number (lit "1 234,567.89") = lit "1234567.89"
  /\ _normalize_number (lit "1 234.567,89") = lit "1 234567.89"
  /\ float (_normalize_number (lit "1 234.567,89")) = None
  /\ _extract_currency_and_amount (lit "Total: $1 234,567.89")
     = (Some (lit "USD"), Some (Qred (123456789 # 100)))
  /\ _extract_currency_and_amount (lit "Total: $1 234.567,89")
     = (None, None).
Proof. repeat split; by vm_compute. Qed.

End ExtractorProperties.

(** * The table *)

Section TableProperties.
Import Models.

Lemma get_Some (i : pystr) (t : table) (r : ExtractionRequest) :
  get i t = Some r -> id r = i /\ In r t.
Proof.
  unfold get. intros H. apply find_some in H as [Hin Heq].
  by apply eqb_eq in Heq.
Qed.

Lemma by_key_Some (k : pystr) (t : table) (r : ExtractionRequest) :
  by_key k t = Some r -> idempotency_key r = k /\ In r t.
Proof.
  unfold by_key. intros H. apply find_some in H as [Hin Heq].
  by apply eqb_eq in Heq.
Qed.

Lemma by_key_None (k : pystr) (t : table) :
  by_key k t = None -> ~ In k (map idempotency_key t).
Proof.
  unfold by_key. intros H Hin. apply in_map_iff in Hin as [r [<- Hr]].
  apply (find_none _ _ H) in Hr. by rewrite eqb_refl in Hr.
Qed.

Lemma get_app (i : pystr) (t l : table) (r : ExtractionRequest) :
  get i t = Some r -> get i (t ++ l) = Some r.
Proof.
  unfold get. induction t as [|x t IH]; simpl; [done |].
  destruct (Py.eqb (id x) i); [done | apply IH].
Qed.

Lemma update_absent (req : ExtractionRequest) (t : table) :
  ~ In (id req) (map id t) -> update req t = t.
Proof.
  induction t as [|x t IH]; simpl; [done |]. intros H.
  destruct (Py.eqb (id x) (id req)) eqn:E.
  - apply eqb_eq in E. tauto.
  - f_equal. apply IH. tauto.
Qed.

Lemma get_update_eq (req r : ExtractionRequest) (t : table) :
  get (id req) t = Some r -> get (id req) (update req t) = Some req.
Proof.
  unfold get, update. induction t as [|x t IH]; simpl; [done |].
  destruct (Py.eqb (id x) (id req)) eqn:E; simpl.
  - intros _. by rewrite eqb_refl.
  - rewrite E. apply IH.
Qed.

Lemma get_update_ne (i : pystr) (req : ExtractionRequest) (t : table) :
  i <> id req -> get i (update req t) = get i t.
Proof.
  intros Hne. unfold get, update. induction t as [|x t IH]; simpl; [done |].
  destruct (Py.eqb (id x) (id req)) eqn:E; simpl.
  - apply eqb_eq in E.
    assert (Py.eqb (id req) i = false) as -> by (by apply eqb_neq).
    assert (Py.eqb (id x) i = false) as -> by (apply eqb_neq; congruence).
    apply IH.
  - destruct (Py.eqb (id x) i); [done | apply IH].
Qed.

Lemma update_ident (req r0 : ExtractionRequest) (t : table) :
  NoDup (map id t) ->
  get (id req) t = Some r0 ->
  idempotency_key req = idempotency_key r0 ->
  map ident (update req t) = map ident t.
Proof.
  intros Hnd Hget Hkey. induction t as [|x t IH]; simpl; [done |].
  apply NoDup_cons in Hnd as [Hx Hnd]. unfold get in Hget. simpl in Hget.
  destruct (Py.eqb (id x) (id req)) eqn:E.
  - injection Hget as ->. apply eqb_eq in E.
    rewrite update_absent.
    + unfold ident. by rewrite E, Hkey.
    + rewrite <- E. by rewrite <- list_elem_of_In.
  - f_equal. by apply IH.
Qed.

Lemma update_In (req r : ExtractionRequest) (t : table) :
  In r (update req t) -> r = req \/ In r t.
Proof.
  unfold update. intros H. apply in_map_iff in H as [x [Hx Hin]].
  destruct (Py.eqb (id x) (id req)); subst; tauto.
Qed.

Lemma by_key_ident (k : pystr) (t t' : table) :
  map ident t = map ident t' ->
  match by_key k t with
  | Some r => exists r', by_key k t' = Some r' /\ id r' = id r
  | None => by_key k t' = None
  end.
Proof.
  unfold by_key. revert t'. induction t as [|x t IH]; intros [|x' t'] H;
    try discriminate; simpl; [done |].
  injection H as Hid Hk Ht.
  rewrite <- Hk. destruct (Py.eqb (idempotency_key x) k).
  - by exists x'.
  - by apply IH.
Qed.

Lemma keyed_unique (k : pystr) (t : table) (r : ExtractionRequest) :
  NoDup (map idempotency_key t) ->
  by_key k t = Some r ->
  keyed k t = [r].
Proof.
  unfold by_key, keyed. induction t as [|x t IH]; simpl; [done |].
  intros Hnd. apply NoDup_cons in Hnd as [Hx Hnd].
  destruct (Py.eqb (idempotency_key x) k) eqn:E.
  - intros [= ->]. f_equal. apply eqb_eq in E.
    clear IH Hnd. induction t as [|y t IH]; simpl; [done |].
    rewrite list_elem_of_In in Hx. simpl in Hx.
    destruct (Py.eqb (idempotency_key y) k) eqn:E'.
    + apply eqb_eq in E'. rewrite E, E' in Hx. tauto.
    + apply IH. rewrite list_elem_of_In. tauto.
  - by apply IH.
Qed.

Lemma conflicts_false (req : ExtractionRequest) (t : table) :
  conflicts req t = false ->
  ~ In (id req) (map id t)
  /\ ~ In (idempotency_key req) (map idempotency_key t).
Proof.
  unfold conflicts. induction t as [|x t IH]; simpl; [tauto |].
  rewrite !orb_false_iff. intros [[E1 E2] H].
  apply eqb_neq in E1, E2. apply IH in H. tauto.
Qed.

Lemma conflicts_by_key (req r : ExtractionRequest) (t : table) :
  by_key (idempotency_key req) t = Some r -> conflicts req t = true.
Proof.
  intros H. apply by_key_Some in H as [Hk Hin]. unfold conflicts.
  apply existsb_exists. exists r. split; [done |].
  rewrite Hk, eqb_refl. apply orb_true_r.
Qed.

End TableProperties.

(** * The worker *)

Section WorkerProperties.

Variable _backend : pystr.
Variable _max_retries : Z.
Variable _task_timeout_seconds : pystr.

Local Abbreviation process :=
  (Lifecycle.process _backend _max_retries _task_timeout_seconds).
Local Abbreviation run :=
  (Lifecycle.run _backend _max_retries _task_timeout_seconds).
Local Abbreviation attempt :=
  (Worker.attempt _backend _task_timeout_seconds).
Local Abbreviation step :=
  (Lifecycle.step _backend _max_retries _task_timeout_seconds).
Local Abbreviation worker_step :=
  (Lifecycle.worker_step _backend _max_retries _task_timeout_seconds).
Local Abbreviation reachable :=
  (Lifecycle.reachable _backend _max_retries _task_timeout_seconds).
Local Abbreviation system_step :=
  (Lifecycle.system_step _backend _max_retries _task_timeout_seconds).
Local Abbreviation outcome :=
  (Lifecycle.outcome _backend _max_retries _task_timeout_seconds).
Local Abbreviation fails :=
  (Lifecycle.fails _backend _task_timeout_seconds).
Local Abbreviation retrying := (Lifecycle.retrying _max_retries).
Local Abbreviation attempts_of := Lifecycle.attempts_of.
Local Abbreviation count_attempt := Lifecycle.count_attempt.

Lemma process_outcome (request_id : pystr) (a : Attempt) (st : State) :
  outcome request_id a st (process request_id a st).
Proof.
  unfold Lifecycle.process, Worker._process_request.
  destruct (Models.get request_id (db st)) as [req|] eqn:Hget;
    [| by constructor].
  destruct (Models.status req) eqn:Hs; simpl;
    try (eapply Lifecycle.out_skipped; [done | by rewrite Hs]).
  destruct (attempt a (Models.document_text req)) as [f|ex] eqn:Ha.
  - by eapply Lifecycle.out_completed.
  - fold (Lifecycle.attempts_of request_id st). fold (Lifecycle.count_attempt request_id st).
    destruct (Z.leb_spec (attempts_of request_id st + 1) _max_retries).
    + by eapply Lifecycle.out_retried.
    + by eapply Lifecycle.out_failed.
Qed.

Lemma attempt_doc_type (a : Attempt) (text : pystr) (f : Fields) :
  attempt a text = Ok f -> is_Some (doc_type f).
Proof.
  assert (Hreg : forall f', Extractor.extract_from_text text = Ok f' ->
                            is_Some (doc_type f')).
  { unfold Extractor.extract_from_text. intros f'.
    destruct (Py.contains _ text); [done |].
    destruct (Extractor._extract_currency_and_amount text).
    intros [= <-]. by eexists. }
  unfold Worker.attempt, Worker.execute_with_timeout, Worker.run_extractor.
  destruct (guard a); try done.
  destruct (Py.eqb _backend (lit "llm")); [| apply Hreg].
  destruct (llm a) as [llm_result|]; [| apply Hreg].
  destruct (Extractor.extract_from_text text) as [regex_result|] eqn:E;
    [| done].
  destruct (Worker.all_none _) eqn:Hall; intros [= <-]; [by apply Hreg |].
  destruct (Hreg _ eq_refl) as [d Hd]. simpl. rewrite Hd.
  unfold Worker.or_else. destruct (doc_type llm_result) as [[|c s]|]; by eexists.
Qed.

(** Every turn of the loop is made of queue pops and of calls of
    [_process_request]: what both preserve, the loop preserves. *)
Lemma run_preserves (R : State -> State -> Prop) :
  (forall st, R st st) ->
  (forall st1 st2 st3, R st1 st2 -> R st2 st3 -> R st1 st3) ->
  (forall q st, R st (with_q q st)) ->
  (forall request_id a st, R st (process request_id a st)) ->
  forall turns st, R st (run turns st).
Proof.
  intros Hrefl Htrans Hq Hp turns.
  induction turns as [|a turns IH]; intros st; simpl; [apply Hrefl |].
  destruct (_stop_event st); [apply Hrefl |].
  destruct (_q st) as [|request_id q']; [apply IH |].
  destruct (Py.eqb request_id (lit "__STOP__")); [apply Hq |].
  eapply Htrans; [apply Hq |]. eapply Htrans; [apply Hp | apply IH].
Qed.

(** ** Statuses only move forward *)

Lemma status_mono_refl (st : State) : status_mono st st.
Proof. intros i r H. exists r. split; [done | by right]. Qed.

Lemma status_mono_db (st st' : State) : db st' = db st -> status_mono st st'.
Proof. intros Hdb i r H. exists r. rewrite Hdb. split; [done | by right]. Qed.

Lemma status_mono_trans (st1 st2 st3 : State) :
  status_mono st1 st2 -> status_mono st2 st3 -> status_mono st1 st3.
Proof.
  intros H12 H23 i r H. destruct (H12 i r H) as [r2 [H2 Hle2]].
  destruct (H23 i r2 H2) as [r3 [H3 Hle3]]. exists r3. split; [done |].
  unfold status_le in *. destruct Hle2 as [-> | ->]; [by left | done].
Qed.

Lemma status_mono_update (req r0 : Models.ExtractionRequest) (st st0 : State) :
  db st0 = db st ->
  Models.get (Models.id req) (db st) = Some r0 ->
  Models.status r0 = Models.PENDING ->
  status_mono st (with_db (Models.update req (db st)) st0).
Proof.
  intros Hdb Hget Hs i r H. simpl.
  destruct (decide (i = Models.id req)) as [-> | Hne].
  - exists req. split; [by eapply get_update_eq |].
    left. congruence.
  - exists r. split; [by rewrite get_update_ne | by right].
Qed.

Lemma outcome_status_mono (request_id : pystr) (a : Attempt) (st st' : State) :
  outcome request_id a st st' -> status_mono st st'.
Proof.
  intros H.
  destruct H as [| |req f Hget Hs _|req ex Hget Hs _ _|req ex Hget Hs _ _];
    try (by apply status_mono_db).
  - apply get_Some in Hget as Hid. destruct Hid as [<- _].
    by eapply (status_mono_update (Worker.completed req f (now a))).
  - apply get_Some in Hget as Hid. destruct Hid as [<- _].
    by eapply (status_mono_update (Worker.failed req ex (now a))).
Qed.

Lemma process_status_mono (request_id : pystr) (a : Attempt) (st : State) :
  status_mono st (process request_id a st).
Proof. eapply outcome_status_mono, process_outcome. Qed.

Lemma run_status_mono (turns : list Attempt) (st : State) :
  status_mono st (run turns st).
Proof.
  apply run_preserves; auto using status_mono_refl, process_status_mono.
  - apply status_mono_trans.
  - intros q st0. by apply status_mono_db.
Qed.

Lemma submit_status_mono body req_id t (st : State) :
  status_mono st (snd (Main.submit_extraction body req_id t (fun s => s) st)).
Proof.
  unfold Main.submit_extraction.
  destruct (Models.by_key (Schemas.idempotency_key body) (db st))
    as [existing|]; [apply status_mono_refl |].
  destruct (Models.conflicts (Main.new_request body req_id t) (db st)).
  - apply status_mono_refl.
  - intros i r H. exists r. simpl. split; [by apply get_app | by right].
Qed.

Lemma step_status_mono (st st' : State) : step st st' -> status_mono st st'.
Proof.
  intros []; auto using submit_status_mono, process_status_mono,
    run_status_mono.
  by apply status_mono_db.
Qed.

Lemma steps_status_mono (st st' : State) :
  rtc step st st' -> status_mono st st'.
Proof.
  induction 1 as [|st1 st2 st3 H12 _ IH]; [apply status_mono_refl |].
  eapply status_mono_trans; [by apply step_status_mono | done].
Qed.

(** C4: over any run of the system a request keeps its status or leaves
    [PENDING] for [COMPLETED] or [FAILED]; [_process_request] on a request
    that is missing or is not [PENDING] changes nothing. *)
Theorem status_never_regresses (st st' : State) :
  rtc step st st' ->
  (forall i r, Models.get i (db st) = Some r ->
     exists r', Models.get i (db st') = Some r'
       /\ (Models.status r' = Models.status r
            \/ (Models.status r = Models.PENDING
                /\ (Models.status r' = Models.COMPLETED
                     \/ Models.status r' = Models.FAILED))))
  /\ (forall request_id a,
        Models.get request_id (db st') = None ->
        process request_id a st' = st')
  /\ (forall request_id a r,
        Models.get request_id (db st') = Some r ->
        Models.status r <> Models.PENDING ->
        process request_id a st' = st').
Proof.
  intros Hsteps. repeat split.
  - intros i r Hget.
    destruct (steps_status_mono _ _ Hsteps i r Hget) as [r' [Hget' Hle]].
    exists r'. split; [done |]. destruct Hle as [Hp | ->]; [| by left].
    rewrite Hp. destruct (Models.status r'); auto.
  - intros request_id a Hget.
    unfold Lifecycle.process, Worker._process_request. by rewrite Hget.
  - intros request_id a r Hget Hs.
    unfold Lifecycle.process, Worker._process_request. rewrite Hget.
    by destruct (Models.status r).
Qed.

Lemma process_retried (request_id : pystr) (a : Attempt)
    (st : State) (req : Models.ExtractionRequest) (ex : Exn) :
  Models.get request_id (db st) = Some req ->
  Models.status req = Models.PENDING ->
  attempt a (Models.document_text req) = Raise ex ->
  (attempts_of request_id st + 1 <= _max_retries)%Z ->
  process request_id a st
  = Worker.enqueue request_id (count_attempt request_id st).
Proof.
  intros Hget Hs Ha Hle.
  unfold Lifecycle.process, Worker._process_request.
  rewrite Hget, Hs. simpl. rewrite Ha. fold (Lifecycle.attempts_of request_id st).
  destruct (Z.leb_spec (attempts_of request_id st + 1) _max_retries);
    [done | lia].
Qed.

Lemma attempts_of_counted (request_id : pystr) (st : State) :
  attempts_of request_id (count_attempt request_id st)
  = (attempts_of request_id st + 1)%Z.
Proof. unfold Lifecycle.attempts_of at 1. simpl. by rewrite lookup_insert_eq. Qed.

Lemma attempts_of_other (request_id other : pystr) (st : State) :
  other <> request_id ->
  attempts_of request_id (count_attempt other st)
  = attempts_of request_id st.
Proof.
  intros Hne. unfold Lifecycle.attempts_of at 1. simpl.
  by rewrite lookup_insert_ne.
Qed.

(** C9: a failed attempt that is still within the retries leaves the
    table as it was, the request [PENDING] with every column, and puts the
    same id back at the end of the queue. *)
Theorem retry_leaves_job_untouched (request_id : pystr) (a : Attempt)
    (st : State) (req : Models.ExtractionRequest) (ex : Exn) :
  Models.get request_id (db st) = Some req ->
  Models.status req = Models.PENDING ->
  attempt a (Models.document_text req) = Raise ex ->
  (attempts_of request_id st + 1 <= _max_retries)%Z ->
  db (process request_id a st) = db st
  /\ Models.get request_id (db (process request_id a st)) = Some req
  /\ _q (process request_id a st) = _q st ++ [request_id]
  /\ _attempts (process request_id a st) !! request_id
     = Some (attempts_of request_id st + 1)%Z
  /\ _stop_event (process request_id a st) = _stop_event st.
Proof.
  intros Hget Hs Ha Hle.
  rewrite (process_retried request_id a st req ex Hget Hs Ha Hle). simpl.
  repeat split; try done. apply lookup_insert_eq.
Qed.

(** ** The retries *)

Lemma run_idle (turns : list Attempt) (st : State) :
  _q st = [] -> run turns st = st.
Proof.
  intros Hq. induction turns as [|a turns IH]; simpl; [done |].
  rewrite Hq. by destruct (_stop_event st).
Qed.

Lemma run_turn (a : Attempt) (turns : list Attempt) (st : State)
    (request_id : pystr) :
  _stop_event st = false ->
  _q st = [request_id] ->
  request_id <> lit "__STOP__" ->
  run (a :: turns) st = run turns (process request_id a (with_q [] st)).
Proof.
  intros Hstop Hq Hne. simpl. rewrite Hstop, Hq.
  by apply eqb_neq in Hne as ->.
Qed.

Lemma run_retries (request_id : pystr) (req : Models.ExtractionRequest)
    (turns : list Attempt) :
  request_id <> lit "__STOP__" ->
  Models.status req = Models.PENDING ->
  Forall (fails (Models.document_text req)) turns ->
  forall st,
    Models.get request_id (db st) = Some req ->
    _q st = [request_id] ->
    _stop_event st = false ->
    (attempts_of request_id st + Z.of_nat (length turns) <= _max_retries)%Z ->
    db (run turns st) = db st
    /\ _q (run turns st) = [request_id]
    /\ _stop_event (run turns st) = false
    /\ attempts_of request_id (run turns st)
       = (attempts_of request_id st + Z.of_nat (length turns))%Z.
Proof.
  intros Hne Hs Hfail.
  induction Hfail as [|a turns [ex Ha] _ IH]; intros st Hget Hq Hstop Hle.
  - simpl. repeat split; try done. lia.
  - rewrite (run_turn a turns st request_id Hstop Hq Hne).
    simpl length in Hle.
    rewrite (process_retried request_id a (with_q [] st) req ex);
      try done; [| change (attempts_of request_id (with_q [] st))
                     with (attempts_of request_id st); lia].
    set (st1 := Worker.enqueue request_id
                  (count_attempt request_id (with_q [] st))).
    assert (Hn : attempts_of request_id st1
                 = (attempts_of request_id st + 1)%Z)
      by exact (attempts_of_counted request_id st).
    destruct (IH st1) as [Hdb2 [Hq2 [Hstop2 Hatt2]]]; try done.
    { rewrite Hn. lia. }
    repeat split; try done.
    rewrite Hatt2, Hn. simpl length. lia.
Qed.

Lemma process_exhausted (request_id : pystr) (a : Attempt) (st : State)
    (req : Models.ExtractionRequest) (ex : Exn) :
  Models.get request_id (db st) = Some req ->
  Models.status req = Models.PENDING ->
  attempt a (Models.document_text req) = Raise ex ->
  (_max_retries < attempts_of request_id st + 1)%Z ->
  process request_id a st
  = with_db (Models.update (Worker.failed req ex (now a)) (db st))
      (count_attempt request_id st).
Proof.
  intros Hget Hs Ha Hlt.
  unfold Lifecycle.process, Worker._process_request.
  rewrite Hget, Hs. simpl. rewrite Ha. fold (Lifecycle.attempts_of request_id st).
  destruct (Z.leb_spec (attempts_of request_id st + 1) _max_retries);
    [lia | done].
Qed.

Lemma run_exhausts (request_id : pystr) (req : Models.ExtractionRequest)
    (turns : list Attempt) :
  request_id <> lit "__STOP__" ->
  Models.status req = Models.PENDING ->
  Forall (fails (Models.document_text req)) turns ->
  forall st a ex,
    Models.get request_id (db st) = Some req ->
    _q st = [request_id] ->
    _stop_event st = false ->
    (attempts_of request_id st <= _max_retries)%Z ->
    turns !! Z.to_nat (_max_retries - attempts_of request_id st) = Some a ->
    attempt a (Models.document_text req) = Raise ex ->
    db (run turns st)
    = Models.update (Worker.failed req ex (now a)) (db st)
    /\ _q (run turns st) = []
    /\ attempts_of request_id (run turns st) = (_max_retries + 1)%Z.
Proof.
  intros Hne Hs Hfail.
  induction Hfail as [|a0 turns [ex0 Ha0] _ IH];
    intros st a ex Hget Hq Hstop Hle Hlook Ha; [done |].
  rewrite (run_turn a0 turns st request_id Hstop Hq Hne).
  destruct (Z.leb_spec (attempts_of request_id st + 1) _max_retries)
    as [Hmore | Hlast].
  - rewrite (process_retried request_id a0 (with_q [] st) req ex0);
      try done.
    set (st1 := Worker.enqueue request_id
                  (count_attempt request_id (with_q [] st))).
    assert (Hn : attempts_of request_id st1
                 = (attempts_of request_id st + 1)%Z)
      by exact (attempts_of_counted request_id st).
    replace (Z.to_nat (_max_retries - attempts_of request_id st))
      with (S (Z.to_nat (_max_retries - attempts_of request_id st1)))
      in Hlook by (rewrite Hn; lia).
    destruct (IH st1 a ex) as [Hdb2 [Hq2 Hatt2]]; try done.
    rewrite Hn. lia.
  - replace (Z.to_nat (_max_retries - attempts_of request_id st))
      with O in Hlook by lia.
    injection Hlook as ->.
    rewrite (process_exhausted request_id a (with_q [] st) req ex);
      try done.
    rewrite run_idle by done. repeat split.
    unfold Lifecycle.attempts_of at 1. simpl. rewrite lookup_insert_eq. simpl.
    change (attempts_of request_id (with_q [] st))
      with (attempts_of request_id st). lia.
Qed.

(** *** The retries among other requests *)

Lemma retrying_ext (request_id : pystr) (req : Models.ExtractionRequest)
    (st st' : State) :
  Models.get request_id (db st') = Models.get request_id (db st) ->
  queued request_id (_q st') = queued request_id (_q st) ->
  attempts_of request_id st' = attempts_of request_id st ->
  retrying request_id req st -> retrying request_id req st'.
Proof. unfold Lifecycle.retrying. intros -> -> ->. done. Qed.

Lemma queued_app (request_id other : pystr) (q : list pystr) :
  queued request_id (q ++ [other])
  = (queued request_id q + if Py.eqb request_id other then 1 else 0)%nat.
Proof.
  unfold queued. rewrite List.filter_app, length_app. simpl.
  by destruct (Py.eqb request_id other).
Qed.

Lemma queued_other (request_id other : pystr) (q : list pystr) :
  other <> request_id ->
  queued request_id (q ++ [other]) = queued request_id q.
Proof.
  intros Hne. rewrite queued_app.
  assert (Py.eqb request_id other = false) as -> by (by apply eqb_neq).
  lia.
Qed.

Lemma process_other (request_id other : pystr) (a : Attempt) (st : State) :
  other <> request_id ->
  Models.get request_id (db (process other a st))
  = Models.get request_id (db st)
  /\ queued request_id (_q (process other a st)) = queued request_id (_q st)
  /\ attempts_of request_id (process other a st)
     = attempts_of request_id st.
Proof.
  intros Hne.
  destruct (process_outcome other a st)
    as [| |r f Hget _ _|r ex Hget _ _ _|r ex Hget _ _ _]; try done.
  - apply get_Some in Hget as [Hid _]. simpl.
    split; [| done]. apply get_update_ne. simpl. congruence.
  - simpl. split; [done |]. split; [by apply queued_other |].
    by apply attempts_of_other.
  - apply get_Some in Hget as [Hid _]. simpl.
    split; [| split; [done | by apply attempts_of_other]].
    apply get_update_ne. simpl. congruence.
Qed.

Lemma process_retrying (request_id : pystr) (req : Models.ExtractionRequest)
    (a : Attempt) (q' : list pystr) (st : State) :
  Models.status req = Models.PENDING ->
  fails (Models.document_text req) a ->
  _q st = request_id :: q' ->
  retrying request_id req st ->
  retrying request_id req (process request_id a (with_q q' st)).
Proof.
  intros Hs [ex Ha] Hq [[Hget [Hcount Hle]] | [ex' [t [_ [Hcount _]]]]].
  - assert (Hq0 : queued request_id q' = 0%nat).
    { rewrite Hq in Hcount. unfold queued in *. simpl in Hcount.
      rewrite eqb_refl in Hcount. simpl in Hcount. lia. }
    destruct (Z.leb_spec (attempts_of request_id st + 1) _max_retries)
      as [Hmore | Hlast].
    + rewrite (process_retried request_id a (with_q q' st) req ex);
        try done.
      set (st1 := Worker.enqueue request_id
                    (count_attempt request_id (with_q q' st))).
      assert (E2 : queued request_id (_q st1) = 1%nat).
      { change (_q st1) with (q' ++ [request_id]).
        rewrite queued_app, eqb_refl. lia. }
      assert (E3 : attempts_of request_id st1
                   = (attempts_of request_id st + 1)%Z)
        by exact (attempts_of_counted request_id st).
      left. rewrite E3. by repeat split.
    + rewrite (process_exhausted request_id a (with_q q' st) req ex);
        try done.
      set (st1 := with_db
                    (Models.update (Worker.failed req ex (now a)) (db st))
                    (count_attempt request_id (with_q q' st))).
      assert (E1 : Models.get request_id (db st1)
                   = Some (Worker.failed req ex (now a))).
      { apply get_Some in Hget as Hid. destruct Hid as [Hid _].
        change (db st1)
          with (Models.update (Worker.failed req ex (now a)) (db st)).
        rewrite <- Hid.
        apply (get_update_eq (Worker.failed req ex (now a)) req).
        simpl. by rewrite Hid. }
      assert (E3 : attempts_of request_id st1
                   = (attempts_of request_id st + 1)%Z)
        by exact (attempts_of_counted request_id st).
      right. exists ex, (now a).
      split; [exact E1 |]. split; [exact Hq0 |].
      etrans; [exact E3 | lia].
  - rewrite Hq in Hcount. unfold queued in Hcount. simpl in Hcount.
    by rewrite eqb_refl in Hcount.
Qed.

Lemma pop_other (request_id other : pystr) (q' : list pystr)
    (req : Models.ExtractionRequest) (st : State) :
  other <> request_id ->
  _q st = other :: q' ->
  retrying request_id req st ->
  retrying request_id req (with_q q' st).
Proof.
  intros Hne Hq. apply retrying_ext; try done. simpl.
  rewrite Hq. unfold queued. simpl.
  by assert (Py.eqb request_id other = false) as -> by (by apply eqb_neq).
Qed.

Lemma run_retrying (request_id : pystr) (req : Models.ExtractionRequest) :
  request_id <> lit "__STOP__" ->
  Models.status req = Models.PENDING ->
  (forall a, fails (Models.document_text req) a) ->
  forall turns st,
    retrying request_id req st -> retrying request_id req (run turns st).
Proof.
  intros Hne Hs Hfail turns.
  induction turns as [|a turns IH]; intros st Hr; simpl; [done |].
  destruct (_stop_event st); [done |].
  destruct (_q st) as [|h q'] eqn:Hq; [by apply IH |].
  destruct (Py.eqb h (lit "__STOP__")) eqn:Hstop.
  - apply eqb_eq in Hstop as ->. by eapply pop_other.
  - apply IH. destruct (decide (h = request_id)) as [-> | Hother].
    + by apply process_retrying.
    + destruct (process_other request_id h a (with_q q' st) Hother)
        as [E1 [E2 E3]].
      eapply retrying_ext; [exact E1 | exact E2 | exact E3 |].
      by eapply pop_other.
Qed.

Lemma submit_retrying (request_id : pystr) (req : Models.ExtractionRequest)
    body req_id t (st : State) :
  retrying request_id req st ->
  retrying request_id req
    (snd (Main.submit_extraction body req_id t (fun s => s) st)).
Proof.
  intros Hr. unfold Main.submit_extraction.
  destruct (Models.by_key (Schemas.idempotency_key body) (db st));
    [done |].
  destruct (Models.conflicts (Main.new_request body req_id t) (db st))
    eqn:Hc; [done |].
  apply conflicts_false in Hc as [Hid _]. simpl in Hid.
  assert (Hin : exists r, Models.get request_id (db st) = Some r).
  { destruct Hr as [[H _] | [ex [t' [H _]]]]; by eexists. }
  destruct Hin as [r Hget].
  assert (Hne : req_id <> request_id).
  { intros ->. apply Hid. apply get_Some in Hget as [<- Hin].
    by apply in_map. }
  eapply retrying_ext; [| | | exact Hr]; simpl.
  - rewrite Hget. by apply get_app.
  - by apply queued_other.
  - done.
Qed.

Lemma system_steps_retrying (request_id : pystr)
    (req : Models.ExtractionRequest) (st st' : State) :
  request_id <> lit "__STOP__" ->
  Models.status req = Models.PENDING ->
  (forall a, fails (Models.document_text req) a) ->
  rtc system_step st st' ->
  retrying request_id req st -> retrying request_id req st'.
Proof.
  intros Hne Hs Hfail Hsteps.
  induction Hsteps as [|st1 st2 st3 H12 _ IH]; [done |].
  intros Hr. apply IH. destruct H12.
  - by apply submit_retrying.
  - by apply run_retrying.
  - eapply retrying_ext; [| | | exact Hr]; simpl; try done.
    apply queued_other. congruence.
Qed.

(** C2: a request every attempt of which fails is [PENDING] and queued
    after each of its first [_max_retries] attempts, and [FAILED] after the
    next, with the code and message of that failure; the attempts counted
    are then [_max_retries + 1] however long the loop goes on, and
    processing the request again changes nothing.  Among other requests
    and submissions it is, at every moment, [PENDING], once in the queue
    and with at most [_max_retries] attempts counted, or [FAILED], out of
    the queue and with exactly [_max_retries + 1]. *)
Theorem retry_bound (request_id : pystr) (st : State)
    (req : Models.ExtractionRequest) :
  (0 <= _max_retries)%Z ->
  request_id <> lit "__STOP__" ->
  Models.get request_id (db st) = Some req ->
  Models.status req = Models.PENDING ->
  _attempts st !! request_id = None ->
  (forall turns,
     _q st = [request_id] ->
     _stop_event st = false ->
     Forall (fails (Models.document_text req)) turns ->
     ((Z.of_nat (length turns) <= _max_retries)%Z ->
        Models.get request_id (db (run turns st)) = Some req
        /\ _q (run turns st) = [request_id]
        /\ attempts_of request_id (run turns st) = Z.of_nat (length turns))
     /\ (forall a ex,
           turns !! Z.to_nat _max_retries = Some a ->
           attempt a (Models.document_text req) = Raise ex ->
           exists r,
             Models.get request_id (db (run turns st)) = Some r
             /\ r = Worker.failed req ex (now a)
             /\ Models.status r = Models.FAILED
             /\ Models.error_code r
                = Some match ex with
                       | TimeoutError _ => lit "EXTRACTOR_TIMEOUT"
                       | ExtractorFailure code _ => code
                       | OtherException _ => lit "EXTRACTOR_ERROR"
                       end
             /\ Models.error_message r
                = Some match ex with
                       | TimeoutError description => description
                       | ExtractorFailure _ message => message
                       | OtherException description => description
                       end
             /\ _q (run turns st) = []
             /\ attempts_of request_id (run turns st)
                = (_max_retries + 1)%Z
             /\ forall a',
                  process request_id a' (run turns st) = run turns st))
  /\ (queued request_id (_q st) = 1%nat ->
      (forall a, fails (Models.document_text req) a) ->
      forall st',
        rtc system_step st st' ->
        (Models.get request_id (db st') = Some req
         /\ queued request_id (_q st') = 1%nat
         /\ (attempts_of request_id st' <= _max_retries)%Z)
        \/ (exists ex t,
              Models.get request_id (db st') = Some (Worker.failed req ex t)
              /\ queued request_id (_q st') = 0%nat
              /\ attempts_of request_id st' = (_max_retries + 1)%Z)).
Proof.
  intros Hmax Hne Hget Hs Hnone.
  assert (H0 : attempts_of request_id st = 0%Z).
  { unfold Lifecycle.attempts_of. by rewrite Hnone. }
  split; [intros turns Hq Hstop Hfail; split |].
  - intros Hlen.
    destruct (run_retries request_id req turns Hne Hs Hfail st)
      as [Hdb [Hq' [_ Hatt]]]; try done.
    { rewrite H0. lia. }
    rewrite Hdb, Hatt, H0. repeat split; try done.
  - intros a ex Hlook Ha.
    destruct (run_exhausts request_id req turns Hne Hs Hfail st a ex)
      as [Hdb [Hq' Hatt]]; try done.
    { rewrite H0. lia. }
    { rewrite H0. by rewrite Z.sub_0_r. }
    apply get_Some in Hget as Hid. destruct Hid as [Hid _].
    assert (Hget' : Models.get request_id (db (run turns st))
                    = Some (Worker.failed req ex (now a))).
    { rewrite Hdb, <- Hid.
      apply (get_update_eq (Worker.failed req ex (now a)) req).
      simpl. by rewrite Hid. }
    exists (Worker.failed req ex (now a)).
    repeat split; try done.
    + by destruct ex.
    + by destruct ex.
    + intros a'. unfold Lifecycle.process, Worker._process_request.
      by rewrite Hget'.
  - intros Hcount Hfail st' Hsteps.
    apply (system_steps_retrying request_id req st st' Hne Hs Hfail Hsteps).
    left. rewrite H0. by repeat split.
Qed.

(** ** What every reachable state satisfies *)

Lemma ident_ids (t t' : Models.table) :
  map ident t' = map ident t ->
  map Models.id t' = map Models.id t
  /\ map Models.idempotency_key t' = map Models.idempotency_key t.
Proof.
  intros H. split.
  - assert (E : map fst (map ident t') = map fst (map ident t))
      by (by rewrite H).
    by rewrite !map_map in E.
  - assert (E : map snd (map ident t') = map snd (map ident t))
      by (by rewrite H).
    by rewrite !map_map in E.
Qed.

Lemma keeps_wf_db (st st' : State) : db st' = db st -> keeps_wf st st'.
Proof. intros Hdb Hwf. unfold wf in *. by rewrite Hdb. Qed.

Lemma keeps_wf_trans (st1 st2 st3 : State) :
  keeps_wf st1 st2 -> keeps_wf st2 st3 -> keeps_wf st1 st3.
Proof.
  intros H12 H23 Hwf. destruct (H12 Hwf) as [Hwf2 E2].
  destruct (H23 Hwf2) as [Hwf3 E3]. split; [done | congruence].
Qed.

Lemma keeps_wf_update (req r0 : Models.ExtractionRequest) (st st0 : State) :
  db st0 = db st ->
  Models.get (Models.id req) (db st) = Some r0 ->
  Models.idempotency_key req = Models.idempotency_key r0 ->
  job_ok req ->
  keeps_wf st (with_db (Models.update req (db st)) st0).
Proof.
  intros Hdb Hget Hkey Hok [Hid [Hk Hall]]. simpl.
  assert (E : map ident (Models.update req (db st)) = map ident (db st))
    by (by eapply update_ident).
  destruct (ident_ids _ _ E) as [E1 E2].
  split; [| done]. unfold wf. simpl. rewrite E1, E2.
  repeat split; try done.
  apply List.Forall_forall. intros r Hr.
  apply update_In in Hr as [-> | Hr]; [done |].
  by apply (proj1 (List.Forall_forall _ _) Hall).
Qed.

Lemma completed_ok (req : Models.ExtractionRequest) (a : Attempt) (f : Fields) :
  attempt a (Models.document_text req) = Ok f ->
  job_ok (Worker.completed req f (now a)).
Proof.
  intros Ha. unfold job_ok. simpl. split; [| done].
  by eapply attempt_doc_type.
Qed.

Lemma failed_ok (req : Models.ExtractionRequest) (ex : Exn) (t : N) :
  job_ok (Worker.failed req ex t).
Proof. unfold job_ok. simpl. repeat split; by eexists. Qed.

Lemma outcome_keeps_wf (request_id : pystr) (a : Attempt) (st st' : State) :
  outcome request_id a st st' -> keeps_wf st st'.
Proof.
  intros H.
  destruct H as [| |req f Hget Hs Ha|req ex Hget Hs _ _|req ex Hget Hs _ _];
    try (by apply keeps_wf_db).
  - apply get_Some in Hget as Hid. destruct Hid as [<- _].
    eapply (keeps_wf_update (Worker.completed req f (now a)));
      try done; by apply completed_ok.
  - apply get_Some in Hget as Hid. destruct Hid as [<- _].
    eapply (keeps_wf_update (Worker.failed req ex (now a)));
      try done; apply failed_ok.
Qed.

Lemma process_keeps_wf (request_id : pystr) (a : Attempt) (st : State) :
  keeps_wf st (process request_id a st).
Proof. eapply outcome_keeps_wf, process_outcome. Qed.

Lemma run_keeps_wf (turns : list Attempt) (st : State) :
  keeps_wf st (run turns st).
Proof.
  apply run_preserves; auto using process_keeps_wf.
  - intros st0. by apply keeps_wf_db.
  - apply keeps_wf_trans.
  - intros q st0. by apply keeps_wf_db.
Qed.

Lemma worker_step_keeps_wf (st st' : State) :
  worker_step st st' -> keeps_wf st st'.
Proof. intros []; auto using process_keeps_wf, run_keeps_wf. Qed.

Lemma worker_steps_keep_wf (st st' : State) :
  rtc worker_step st st' -> keeps_wf st st'.
Proof.
  induction 1 as [st|st1 st2 st3 H12 _ IH]; [by apply keeps_wf_db |].
  eapply keeps_wf_trans; [by apply worker_step_keeps_wf | done].
Qed.

Lemma new_request_ok body req_id t : job_ok (Main.new_request body req_id t).
Proof. unfold job_ok. simpl. by repeat split. Qed.

Lemma insert_wf body req_id t (st : State) :
  wf st ->
  Models.conflicts (Main.new_request body req_id t) (db st) = false ->
  wf (Worker.enqueue req_id
        (with_db (db st ++ [Main.new_request body req_id t]) st)).
Proof.
  intros [Hid [Hk Hall]] Hc. apply conflicts_false in Hc as [Hc1 Hc2].
  unfold wf. simpl. rewrite !map_app. simpl. repeat split.
  - apply NoDup_app. repeat split; [done | | apply NoDup_singleton].
    intros x Hx Hx'. apply list_elem_of_singleton in Hx' as ->.
    by apply list_elem_of_In in Hx.
  - apply NoDup_app. repeat split; [done | | apply NoDup_singleton].
    intros x Hx Hx'. apply list_elem_of_singleton in Hx' as ->.
    by apply list_elem_of_In in Hx.
  - apply Forall_app. split; [done |].
    apply Forall_singleton, new_request_ok.
Qed.

Lemma submit_wf body req_id t (st : State) :
  wf st ->
  wf (snd (Main.submit_extraction body req_id t (fun s => s) st)).
Proof.
  intros Hwf. unfold Main.submit_extraction.
  destruct (Models.by_key (Schemas.idempotency_key body) (db st))
    as [existing|]; [done |].
  destruct (Models.conflicts (Main.new_request body req_id t) (db st))
    eqn:Hc; [done |].
  by apply insert_wf.
Qed.

Lemma step_wf (st st' : State) : step st st' -> wf st -> wf st'.
Proof.
  intros [] Hwf.
  - by apply submit_wf.
  - by apply process_keeps_wf.
  - by apply run_keeps_wf.
  - done.
Qed.

Lemma steps_wf (st st' : State) : rtc step st st' -> wf st -> wf st'.
Proof. induction 1; eauto using step_wf. Qed.

Lemma initial_wf : wf initial.
Proof. unfold wf. simpl. repeat split; constructor. Qed.

Lemma reachable_wf (st : State) : reachable st -> wf st.
Proof. intros H. eapply steps_wf; [exact H | apply initial_wf]. Qed.

Lemma worker_step_step (st st' : State) : worker_step st st' -> step st st'.
Proof. intros []; constructor. Qed.

Lemma worker_steps_reachable (st st' : State) :
  rtc worker_step st st' -> reachable st -> reachable st'.
Proof.
  intros H Hr. unfold Lifecycle.reachable in *.
  etrans; [exact Hr |]. clear Hr.
  induction H; [done |]. eapply rtc_l; [by apply worker_step_step | done].
Qed.

Lemma job_ok_groups (r : Models.ExtractionRequest) :
  job_ok r ->
  (Models.status r = Models.PENDING -> result_null r /\ error_null r)
  /\ (Models.status r = Models.COMPLETED -> ~ result_null r /\ error_null r)
  /\ (Models.status r = Models.FAILED -> result_null r /\ ~ error_null r)
  /\ (Models.status r <> Models.PENDING -> exactly_one_group_null r).
Proof.
  unfold job_ok, exactly_one_group_null, result_null, error_null, is_Some.
  destruct (Models.status r); intros H;
    (split; [intros E | split; [intros E | split; [intros E | intros E]]]);
    try done; destruct_and?; repeat match goal with
                             | H : exists _, _ |- _ => destruct H
                             end; intuition congruence.
Qed.

(** C3: in every reachable state a [PENDING] request has both groups
    of columns null, a [COMPLETED] one has its error columns null and
    its result columns not all null, a [FAILED] one the reverse, so that
    exactly one group is null once the request has left [PENDING];
    and [_process_request] leaves a [PENDING] request as it is, or sets
    the five result columns from the result and clears both error columns,
    or clears the five result columns and sets both error columns. *)
Theorem result_and_error_exclusive (st : State) :
  reachable st ->
  (forall r, In r (db st) ->
     (Models.status r = Models.PENDING -> result_null r /\ error_null r)
     /\ (Models.status r = Models.COMPLETED ->
         ~ result_null r /\ error_null r)
     /\ (Models.status r = Models.FAILED -> result_null r /\ ~ error_null r)
     /\ (Models.status r <> Models.PENDING -> exactly_one_group_null r))
  /\ (forall request_id a req,
        Models.get request_id (db st) = Some req ->
        Models.status req = Models.PENDING ->
        exists r',
          Models.get request_id (db (process request_id a st)) = Some r'
          /\ (r' = req
              \/ (exists f,
                    attempt a (Models.document_text req) = Ok f
                    /\ Models.status r' = Models.COMPLETED
                    /\ Models.doc_type r' = doc_type f
                    /\ Models.invoice_number r' = invoice_number f
                    /\ Models.invoice_date r' = invoice_date f
                    /\ Models.total_amount r' = total_amount f
                    /\ Models.currency r' = currency f
                    /\ error_null r')
              \/ (exists ex,
                    attempt a (Models.document_text req) = Raise ex
                    /\ Models.status r' = Models.FAILED
                    /\ result_null r'
                    /\ Models.error_code r' = Some (fst (Worker.error_of ex))
                    /\ Models.error_message r'
                       = Some (snd (Worker.error_of ex))))).
Proof.
  intros Hreach. apply reachable_wf in Hreach as [_ [_ Hall]]. split.
  - intros r Hr. apply job_ok_groups.
    by apply (proj1 (List.Forall_forall _ _) Hall).
  - intros request_id a req Hget Hs.
    apply get_Some in Hget as Hid. destruct Hid as [Hid _].
    unfold Lifecycle.process, Worker._process_request.
    rewrite Hget, Hs. simpl.
    destruct (attempt a (Models.document_text req)) as [f|ex] eqn:Ha.
    + exists (Worker.completed req f (now a)). split.
      * simpl. rewrite <- Hid.
        apply (get_update_eq (Worker.completed req f (now a)) req).
        simpl. by rewrite Hid.
      * right; left. exists f. by repeat split.
    + destruct (_ <=? _)%Z.
      * exists req. by split; [| left].
      * exists (Worker.failed req ex (now a)). split.
        -- simpl. rewrite <- Hid.
           apply (get_update_eq (Worker.failed req ex (now a)) req).
           simpl. by rewrite Hid.
        -- right; right. exists ex. by repeat split.
Qed.

(** ** The submission gate *)

Lemma by_key_app_new (k : pystr) (t : Models.table)
    (r : Models.ExtractionRequest) :
  Models.by_key k t = None ->
  Models.idempotency_key r = k ->
  Models.by_key k (t ++ [r]) = Some r.
Proof.
  unfold Models.by_key. intros Hnone Hk.
  induction t as [|x t IH]; simpl in *.
  - by rewrite Hk, eqb_refl.
  - destruct (Py.eqb (Models.idempotency_key x) k); [done | by apply IH].
Qed.

Lemma submit_alone body req_id t (st : State) r1 :
  wf st ->
  fst (Main.submit_extraction body req_id t (fun s => s) st) = Main.Responds r1 ->
  exists j,
    Models.by_key (Schemas.idempotency_key body)
      (db (snd (Main.submit_extraction body req_id t (fun s => s) st)))
    = Some j
    /\ Models.id j = Schemas.request_id r1
    /\ wf (snd (Main.submit_extraction body req_id t (fun s => s) st))
    /\ (snd (Main.submit_extraction body req_id t (fun s => s) st) = st
        \/ (Models.by_key (Schemas.idempotency_key body) (db st) = None
            /\ db (snd (Main.submit_extraction body req_id t (fun s => s) st))
               = db st ++ [Main.new_request body req_id t]
            /\ _q (snd (Main.submit_extraction body req_id t (fun s => s) st))
               = _q st ++ [Schemas.request_id r1])).
Proof.
  intros Hwf. unfold Main.submit_extraction.
  destruct (Models.by_key (Schemas.idempotency_key body) (db st))
    as [existing|] eqn:Hk.
  - cbn [fst snd]. intros [= <-]. exists existing. auto.
  - destruct (Models.conflicts (Main.new_request body req_id t) (db st))
      eqn:Hc.
    + cbn [fst]. discriminate.
    + cbn [fst snd]. intros [= <-]. exists (Main.new_request body req_id t).
      split; [by apply by_key_app_new |]. split; [done |].
      split; [by apply insert_wf |]. right. by repeat split.
Qed.

(** C1: when a submission has returned [r1], a later submission of the
    same key, after any steps of the worker, returns the same
    [request_id] with the status the request then has and changes
    nothing; so does one that raced the first, having found nothing at
    its query and flushing after the first committed; one request carries
    the key; and the first submission enqueued the id once, when it
    created the request, or not at all. *)
Theorem submit_is_idempotent (st : State)
    (body1 body2 : Schemas.ExtractRequestBody) (id1 id2 : pystr)
    (t1 t2 : N) (w : State -> State) (r1 : Schemas.ExtractPostResponse) :
  reachable st ->
  Schemas.idempotency_key body1 = Schemas.idempotency_key body2 ->
  (forall s, rtc worker_step s (w s)) ->
  fst (Main.submit_extraction body1 id1 t1 (fun s => s) st)
  = Main.Responds r1 ->
  exists j,
    Models.by_key (Schemas.idempotency_key body1)
      (db (w (snd (Main.submit_extraction body1 id1 t1 (fun s => s) st))))
    = Some j
    /\ Models.id j = Schemas.request_id r1
    /\ keyed (Schemas.idempotency_key body1)
         (db (w (snd (Main.submit_extraction body1 id1 t1 (fun s => s) st))))
       = [j]
    /\ Main.submit_extraction body2 id2 t2 (fun s => s)
         (w (snd (Main.submit_extraction body1 id1 t1 (fun s => s) st)))
       = (Main.Responds
            (Schemas.mkPostResponse (Schemas.request_id r1) (Models.status j)),
          w (snd (Main.submit_extraction body1 id1 t1 (fun s => s) st)))
    /\ (Models.by_key (Schemas.idempotency_key body1) (db st) = None ->
        Main.submit_extraction body2 id2 t2
          (fun s => w (snd (Main.submit_extraction body1 id1 t1
                              (fun s => s) s))) st
        = (Main.Responds
             (Schemas.mkPostResponse (Schemas.request_id r1)
                (Models.status j)),
           w (snd (Main.submit_extraction body1 id1 t1 (fun s => s) st))))
    /\ (snd (Main.submit_extraction body1 id1 t1 (fun s => s) st) = st
        \/ (Models.by_key (Schemas.idempotency_key body1) (db st) = None
            /\ db (snd (Main.submit_extraction body1 id1 t1 (fun s => s) st))
               = db st ++ [Main.new_request body1 id1 t1]
            /\ _q (snd (Main.submit_extraction body1 id1 t1 (fun s => s) st))
               = _q st ++ [Schemas.request_id r1])).
Proof.
  intros Hreach Hkey Hw H1. apply reachable_wf in Hreach as Hwf.
  destruct (submit_alone body1 id1 t1 st r1 Hwf H1)
    as [j [Hj [Hid [Hwf1 Hq]]]].
  set (st1 := snd (Main.submit_extraction body1 id1 t1 (fun s => s) st)) in *.
  destruct (worker_steps_keep_wf st1 (w st1) (Hw st1) Hwf1) as [Hwf2 Hident].
  pose proof (by_key_ident (Schemas.idempotency_key body1) _ _
                (eq_sym Hident)) as Hj'.
  rewrite Hj in Hj'. destruct Hj' as [j' [Hj' Hid']].
  exists j'. repeat split; try done.
  - congruence.
  - apply keyed_unique; [apply Hwf2 | done].
  - unfold Main.submit_extraction at 1. rewrite <- Hkey, Hj'.
    unfold Main.respond. by rewrite Hid', Hid.
  - intros Hnone. unfold Main.submit_extraction at 1.
    rewrite <- Hkey, Hnone. fold st1.
    rewrite (conflicts_by_key (Main.new_request body2 id2 t2) j')
      by (simpl; by rewrite <- Hkey).
    rewrite Hj'. unfold Main.respond. by rewrite Hid', Hid.
Qed.

(** ** The backend selector *)

Lemma or_else_takes (external heuristic : option pystr) :
  takes (Worker.or_else external heuristic) external heuristic.
Proof.
  unfold takes, truthy, Worker.or_else.
  destruct external as [[|c s]|]; split; try done.
  - by intros [c [s H]].
  - intros H. destruct H. by exists c, s.
  - by intros [c [s H]].
Qed.

Lemma all_none_spec (f : Fields) :
  Worker.all_none f = true <-> all_null f.
Proof.
  unfold Worker.all_none, all_null.
  rewrite !andb_true_iff, !bool_decide_eq_true.
  destruct (total_amount f); intuition congruence.
Qed.

(** C8, amended: with the external backend selected and returning, and
    the heuristic run returning, the result is the field-wise merge, a
    string field taking the external value when that is neither null nor
    empty and the amount when that is not null, the heuristic value
    otherwise; unless every merged field is null, when the heuristic
    result is returned. *)
Theorem external_result_is_merged (text : pystr)
    (llm_result regex_result : Fields) :
  _backend = lit "llm" ->
  Extractor.extract_from_text text = Ok regex_result ->
  exists merged,
    takes (doc_type merged) (doc_type llm_result) (doc_type regex_result)
    /\ takes (invoice_number merged) (invoice_number llm_result)
         (invoice_number regex_result)
    /\ takes (invoice_date merged) (invoice_date llm_result)
         (invoice_date regex_result)
    /\ takes_amount (total_amount merged) (total_amount llm_result)
         (total_amount regex_result)
    /\ takes (currency merged) (currency llm_result) (currency regex_result)
    /\ (all_null merged ->
        Worker.run_extractor _backend (LLMReturns llm_result) text
        = Ok regex_result)
    /\ (~ all_null merged ->
        Worker.run_extractor _backend (LLMReturns llm_result) text
        = Ok merged).
Proof.
  intros -> Hreg. exists (Worker.merge llm_result regex_result).
  repeat split; try apply or_else_takes.
  - simpl. by destruct (total_amount llm_result).
  - simpl. by intros ->.
  - intros Hall. apply all_none_spec in Hall.
    unfold Worker.run_extractor. by rewrite eqb_refl, Hreg, Hall.
  - intros Hall. unfold Worker.run_extractor. rewrite eqb_refl, Hreg.
    destruct (Worker.all_none _) eqn:E; [| done].
    by apply all_none_spec in E.
Qed.

End WorkerProperties.

(** * The theorems on the small system *)

Lemma status_never_regresses_witness :
  exists r',
    Models.get (lit "req_a")
      (db (demo_process (lit "req_a") demo_attempt demo_state)) = Some r'
    /\ (Models.status r' = Models.PENDING
        \/ (Models.PENDING = Models.PENDING
            /\ (Models.status r' = Models.COMPLETED
                 \/ Models.status r' = Models.FAILED))).
Proof.
  apply (proj1 (status_never_regresses demo_backend demo_retries demo_timeout
                  demo_state
                  (demo_process (lit "req_a") demo_attempt demo_state)
                  (rtc_once _ _ (Lifecycle.step_process _ _ _ _ _ _)))
           (lit "req_a")
           (Main.new_request demo_body (lit "req_a") 1)).
  vm_compute. reflexivity.
Defined.

Lemma retry_leaves_job_untouched_witness :
  db (demo_process (lit "req_b") demo_attempt failing_state)
  = db failing_state
  /\ Models.get (lit "req_b")
       (db (demo_process (lit "req_b") demo_attempt failing_state))
     = Some (Main.new_request failing_body (lit "req_b") 2)
  /\ _q (demo_process (lit "req_b") demo_attempt failing_state)
     = _q failing_state ++ [lit "req_b"]
  /\ _attempts (demo_process (lit "req_b") demo_attempt failing_state)
       !! lit "req_b"
     = Some (Lifecycle.attempts_of (lit "req_b") failing_state + 1)%Z
  /\ _stop_event (demo_process (lit "req_b") demo_attempt failing_state)
     = _stop_event failing_state.
Proof.
  apply (retry_leaves_job_untouched demo_backend demo_retries demo_timeout
           (lit "req_b") demo_attempt failing_state
           (Main.new_request failing_body (lit "req_b") 2) the_failure).
  - vm_compute. reflexivity.
  - reflexivity.
  - vm_compute. reflexivity.
  - vm_compute. discriminate.
Defined.

Lemma demo_attempt_fails :
  Lifecycle.fails demo_backend demo_timeout
    (Models.document_text (Main.new_request failing_body (lit "req_b") 2))
    demo_attempt.
Proof. exists the_failure. vm_compute. reflexivity. Qed.

Lemma retry_bound_witness :
  exists r,
    Models.get (lit "req_b")
      (db (demo_run [demo_attempt; demo_attempt; demo_attempt] failing_state))
    = Some r
    /\ Models.status r = Models.FAILED
    /\ Models.error_code r = Some (lit "EXTRACTOR_TIMEOUT")
    /\ Lifecycle.attempts_of (lit "req_b")
         (demo_run [demo_attempt; demo_attempt; demo_attempt] failing_state)
       = 2%Z.
Proof.
  destruct (retry_bound demo_backend demo_retries demo_timeout (lit "req_b")
              failing_state (Main.new_request failing_body (lit "req_b") 2))
    as [H _].
  - vm_compute. discriminate.
  - vm_compute. discriminate.
  - vm_compute. reflexivity.
  - reflexivity.
  - vm_compute. reflexivity.
  - destruct (H [demo_attempt; demo_attempt; demo_attempt]) as [_ H'].
    + vm_compute. reflexivity.
    + reflexivity.
    + repeat constructor; apply demo_attempt_fails.
    + destruct (H' demo_attempt the_failure)
        as [r [Hget [_ [Hs [Hc [_ [_ [Hn _]]]]]]]].
      * reflexivity.
      * vm_compute. reflexivity.
      * exists r. repeat split; assumption.
Defined.

Lemma demo_state_reachable :
  Lifecycle.reachable demo_backend demo_retries demo_timeout demo_state.
Proof. apply rtc_once. unfold demo_state. constructor. Qed.

Lemma submit_is_idempotent_witness :
  exists j,
    Models.by_key (lit "key-1")
      (db (demo_process (lit "req_a") demo_attempt demo_state)) = Some j
    /\ Models.id j = lit "req_a"
    /\ Main.submit_extraction demo_body (lit "req_z") 5 (fun s => s)
         (demo_process (lit "req_a") demo_attempt demo_state)
       = (Main.Responds (Schemas.mkPostResponse (lit "req_a") (Models.status j)),
          demo_process (lit "req_a") demo_attempt demo_state).
Proof.
  destruct (submit_is_idempotent demo_backend demo_retries demo_timeout
              initial demo_body demo_body (lit "req_a") (lit "req_z") 1 5
              (demo_process (lit "req_a") demo_attempt)
              (Schemas.mkPostResponse (lit "req_a") Models.PENDING))
    as [j [Hj [Hid [_ [Hseq _]]]]].
  - apply rtc_refl.
  - reflexivity.
  - intros s. apply rtc_once. constructor.
  - vm_compute. reflexivity.
  - exists j. repeat split; assumption.
Defined.

(** C8 as it is worded fails on an external result whose [doc_type] is
    the empty string: it is not null, yet the heuristic "invoice" is
    what comes back. *)
Lemma empty_string_is_not_preferred :
  Extractor.extract_from_text demo_text = Ok demo_heuristic
  /\ doc_type (merge_as_claimed empty_doc_type demo_heuristic) = Some []
  /\ Worker.run_extractor (lit "llm") (LLMReturns empty_doc_type) demo_text
     = Ok demo_heuristic
  /\ Worker.run_extractor (lit "llm") (LLMReturns empty_doc_type) demo_text
     <> Ok (merge_as_claimed empty_doc_type demo_heuristic).
Proof.
  split; [by vm_compute |]. split; [done |]. split; [by vm_compute |].
  vm_compute. discriminate.
Qed.

Lemma external_result_is_merged_witness :
  exists merged,
    takes (doc_type merged) (doc_type empty_doc_type)
      (doc_type demo_heuristic)
    /\ (~ all_null merged ->
        Worker.run_extractor (lit "llm") (LLMReturns empty_doc_type) demo_text
        = Ok merged).
Proof.
  destruct (external_result_is_merged (lit "llm") demo_text empty_doc_type
              demo_heuristic)
    as [merged [Hd [_ [_ [_ [_ [_ Hrun]]]]]]].
  - reflexivity.
  - vm_compute. reflexivity.
  - exists merged. split; assumption.
Defined.

(** * More of the worker and of the handlers *)

Section Stored.

Variable _backend : pystr.
Variable _max_retries : Z.
Variable _task_timeout_seconds : pystr.

Local Abbreviation process :=
  (Lifecycle.process _backend _max_retries _task_timeout_seconds).
Local Abbreviation run :=
  (Lifecycle.run _backend _max_retries _task_timeout_seconds).
Local Abbreviation attempt :=
  (Worker.attempt _backend _task_timeout_seconds).
Local Abbreviation step :=
  (Lifecycle.step _backend _max_retries _task_timeout_seconds).
Local Abbreviation reachable :=
  (Lifecycle.reachable _backend _max_retries _task_timeout_seconds).
Local Abbreviation outcome :=
  (Lifecycle.outcome _backend _max_retries _task_timeout_seconds).

(** ** Rows that have settled *)

Lemma settled_refl (st : State) : settled st st.
Proof. intros i r H. exists r. by repeat split. Qed.

Lemma settled_db (st st' : State) : db st' = db st -> settled st st'.
Proof. intros Hdb i r H. exists r. rewrite Hdb. by repeat split. Qed.

Lemma settled_trans (st1 st2 st3 : State) :
  settled st1 st2 -> settled st2 st3 -> settled st1 st3.
Proof.
  intros H12 H23 i r H.
  destruct (H12 i r H) as [r2 [H2 [Hp2 [Ht2 Hs2]]]].
  destruct (H23 i r2 H2) as [r3 [H3 [Hp3 [Ht3 Hs3]]]].
  exists r3. split; [done |]. split; [congruence |]. split.
  - intros Hne. rewrite <- (Ht2 Hne). apply Ht3. by rewrite (Ht2 Hne).
  - intros Hpend. assert (r3 = r2) as -> by auto. auto.
Qed.

Lemma settled_update (req r0 : Models.ExtractionRequest) (st st0 : State) :
  db st0 = db st ->
  Models.get (Models.id req) (db st) = Some r0 ->
  Models.status r0 = Models.PENDING ->
  Models.status req <> Models.PENDING ->
  payload req = payload r0 ->
  settled st (with_db (Models.update req (db st)) st0).
Proof.
  intros Hdb Hget Hs Hs' Hp i r H. simpl.
  destruct (decide (i = Models.id req)) as [-> | Hne].
  - exists req. split; [by eapply get_update_eq |].
    assert (r = r0) as -> by congruence. split; [done |].
    split; [congruence | done].
  - exists r. by rewrite get_update_ne.
Qed.

Lemma outcome_settled (request_id : pystr) (a : Attempt) (st st' : State) :
  outcome request_id a st st' -> settled st st'.
Proof.
  intros H.
  destruct H as [| |req f Hget Hs _|req ex Hget Hs _ _|req ex Hget Hs _ _];
    try (by apply settled_db).
  - apply get_Some in Hget as Hid. destruct Hid as [<- _].
    by eapply (settled_update (Worker.completed req f (now a))).
  - apply get_Some in Hget as Hid. destruct Hid as [<- _].
    by eapply (settled_update (Worker.failed req ex (now a))).
Qed.

Lemma process_settled (request_id : pystr) (a : Attempt) (st : State) :
  settled st (process request_id a st).
Proof. eapply outcome_settled, process_outcome. Qed.

Lemma run_settled (turns : list Attempt) (st : State) :
  settled st (run turns st).
Proof.
  apply run_preserves; auto using settled_refl, process_settled.
  - apply settled_trans.
  - intros q st0. by apply settled_db.
Qed.

Lemma submit_settled body req_id t (st : State) :
  settled st (snd (Main.submit_extraction body req_id t (fun s => s) st)).
Proof.
  unfold Main.submit_extraction.
  destruct (Models.by_key (Schemas.idempotency_key body) (db st))
    as [existing|]; [apply settled_refl |].
  destruct (Models.conflicts (Main.new_request body req_id t) (db st)).
  - apply settled_refl.
  - intros i r H. exists r. simpl. split; [by apply get_app | done].
Qed.

Lemma step_settled (st st' : State) : step st st' -> settled st st'.
Proof.
  intros []; auto using submit_settled, process_settled, run_settled.
  by apply settled_db.
Qed.

Lemma steps_settled (st st' : State) : rtc step st st' -> settled st st'.
Proof.
  induction 1 as [|st1 st2 st3 H12 _ IH]; [apply settled_refl |].
  eapply settled_trans; [by apply step_settled | done].
Qed.

(** ** What holds of every row *)

Lemma rows_invariant (P : Models.ExtractionRequest -> Prop) :
  (forall body req_id t, P (Main.new_request body req_id t)) ->
  (forall req a f,
     Models.status req = Models.PENDING ->
     attempt a (Models.document_text req) = Ok f ->
     P (Worker.completed req f (now a))) ->
  (forall req a ex,
     Models.status req = Models.PENDING ->
     attempt a (Models.document_text req) = Raise ex ->
     P (Worker.failed req ex (now a))) ->
  forall st, reachable st -> Forall P (db st).
Proof.
  intros Hnew Hok Hfail.
  assert (Hupd : forall req t, P req -> Forall P t ->
                               Forall P (Models.update req t)).
  { intros req t Hreq Ht. apply List.Forall_forall. intros r Hr.
    apply update_In in Hr as [-> | Hr]; [done |].
    by apply (proj1 (List.Forall_forall _ _) Ht). }
  assert (Hproc : forall request_id a st,
             Forall P (db st) -> Forall P (db (process request_id a st))).
  { intros request_id a st Hall.
    destruct (process_outcome _backend _max_retries _task_timeout_seconds
                request_id a st)
      as [| |req f Hget Hs Ha|req ex Hget Hs Ha _|req ex Hget Hs Ha _];
      try done; simpl; apply Hupd; eauto. }
  assert (Hrun : forall turns st,
             Forall P (db st) -> Forall P (db (run turns st))).
  { intros turns st. apply (run_preserves _backend _max_retries
      _task_timeout_seconds
      (fun st st' => Forall P (db st) -> Forall P (db st'))); auto. }
  assert (Hstep : forall st st', step st st' ->
             Forall P (db st) -> Forall P (db st')).
  { intros st st' [] Hall; auto.
    unfold Main.submit_extraction.
    destruct (Models.by_key (Schemas.idempotency_key body) (db st0));
      [done |].
    destruct (Models.conflicts (Main.new_request body req_id t) (db st0));
      [done |].
    simpl. apply Forall_app. split; [done |]. by apply Forall_singleton. }
  intros st Hreach.
  assert (Hall : forall s s', rtc step s s' ->
             Forall P (db s) -> Forall P (db s')).
  { induction 1; eauto. }
  apply (Hall initial st Hreach). constructor.
Qed.

Lemma run_extractor_raise (reply : LLMReply) (text : pystr) (ex : Exn) :
  Worker.run_extractor _backend reply text = Raise ex ->
  Extractor.extract_from_text text = Raise ex.
Proof.
  unfold Worker.run_extractor.
  destruct (Py.eqb _backend (lit "llm")); [| done].
  destruct reply as [llm_result|]; [| done].
  destruct (Extractor.extract_from_text text) as [regex_result|] eqn:E;
    [| done].
  by destruct (Worker.all_none _).
Qed.

Lemma attempt_raises (a : Attempt) (text : pystr) (ex : Exn) :
  attempt a text = Raise ex ->
  stored_code (fst (Worker.error_of ex)).
Proof.
  unfold Worker.attempt, Worker.execute_with_timeout.
  destruct (guard a).
  - intros H. apply run_extractor_raise in H.
    unfold Extractor.extract_from_text in H.
    destruct (Py.contains _ text).
    + injection H as <-. by left.
    + by destruct (Extractor._extract_currency_and_amount text).
  - intros [= <-]. by left.
  - intros [= <-]. by right.
Qed.

Lemma detect_doc_type_literal (text : pystr) :
  In (Extractor._detect_doc_type text) Fetch.DocTypeLiteral.
Proof.
  unfold Extractor._detect_doc_type, Fetch.DocTypeLiteral.
  destruct (Py.contains _ _); [by left |].
  destruct (Py.contains _ _); [right; by left | right; right; by left].
Qed.

Lemma extract_doc_type_literal (text : pystr) (f : Fields) :
  Extractor.extract_from_text text = Ok f ->
  exists d, doc_type f = Some d /\ In d Fetch.DocTypeLiteral.
Proof.
  unfold Extractor.extract_from_text.
  destruct (Py.contains _ text); [done |].
  destruct (Extractor._extract_currency_and_amount text).
  intros [= <-]. eexists. split; [done |]. apply detect_doc_type_literal.
Qed.

Lemma literal_truthy (d : pystr) :
  In d Fetch.DocTypeLiteral -> truthy (Some d).
Proof.
  intros [<- | [<- | [<- | []]]]; by eexists _, _.
Qed.

Lemma attempt_truthy (a : Attempt) (text : pystr) (f : Fields) :
  attempt a text = Ok f -> truthy (doc_type f).
Proof.
  assert (Hreg : forall f', Extractor.extract_from_text text = Ok f' ->
                            truthy (doc_type f')).
  { intros f' H. apply extract_doc_type_literal in H as [d [-> Hd]].
    by apply literal_truthy. }
  unfold Worker.attempt, Worker.execute_with_timeout, Worker.run_extractor.
  destruct (guard a); try done.
  destruct (Py.eqb _backend (lit "llm")); [| apply Hreg].
  destruct (llm a) as [llm_result|]; [| apply Hreg].
  destruct (Extractor.extract_from_text text) as [regex_result|] eqn:E;
    [| done].
  destruct (Worker.all_none _) eqn:Hall; intros [= <-]; [by apply Hreg |].
  simpl. destruct (Hreg _ eq_refl) as [c [s Hd]]. rewrite Hd.
  unfold Worker.or_else.
  destruct (doc_type llm_result) as [[|c' s']|]; by eexists _, _.
Qed.

Lemma attempt_literal (a : Attempt) (text : pystr) (f : Fields) :
  _backend <> lit "llm" ->
  attempt a text = Ok f ->
  exists d, doc_type f = Some d /\ In d Fetch.DocTypeLiteral.
Proof.
  intros Hb. apply eqb_neq in Hb.
  unfold Worker.attempt, Worker.execute_with_timeout, Worker.run_extractor.
  rewrite Hb. destruct (guard a); try done.
  apply extract_doc_type_literal.
Qed.

Lemma reachable_stored (st : State) :
  reachable st -> Forall stored_row (db st).
Proof.
  apply rows_invariant.
  - done.
  - intros req a f _ Ha. unfold stored_row. simpl.
    by eapply attempt_truthy.
  - intros req a ex _ Ha. unfold stored_row. simpl.
    eexists. split; [done |]. by eapply attempt_raises.
Qed.

Lemma reachable_heuristic (st : State) :
  _backend <> lit "llm" ->
  reachable st -> Forall heuristic_row (db st).
Proof.
  intros Hb. apply rows_invariant.
  - done.
  - intros req a f _ Ha. unfold heuristic_row. simpl.
    by eapply attempt_literal.
  - intros req a ex _ Ha. unfold heuristic_row. simpl.
    eexists. split; [done |]. by eapply attempt_raises.
Qed.

(** X1: over any run of the system a row keeps its id, idempotency key,
    document text and creation time; a row that has left [PENDING] is
    never written again, and a row still [PENDING] has not been written
    at all. *)
Theorem rows_settle (st st' : State) (i : pystr)
    (r : Models.ExtractionRequest) :
  rtc step st st' ->
  Models.get i (db st) = Some r ->
  exists r',
    Models.get i (db st') = Some r'
    /\ Models.id r' = Models.id r
    /\ Models.idempotency_key r' = Models.idempotency_key r
    /\ Models.document_text r' = Models.document_text r
    /\ Models.created_at r' = Models.created_at r
    /\ (Models.status r <> Models.PENDING -> r' = r)
    /\ (Models.status r' = Models.PENDING -> r' = r).
Proof.
  intros Hsteps Hget.
  destruct (steps_settled st st' Hsteps i r Hget) as [r' [H [Hp [Ht Hs]]]].
  exists r'. unfold payload in Hp. injection Hp as H1 H2 H3 H4.
  by repeat split.
Qed.

(** X2: in every reachable state a [FAILED] row carries one of the two
    codes EXTRACTOR_TIMEOUT and EXTRACTOR_ERROR and a message, and a
    [COMPLETED] row a document type that is not empty; under a backend
    other than "llm" that type is one of invoice, receipt, unknown. *)
Theorem stored_codes_and_types (st : State) (r : Models.ExtractionRequest) :
  reachable st ->
  In r (db st) ->
  (Models.status r = Models.FAILED ->
     (Models.error_code r = Some (lit "EXTRACTOR_TIMEOUT")
      \/ Models.error_code r = Some (lit "EXTRACTOR_ERROR"))
     /\ is_Some (Models.error_message r))
  /\ (Models.status r = Models.COMPLETED -> truthy (Models.doc_type r))
  /\ (_backend <> lit "llm" ->
      Models.status r = Models.COMPLETED ->
      Models.doc_type r = Some (lit "invoice")
      \/ Models.doc_type r = Some (lit "receipt")
      \/ Models.doc_type r = Some (lit "unknown")).
Proof.
  intros Hreach Hin.
  pose proof (reachable_stored st Hreach) as Hs.
  pose proof (reachable_wf _ _ _ st Hreach) as [_ [_ Hok]].
  apply (proj1 (List.Forall_forall _ _) Hs) in Hin as Hrow.
  apply (proj1 (List.Forall_forall _ _) Hok) in Hin as Hjob.
  unfold stored_row in Hrow. unfold job_ok in Hjob.
  repeat split.
  - rewrite H in Hrow. destruct Hrow as [c [-> [-> | ->]]]; auto.
  - rewrite H in Hjob. tauto.
  - intros H. by rewrite H in Hrow.
  - intros Hb H.
    pose proof (reachable_heuristic st Hb Hreach) as Hh.
    apply (proj1 (List.Forall_forall _ _) Hh) in Hin as Hrow'.
    unfold heuristic_row in Hrow'. rewrite H in Hrow'.
    destruct Hrow' as [d [-> [<- | [<- | [<- | []]]]]]; auto.
Qed.

(** ** The backend selector again *)

(** X3: whatever the backend and whatever the external backend answers,
    [run_extractor] raises only when the heuristic engine does, that is
    on the failure marker; when the external backend raises the result
    is the heuristic one; and when it returns, under "llm", the result is
    always the merge: the heuristic document type is never null, so the
    branch that discards an all-null merge is never taken. *)
Theorem external_backend_never_fails (reply : LLMReply) (text : pystr) :
  ((exists ex, Worker.run_extractor _backend reply text = Raise ex)
     <-> occurs_in Extractor.FAILURE_MARKER text)
  /\ (forall description,
        Worker.run_extractor _backend (LLMRaises description) text
        = Extractor.extract_from_text text)
  /\ (forall llm_result regex_result,
        Extractor.extract_from_text text = Ok regex_result ->
        Worker.run_extractor (lit "llm") (LLMReturns llm_result) text
        = Ok (Worker.merge llm_result regex_result)).
Proof.
  repeat split.
  - intros [ex H]. apply run_extractor_raise in H.
    apply contains_spec. unfold Extractor.extract_from_text in H.
    destruct (Py.contains _ text); [done |].
    by destruct (Extractor._extract_currency_and_amount text).
  - intros H. apply contains_spec in H.
    pose proof (extract_from_text_raise text H) as E.
    eexists. unfold Worker.run_extractor. rewrite E.
    destruct (Py.eqb _backend (lit "llm")); [| done].
    by destruct reply.
  - intros description. unfold Worker.run_extractor.
    by destruct (Py.eqb _backend (lit "llm")).
  - intros llm_result regex_result Hreg.
    unfold Worker.run_extractor. rewrite eqb_refl, Hreg.
    destruct (Worker.all_none _) eqn:Hall; [| done].
    apply all_none_spec in Hall as [Hd _]. exfalso.
    apply extract_doc_type_literal in Hreg as [d [Hreg Hlit]].
    apply literal_truthy in Hlit as [c [s ->%(inj Some)]].
    simpl in Hd. rewrite Hreg in Hd. unfold Worker.or_else in Hd.
    by destruct (doc_type llm_result) as [[|c' s']|].
Qed.

(** ** One request at a time *)

(** X4: [_process_request] writes one request only: every other row,
    and the attempts counted for every other id, are as before, and the
    queue is as before or has the processed id added at its end. *)
Theorem process_touches_one_request (request_id other : pystr)
    (a : Attempt) (st : State) :
  other <> request_id ->
  Models.get other (db (process request_id a st))
  = Models.get other (db st)
  /\ _attempts (process request_id a st) !! other = _attempts st !! other
  /\ (_q (process request_id a st) = _q st
      \/ _q (process request_id a st) = _q st ++ [request_id])
  /\ _stop_event (process request_id a st) = _stop_event st.
Proof.
  intros Hne.
  destruct (process_outcome _backend _max_retries _task_timeout_seconds
              request_id a st)
    as [| |r f Hget _ _|r ex Hget _ _ _|r ex Hget _ _ _]; auto.
  - apply get_Some in Hget as [Hid _]. simpl. split; [| auto].
    apply get_update_ne. simpl. congruence.
  - simpl. split; [done |]. split; [| auto]. by rewrite lookup_insert_ne.
  - apply get_Some in Hget as [Hid _]. simpl.
    split; [| split; [by rewrite lookup_insert_ne | auto]].
    apply get_update_ne. simpl. congruence.
Qed.

(** X5: a turn of the loop takes the head of the queue and nothing
    else: what was behind it keeps its order, and the head comes back, at
    the very end, only for a retry, which then counts one attempt more
    and leaves the table as it was. *)
Theorem loop_turn_is_fifo (a : Attempt) (st : State) (head : pystr)
    (behind : list pystr) :
  _stop_event st = false ->
  _q st = head :: behind ->
  head <> lit "__STOP__" ->
  run [a] st = process head a (with_q behind st)
  /\ (_q (run [a] st) = behind
      \/ (_q (run [a] st) = behind ++ [head]
          /\ db (run [a] st) = db st
          /\ _attempts (run [a] st) !! head
             = Some (Lifecycle.attempts_of head st + 1)%Z
          /\ (Lifecycle.attempts_of head st + 1 <= _max_retries)%Z)).
Proof.
  intros Hstop Hq Hne.
  assert (E : run [a] st = process head a (with_q behind st)).
  { simpl. rewrite Hstop, Hq. by apply eqb_neq in Hne as ->. }
  split; [done |]. rewrite E.
  destruct (process_outcome _backend _max_retries _task_timeout_seconds
              head a (with_q behind st))
    as [| |r f _ _ _|r ex _ _ _ Hle|r ex _ _ _ _]; auto.
  right. simpl. repeat split; try done. apply lookup_insert_eq.
Qed.

(** ** Fetching a request *)

Lemma mem_In (x : pystr) (l : list pystr) : Py.mem x l = true <-> In x l.
Proof.
  unfold Py.mem. rewrite existsb_exists. split.
  - intros [y [Hy E]]. apply eqb_eq in E. by subst.
  - intros H. exists x. split; [done | apply eqb_refl].
Qed.

Lemma mem_not_In (x : pystr) (l : list pystr) :
  Py.mem x l = false <-> ~ In x l.
Proof. rewrite <- mem_In. by destruct (Py.mem x l). Qed.

Lemma settled_terminal (st st' : State) (i : pystr)
    (r : Models.ExtractionRequest) :
  settled st st' ->
  Models.get i (db st) = Some r ->
  Models.status r <> Models.PENDING ->
  Models.get i (db st') = Some r.
Proof.
  intros H Hget Hs. destruct (H i r Hget) as [r' [H' [_ [Ht _]]]].
  by rewrite H', (Ht Hs).
Qed.

Lemma fetch_terminal (i : pystr) (max_attempts : Z) (t : Models.table)
    (later : nat -> Models.table) (r : Models.ExtractionRequest) :
  Models.get i t = Some r ->
  Models.status r <> Models.PENDING ->
  Fetch.get_extraction i max_attempts t later
  = match Models.status r with
    | Models.COMPLETED => Fetch.completed_reply r
    | _ => Fetch.failed_reply r
    end.
Proof.
  intros Hget Hs. unfold Fetch.get_extraction. rewrite Hget.
  by destruct (Models.status r).
Qed.

(** X7: once a request has left [PENDING], every later fetch of it gives
    the same reply, whatever the system has done in between and however
    many polls either fetch is allowed: the reply of a finished request is
    final. *)
Theorem finished_fetch_is_final (st st' : State) (request_id : pystr)
    (r : Models.ExtractionRequest) (max_attempts max_attempts' : Z)
    (later later' : nat -> Models.table) :
  rtc step st st' ->
  Models.get request_id (db st) = Some r ->
  Models.status r <> Models.PENDING ->
  Fetch.get_extraction request_id max_attempts' (db st') later'
  = Fetch.get_extraction request_id max_attempts (db st) later.
Proof.
  intros Hsteps Hget Hs.
  pose proof (settled_terminal st st' request_id r
                (steps_settled st st' Hsteps) Hget Hs) as Hget'.
  by rewrite (fetch_terminal _ _ _ _ r Hget' Hs),
             (fetch_terminal _ _ _ _ r Hget Hs).
Qed.

Lemma or_default_truthy (a : option pystr) (d : pystr) :
  truthy a -> Some (Fetch.or_default a d) = a.
Proof. by intros [c [s ->]]. Qed.

(** X8: the fetch of a finished request in a reachable state hands out
    the stored columns as they are: the defaults "unknown", "UNKNOWN_ERROR"
    and the empty message of the handler are never what is returned in
    place of a missing value.  A [FAILED] request gives its code and
    message; a [COMPLETED] one its five result columns if the stored
    document type is one of invoice, receipt, unknown, as it always is
    under a backend other than "llm", and the validation error
    otherwise. *)
Theorem fetch_returns_the_stored_columns (st : State) (request_id : pystr)
    (r : Models.ExtractionRequest) (max_attempts : Z)
    (later : nat -> Models.table) :
  reachable st ->
  Models.get request_id (db st) = Some r ->
  (Models.status r = Models.FAILED ->
   exists c m,
     Models.error_code r = Some c /\ Models.error_message r = Some m
     /\ Fetch.get_extraction request_id max_attempts (db st) later
        = Fetch.Responds
            (Fetch.mkGetResponse request_id Models.FAILED None
               (Some (Fetch.mkError c m))))
  /\ (Models.status r = Models.COMPLETED ->
      exists d,
        Models.doc_type r = Some d
        /\ (_backend <> lit "llm" -> In d Fetch.DocTypeLiteral)
        /\ (In d Fetch.DocTypeLiteral ->
            Fetch.get_extraction request_id max_attempts (db st) later
            = Fetch.Responds
                (Fetch.mkGetResponse request_id Models.COMPLETED
                   (Some (Fetch.mkResult d (Models.invoice_number r)
                            (Models.invoice_date r) (Models.total_amount r)
                            (Models.currency r)))
                   None))
        /\ (~ In d Fetch.DocTypeLiteral ->
            Fetch.get_extraction request_id max_attempts (db st) later
            = Fetch.RaisesValidationError)).
Proof.
  intros Hreach Hget. apply get_Some in Hget as Hid. destruct Hid as [Hid Hin].
  pose proof (reachable_stored st Hreach) as Hs.
  pose proof (reachable_wf _ _ _ st Hreach) as [_ [_ Hok]].
  apply (proj1 (List.Forall_forall _ _) Hs) in Hin as Hrow.
  apply (proj1 (List.Forall_forall _ _) Hok) in Hin as Hjob.
  unfold stored_row in Hrow. unfold job_ok in Hjob. split.
  - intros H. rewrite H in Hrow, Hjob.
    destruct Hrow as [c [Hc Hcode]]. destruct Hjob as [_ [_ [m Hm]]].
    exists c, m. split; [done |]. split; [done |].
    rewrite (fetch_terminal _ _ _ _ r Hget) by (by rewrite H). rewrite H.
    unfold Fetch.failed_reply. rewrite Hid, H, Hc, Hm.
    assert (Fetch.or_default (Some c) (lit "UNKNOWN_ERROR") = c) as ->
      by (by destruct Hcode as [-> | ->]).
    by destruct m.
  - intros H. rewrite H in Hrow. destruct Hrow as [c [s Hd]].
    exists (c :: s). split; [done |]. split.
    { intros Hb. pose proof (reachable_heuristic st Hb Hreach) as Hh.
      apply (proj1 (List.Forall_forall _ _) Hh) in Hin as Hrow'.
      unfold heuristic_row in Hrow'. rewrite H in Hrow'.
      destruct Hrow' as [d [Hd' Hlit]]. congruence. }
    rewrite (fetch_terminal _ _ _ _ r Hget) by (by rewrite H). rewrite H.
    unfold Fetch.completed_reply. rewrite Hid, H, Hd. simpl Fetch.or_default.
    split; intros Hlit.
    + apply mem_In in Hlit. by rewrite Hlit.
    + apply mem_not_In in Hlit. by rewrite Hlit.
Qed.

Lemma evolves_settled (st : State) (later : nat -> State) :
  evolves step st later ->
  (forall j, settled st (later j))
  /\ (forall j m, settled (later j) (later (j + m)%nat)).
Proof.
  intros [H0 Hnext].
  assert (Hjm : forall j m, settled (later j) (later (j + m)%nat)).
  { intros j m. induction m as [|m IH].
    - rewrite Nat.add_0_r. apply settled_refl.
    - rewrite Nat.add_succ_r.
      eapply settled_trans; [exact IH | apply steps_settled, Hnext]. }
  split; [| exact Hjm].
  intros j. eapply settled_trans; [apply steps_settled, H0 |].
  apply (Hjm O j).
Qed.

Lemma poll_late (later : nat -> State) :
  (forall j m, settled (later j) (later (j + m)%nat)) ->
  forall n k prev req,
    settled prev (later k) ->
    Models.get (Models.id req) (db prev) = Some req ->
    Models.status req = Models.PENDING ->
    Fetch.poll (S n) k (fun i => db (later i)) req
    = Fetch.get_extraction (Models.id req) 0 (db (later (k + n)%nat))
        (fun i => db (later i)).
Proof.
  intros Hjm n. induction n as [|n IH]; intros k prev req Hprev Hget Hs.
  - rewrite Nat.add_0_r. cbn [Fetch.poll].
    destruct (Hprev _ _ Hget) as [r' [Hget' _]].
    unfold Fetch.get_extraction. rewrite Hget'.
    by destruct (Models.status r').
  - cbn [Fetch.poll].
    destruct (Hprev _ _ Hget) as [r' [Hget' [Hp _]]]. rewrite Hget'.
    assert (Hid : Models.id r' = Models.id req).
    { unfold payload in Hp. congruence. }
    destruct (Models.status r') eqn:Hs'.
    + rewrite <- Hid in Hget' |- *. rewrite Nat.add_succ_r.
      change (S (k + n)) with (S k + n)%nat.
      apply (IH (S k) (later k) r'); [| done | done].
      replace (S k) with (k + 1)%nat by lia. apply Hjm.
    + symmetry. erewrite fetch_terminal.
      * by rewrite Hs'.
      * eapply settled_terminal; [apply Hjm | exact Hget' |]. by rewrite Hs'.
      * by rewrite Hs'.
    + symmetry. erewrite fetch_terminal.
      * by rewrite Hs'.
      * eapply settled_terminal; [apply Hjm | exact Hget' |]. by rewrite Hs'.
      * by rewrite Hs'.
Qed.

(** X9: polling never returns stale data.  While the system takes steps
    between the refreshes, a fetch that may poll [n + 1] times answers
    exactly what a fetch without polling would answer on the table its
    last refresh could read; a request that was found is never reported as
    not found, and no refresh fails. *)
Theorem polling_is_a_late_look (st : State) (later : nat -> State)
    (request_id : pystr) (r : Models.ExtractionRequest) (n : nat) :
  evolves step st later ->
  Models.get request_id (db st) = Some r ->
  Fetch.get_extraction request_id (Z.of_nat (S n)) (db st)
    (fun i => db (later i))
  = Fetch.get_extraction request_id 0 (db (later n)) (fun i => db (later i))
  /\ Fetch.get_extraction request_id (Z.of_nat (S n)) (db st)
       (fun i => db (later i)) <> Fetch.NotFound
  /\ Fetch.get_extraction request_id (Z.of_nat (S n)) (db st)
       (fun i => db (later i)) <> Fetch.RaisesRefreshError.
Proof.
  intros Hev Hget. destruct (evolves_settled st later Hev) as [H0 Hjm].
  assert (E : Fetch.get_extraction request_id (Z.of_nat (S n)) (db st)
                (fun i => db (later i))
              = Fetch.get_extraction request_id 0 (db (later n))
                  (fun i => db (later i))).
  { apply get_Some in Hget as Hid. destruct Hid as [Hid _].
    destruct (Models.status r) eqn:Hs.
    - unfold Fetch.get_extraction at 1. rewrite Hget, Hs, Nat2Z.id.
      rewrite <- Hid. rewrite <- Hid in Hget.
      rewrite (poll_late later Hjm n O st r); [done | apply H0 | done | done].
    - rewrite (fetch_terminal _ _ _ _ r Hget) by (by rewrite Hs).
      symmetry. apply fetch_terminal; [| by rewrite Hs].
      eapply settled_terminal; [apply H0 | done | by rewrite Hs].
    - rewrite (fetch_terminal _ _ _ _ r Hget) by (by rewrite Hs).
      symmetry. apply fetch_terminal; [| by rewrite Hs].
      eapply settled_terminal; [apply H0 | done | by rewrite Hs]. }
  split; [exact E |]. rewrite E.
  destruct (H0 n _ _ Hget) as [r' [Hget' _]].
  unfold Fetch.get_extraction. rewrite Hget'.
  unfold Fetch.completed_reply.
  destruct (Models.status r'); try destruct (Py.mem _ _); by split.
Qed.

Lemma llm_returns_merge (text : pystr) (llm_result regex_result : Fields) :
  Extractor.extract_from_text text = Ok regex_result ->
  Worker.run_extractor (lit "llm") (LLMReturns llm_result) text
  = Ok (Worker.merge llm_result regex_result).
Proof.
  intros Hreg. unfold Worker.run_extractor. rewrite eqb_refl, Hreg.
  destruct (Worker.all_none _) eqn:Hall; [| done].
  apply all_none_spec in Hall as [Hd _]. exfalso.
  apply extract_doc_type_literal in Hreg as [d [Hreg Hlit]].
  apply literal_truthy in Hlit as [c [s ->%(inj Some)]].
  simpl in Hd. rewrite Hreg in Hd. unfold Worker.or_else in Hd.
  by destruct (doc_type llm_result) as [[|c' s']|].
Qed.

(** X10: under the "llm" backend the document type the external backend
    answers is stored unchecked.  If it is not empty and is none of
    invoice, receipt, unknown, the request completes, and from then on
    every fetch of it raises the validation error of the response model
    instead of answering. *)
Theorem foreign_doc_type_breaks_fetch (st st' : State) (request_id : pystr)
    (req : Models.ExtractionRequest) (a : Attempt) (f : Fields) (d : pystr)
    (max_attempts : Z) (later : nat -> Models.table) :
  _backend = lit "llm" ->
  Models.get request_id (db st) = Some req ->
  Models.status req = Models.PENDING ->
  ~ occurs_in Extractor.FAILURE_MARKER (Models.document_text req) ->
  guard a = Completes ->
  llm a = LLMReturns f ->
  doc_type f = Some d ->
  d <> [] ->
  ~ In d Fetch.DocTypeLiteral ->
  rtc step (process request_id a st) st' ->
  (exists r',
     Models.get request_id (db st') = Some r'
     /\ Models.status r' = Models.COMPLETED
     /\ Models.doc_type r' = Some d)
  /\ Fetch.get_extraction request_id max_attempts (db st') later
     = Fetch.RaisesValidationError.
Proof.
  intros Hb Hget Hs Hmark Hg Hllm Hd Hne Hlit Hsteps.
  apply contains_false in Hmark.
  pose proof (extract_from_text_ok (Models.document_text req) Hmark) as Hreg.
  set (regex_result := {| doc_type := _ |}) in Hreg.
  assert (Ha : attempt a (Models.document_text req)
               = Ok (Worker.merge f regex_result)).
  { unfold Worker.attempt. rewrite Hg, Hllm, Hb. simpl.
    by apply llm_returns_merge. }
  set (row := Worker.completed req (Worker.merge f regex_result) (now a)).
  assert (Hrow : Models.get request_id (db (process request_id a st))
                 = Some row).
  { unfold Lifecycle.process, Worker._process_request.
    rewrite Hget, Hs. simpl. rewrite Ha. simpl.
    apply get_Some in Hget as Hid. destruct Hid as [<- _].
    by apply (get_update_eq row req). }
  assert (Hdoc : Models.doc_type row = Some d).
  { simpl. rewrite Hd. by destruct d. }
  assert (Hrow' : Models.get request_id (db st') = Some row).
  { eapply settled_terminal; [by apply steps_settled | done | done]. }
  split; [by exists row |].
  rewrite (fetch_terminal _ _ _ _ row Hrow') by done.
  cbn [Models.status row Worker.completed].
  unfold Fetch.completed_reply. rewrite Hdoc.
  assert (Fetch.or_default (Some d) (lit "unknown") = d) as ->
    by (by destruct d).
  apply mem_not_In in Hlit. by rewrite Hlit.
Qed.

(** ** The outcomes of a submission *)

Lemma conflicts_id (req r : Models.ExtractionRequest) (t : Models.table) :
  Models.get (Models.id req) t = Some r -> Models.conflicts req t = true.
Proof.
  intros H. apply get_Some in H as [Hid Hin]. unfold Models.conflicts.
  apply existsb_exists. exists r. split; [done |].
  by rewrite Hid, eqb_refl.
Qed.

Lemma get_None (i : pystr) (t : Models.table) :
  Models.get i t = None <-> ~ In i (map Models.id t).
Proof.
  unfold Models.get. induction t as [|x t IH]; simpl; [tauto |].
  destruct (Py.eqb (Models.id x) i) eqn:E.
  - apply eqb_eq in E. split; [done | tauto].
  - apply eqb_neq in E. rewrite IH. tauto.
Qed.

Lemma conflicts_fresh (req : Models.ExtractionRequest) (t : Models.table) :
  Models.get (Models.id req) t = None ->
  Models.by_key (Models.idempotency_key req) t = None ->
  Models.conflicts req t = false.
Proof.
  intros Hid Hkey. apply get_None in Hid. apply by_key_None in Hkey.
  unfold Models.conflicts. apply not_true_is_false. intros H.
  apply existsb_exists in H as [r [Hin H]]. apply orb_true_iff in H.
  destruct H as [H | H]; apply eqb_eq in H.
  - apply Hid. rewrite <- H. by apply in_map.
  - apply Hkey. rewrite <- H. by apply in_map.
Qed.

(** X11: a submission that runs alone has three outcomes.  A known
    idempotency key answers with the id and status of its row and changes
    nothing, whatever the text submitted with it.  A new key with a fresh
    id adds one [PENDING] row, with all result and error columns null, at
    the end of the table and its id at the end of the queue.  A new key
    whose drawn id is already taken raises the integrity error, and
    neither the table nor the queue changes. *)
Theorem submission_outcomes (body : Schemas.ExtractRequestBody)
    (req_id : pystr) (t : N) (st : State) :
  (forall existing,
     Models.by_key (Schemas.idempotency_key body) (db st) = Some existing ->
     Main.submit_extraction body req_id t (fun s => s) st
     = (Main.Responds
          (Schemas.mkPostResponse (Models.id existing)
             (Models.status existing)), st))
  /\ (Models.by_key (Schemas.idempotency_key body) (db st) = None ->
      Models.get req_id (db st) = None ->
      Main.submit_extraction body req_id t (fun s => s) st
      = (Main.Responds (Schemas.mkPostResponse req_id Models.PENDING),
         mkState (db st ++ [Main.new_request body req_id t])
           (_q st ++ [req_id]) (_attempts st) (_stop_event st))
      /\ result_null (Main.new_request body req_id t)
      /\ error_null (Main.new_request body req_id t))
  /\ (forall taken,
        Models.by_key (Schemas.idempotency_key body) (db st) = None ->
        Models.get req_id (db st) = Some taken ->
        Main.submit_extraction body req_id t (fun s => s) st
        = (Main.RaisesIntegrityError, st)).
Proof.
  unfold Main.submit_extraction. repeat split.
  - intros existing H. by rewrite H.
  - rewrite H. by rewrite conflicts_fresh.
  - intros taken Hkey Hid. rewrite Hkey.
    by rewrite (conflicts_id (Main.new_request body req_id t) taken).
Qed.

(** ** The attempts counted *)

Lemma get_app_None (i : pystr) (t l : Models.table) :
  Models.get i t = None -> Models.get i (t ++ l) = Models.get i l.
Proof.
  unfold Models.get. induction t as [|x t IH]; simpl; [done |].
  destruct (Py.eqb (Models.id x) i); [done | apply IH].
Qed.

Lemma counted_db_attempts (st st' : State) :
  db st' = db st -> _attempts st' = _attempts st ->
  counted _max_retries st -> counted _max_retries st'.
Proof.
  intros Hdb Ha H i. specialize (H i).
  unfold Lifecycle.attempts_of in *. by rewrite Hdb, Ha.
Qed.

Lemma process_other_lookup (request_id other : pystr) (a : Attempt)
    (st : State) :
  other <> request_id ->
  _attempts (process request_id a st) !! other = _attempts st !! other.
Proof.
  intros Hne.
  destruct (process_outcome _backend _max_retries _task_timeout_seconds
              request_id a st) as [| | | |]; try done;
    simpl; by rewrite lookup_insert_ne.
Qed.

Lemma process_counted (request_id : pystr) (a : Attempt) (st : State) :
  counted _max_retries st -> counted _max_retries (process request_id a st).
Proof.
  intros H i.
  destruct (decide (i = request_id)) as [-> | Hne].
  - specialize (H request_id).
    destruct (process_outcome _backend _max_retries _task_timeout_seconds
                request_id a st)
      as [Hget|req Hget Hs|req f Hget Hs _|req ex Hget Hs _ Hle
          |req ex Hget Hs _ Hlt]; try exact H.
    + rewrite Hget, Hs in H. apply get_Some in Hget as Hid.
      destruct Hid as [<- _].
      assert (E : Models.get (Models.id req)
                    (Models.update (Worker.completed req f (now a)) (db st))
                  = Some (Worker.completed req f (now a)))
        by (by apply (get_update_eq (Worker.completed req f (now a)) req)).
      simpl db. rewrite E. exact H.
    + rewrite Hget, Hs in H. simpl db. rewrite Hget, Hs.
      replace (Lifecycle.attempts_of request_id
                 (Worker.enqueue request_id
                    (Lifecycle.count_attempt request_id st)))
        with (Lifecycle.attempts_of request_id st + 1)%Z.
      * lia.
      * symmetry. apply (attempts_of_counted request_id st).
    + rewrite Hget, Hs in H. apply get_Some in Hget as Hid.
      destruct Hid as [<- _].
      assert (E : Models.get (Models.id req)
                    (Models.update (Worker.failed req ex (now a)) (db st))
                  = Some (Worker.failed req ex (now a)))
        by (by apply (get_update_eq (Worker.failed req ex (now a)) req)).
      simpl db. rewrite E. cbn [Models.status Worker.failed].
      replace (Lifecycle.attempts_of (Models.id req)
                 (with_db
                    (Models.update (Worker.failed req ex (now a)) (db st))
                    (Lifecycle.count_attempt (Models.id req) st)))
        with (Lifecycle.attempts_of (Models.id req) st + 1)%Z.
      * lia.
      * symmetry. apply (attempts_of_counted (Models.id req) st).
  - specialize (H i).
    destruct (process_other _backend _max_retries _task_timeout_seconds
                i request_id a st) as [Hget _]; [done |].
    unfold Lifecycle.attempts_of in *.
    by rewrite Hget, process_other_lookup.
Qed.

Lemma run_counted (turns : list Attempt) (st : State) :
  counted _max_retries st -> counted _max_retries (run turns st).
Proof.
  apply (run_preserves _backend _max_retries _task_timeout_seconds
           (fun st st' => counted _max_retries st ->
                          counted _max_retries st')).
  - auto.
  - auto.
  - intros q st0. by apply counted_db_attempts.
  - intros request_id a st0. apply process_counted.
Qed.

Lemma submit_counted body req_id t (st : State) :
  counted _max_retries st ->
  counted _max_retries
    (snd (Main.submit_extraction body req_id t (fun s => s) st)).
Proof.
  intros H. unfold Main.submit_extraction.
  destruct (Models.by_key (Schemas.idempotency_key body) (db st));
    [done |].
  destruct (Models.conflicts (Main.new_request body req_id t) (db st))
    eqn:Hc; [done |].
  apply conflicts_false in Hc as [Hid _]. simpl in Hid.
  intros i. specialize (H i). simpl.
  unfold Lifecycle.attempts_of in *. simpl.
  destruct (Models.get i (db st)) as [r|] eqn:Hget.
  - by rewrite (get_app _ _ _ _ Hget).
  - rewrite (get_app_None _ _ _ Hget). unfold Models.get. simpl.
    destruct (Py.eqb req_id i); [| done]. simpl. rewrite H. simpl. lia.
Qed.

Lemma step_counted (st st' : State) :
  step st st' -> counted _max_retries st -> counted _max_retries st'.
Proof.
  intros []; auto using submit_counted, process_counted, run_counted.
Qed.

Lemma reachable_counted (st : State) :
  reachable st -> counted _max_retries st.
Proof.
  intros Hreach.
  assert (Hall : forall s s', rtc step s s' ->
             counted _max_retries s -> counted _max_retries s').
  { induction 1; eauto using step_counted. }
  apply (Hall initial st Hreach). intros i. simpl. done.
Qed.

(** X12: in every reachable state, for every request: the attempts
    counted are at least 0 and at most [_max_retries + 1] (1 when
    [_max_retries] is negative); a [FAILED] request has had exactly that
    many failed attempts; a request that is [PENDING] or [COMPLETED] has
    had at most [_max_retries] (none when that is negative); and nothing
    is counted for an unknown id. *)
Theorem attempts_are_bounded (st : State) (request_id : pystr) :
  reachable st ->
  (0 <= Lifecycle.attempts_of request_id st
   <= Z.max _max_retries 0 + 1)%Z
  /\ (forall r,
        Models.get request_id (db st) = Some r ->
        (Models.status r = Models.FAILED ->
         Lifecycle.attempts_of request_id st
         = (Z.max _max_retries 0 + 1)%Z)
        /\ (Models.status r <> Models.FAILED ->
            (Lifecycle.attempts_of request_id st
             <= Z.max _max_retries 0)%Z))
  /\ (Models.get request_id (db st) = None ->
      _attempts st !! request_id = None).
Proof.
  intros Hreach. pose proof (reachable_counted st Hreach request_id) as H.
  destruct (Models.get request_id (db st)) as [r|].
  - split; [destruct (Models.status r); lia |]. split; [| done].
    intros r' [= <-]. destruct (Models.status r); split; try done; lia.
  - unfold Lifecycle.attempts_of. rewrite H. simpl.
    split; [lia |]. by split.
Qed.

(** ** The queue *)

Local Abbreviation system_step :=
  (Lifecycle.system_step _backend _max_retries _task_timeout_seconds).










(** ** After the stop *)

Lemma run_stopped (turns : list Attempt) (st : State) :
  _stop_event st = true -> run turns st = st.
Proof. intros H. destruct turns; [done |]. simpl. by rewrite H. Qed.

(** X6: the stop is final.  Once [stop] has been called, whatever
    submissions, turns of the loop and further stops follow, the stop
    event stays set and the loop does nothing, however many turns it is
    given: every request keeps the row it had, a [PENDING] one with it,
    and every request submitted later is and stays [PENDING].  A loop
    that pops the stop sentinel ends there, leaving what was queued
    behind it in the queue. *)
Theorem stop_ends_the_loop (st st' : State) :
  rtc system_step (Worker.stop st) st' ->
  _stop_event st' = true
  /\ (forall turns, run turns st' = st')
  /\ (forall i r, Models.get i (db st) = Some r ->
                  Models.get i (db st') = Some r)
  /\ (forall i r, Models.get i (db st') = Some r ->
                  Models.get i (db st) = None ->
                  Models.status r = Models.PENDING)
  /\ (forall s a turns behind,
        _stop_event s = false ->
        _q s = lit "__STOP__" :: behind ->
        run (a :: turns) s = with_q behind s).
Proof.
  intros Hsteps.
  assert (Hinv : forall s s',
            rtc system_step s s' ->
            _stop_event s = true ->
            _stop_event s' = true
            /\ (forall i r, Models.get i (db s) = Some r ->
                            Models.get i (db s') = Some r)
            /\ (forall i r, Models.get i (db s') = Some r ->
                            Models.get i (db s) = None ->
                            Models.status r = Models.PENDING)).
  { induction 1 as [s|s1 s2 s3 H12 _ IH]; intros Hstop.
    - split; [done |]. split; [done |]. intros i r H1 H2. congruence.
    - assert (H2 : _stop_event s2 = true
                   /\ (forall i r, Models.get i (db s1) = Some r ->
                                   Models.get i (db s2) = Some r)
                   /\ (forall i r, Models.get i (db s2) = Some r ->
                                   Models.get i (db s1) = None ->
                                   Models.status r = Models.PENDING)).
      { destruct H12 as [body req_id t s|turns s|s].
        - unfold Main.submit_extraction.
          destruct (Models.by_key (Schemas.idempotency_key body) (db s));
            [simpl; split; [done |]; split; [done |]; intros; congruence |].
          destruct (Models.conflicts (Main.new_request body req_id t)
                      (db s));
            [simpl; split; [done |]; split; [done |]; intros; congruence |].
          simpl. split; [done |]. split.
          + intros i r. apply get_app.
          + intros i r Hget Hnone.
            rewrite (get_app_None _ _ _ Hnone) in Hget.
            unfold Models.get in Hget. simpl in Hget.
            destruct (Py.eqb req_id i); [| done]. by injection Hget as <-.
        - rewrite run_stopped by done.
          split; [done |]. split; [done |]. intros; congruence.
        - simpl. split; [done |]. split; [done |]. intros; congruence. }
      destruct H2 as (Hs2 & Hkeep2 & Hnew2).
      destruct (IH Hs2) as (Hs3 & Hkeep3 & Hnew3).
      split; [done |]. split; [by auto |].
      intros i r Hget Hnone.
      destruct (Models.get i (db s2)) as [r2|] eqn:E2.
      + rewrite (Hkeep3 _ _ E2) in Hget. injection Hget as <-.
        by eapply Hnew2.
      + by eapply Hnew3. }
  destruct (Hinv _ _ Hsteps eq_refl) as (Hs & Hkeep & Hnew).
  split; [done |]. split; [intros turns; by apply run_stopped |].
  split; [exact Hkeep |]. split; [exact Hnew |].
  intros s a turns behind Hstop Hq. simpl. by rewrite Hstop, Hq, eqb_refl.
Qed.

(** ** The amount and its currency *)

Lemma float_nonneg (s : pystr) (q : Q) :
  Extractor.float s = Some q -> (0 <= q)%Q.
Proof.
  unfold Extractor.float.
  destruct (Extractor.break_at Extractor.dot (Py.strip s)) as [ip [f|]].
  - destruct (_ && _ && _); [| done]. intros [= <-].
    rewrite Qred_correct. unfold Qle. simpl. lia.
  - destruct (_ && _); [| done]. intros [= <-].
    rewrite Qred_correct. unfold Qle. simpl. lia.
Qed.

Lemma currency_of_symbol_supported (symbol c : pystr) :
  Extractor.currency_of_symbol symbol = Some c ->
  In c Extractor.SUPPORTED_CURRENCY_CODES.
Proof.
  unfold Extractor.currency_of_symbol.
  repeat (destruct (Py.eqb symbol _);
          [intros [= <-]; apply mem_In; by vm_compute |]).
  done.
Qed.

Lemma line_code_supported (cand c : pystr) :
  Extractor.line_code_of cand = Some c ->
  In c Extractor.SUPPORTED_CURRENCY_CODES.
Proof.
  unfold Extractor.line_code_of.
  destruct (Re.search Extractor.code_pattern cand) as [m|]; [| done].
  destruct (Py.mem _ _) eqn:E; [| done]. intros [= <-]. by apply mem_In.
Qed.

Lemma amounts_of_candidate_shape (cand : pystr) (x : Q * option pystr) :
  In x (Extractor.amounts_of_candidate cand) ->
  (0 <= fst x)%Q
  /\ forall c, snd x = Some c -> In c Extractor.SUPPORTED_CURRENCY_CODES.
Proof.
  unfold Extractor.amounts_of_candidate. intros H.
  apply in_app_iff in H as [H | H].
  - apply list_elem_of_In, list_elem_of_omap in H as [m [_ H]].
    destruct (Extractor.float _) as [amount_val|] eqn:Hf; [| done].
    injection H as <-. split; [by eapply float_nonneg |]. simpl.
    intros c. destruct (Extractor.line_code_of cand) as [c'|] eqn:Hc.
    + intros [= <-]. by eapply line_code_supported.
    + apply currency_of_symbol_supported.
  - destruct (negb _); [| done].
    apply list_elem_of_In, list_elem_of_omap in H as [m [_ H]].
    destruct (Extractor.float _) as [amount_val|] eqn:Hf; [| done].
    injection H as <-. split; [by eapply float_nonneg |]. simpl.
    intros c. destruct (Re.group m 1) as [[|c0 symbol_opt]|].
    + apply line_code_supported.
    + apply currency_of_symbol_supported.
    + apply line_code_supported.
Qed.

Lemma parsed_candidates_shape (text : pystr) (x : Q * option pystr) :
  In x (parsed_candidates text) ->
  (0 <= fst x)%Q
  /\ forall c, snd x = Some c -> In c Extractor.SUPPORTED_CURRENCY_CODES.
Proof.
  unfold parsed_candidates. intros H.
  apply in_concat in H as [l [Hl Hx]].
  apply in_map_iff in Hl as [cand [<- _]].
  by eapply amounts_of_candidate_shape.
Qed.

Lemma extract_parsed (text : pystr) :
  Extractor._extract_currency_and_amount text
  = match parsed_candidates text with
    | [] => (None, None)
    | first :: others =>
        (snd (Extractor.max_amount first others),
         Some (fst (Extractor.max_amount first others)))
    end.
Proof.
  unfold Extractor._extract_currency_and_amount, parsed_candidates,
    candidates_of.
  destruct (concat _) as [|first others]; [done |].
  by destruct (Extractor.max_amount first others).
Qed.

Lemma max_amount_first_largest (l : list (Q * option pystr)) :
  forall before best mid,
    Forall (fun x => (fst x < fst best)%Q) before ->
    Forall (fun x => (fst x <= fst best)%Q) mid ->
    exists before' after',
      before ++ best :: mid ++ l
      = before' ++ Extractor.max_amount best l :: after'
      /\ Forall (fun x => (fst x < fst (Extractor.max_amount best l))%Q)
           before'
      /\ Forall (fun x => (fst x <= fst (Extractor.max_amount best l))%Q)
           after'.
Proof.
  induction l as [|x l IH]; intros before best mid Hb Hm; simpl.
  - exists before, mid. by rewrite app_nil_r.
  - destruct (fst best ?= fst x)%Q eqn:E.
    + destruct (IH before best (mid ++ [x])) as [b' [a' [Heq H]]].
      * done.
      * apply Forall_app. split; [done |]. apply Forall_singleton.
        apply Qeq_alt in E. rewrite E. apply Qle_refl.
      * exists b', a'. split; [| done]. rewrite <- Heq.
        by rewrite <- app_assoc.
    + apply Qlt_alt in E.
      destruct (IH (before ++ best :: mid) x []) as [b' [a' [Heq H]]].
      * apply Forall_app. split.
        -- eapply Forall_impl; [exact Hb |]. intros y Hy. simpl in Hy.
           by eapply Qlt_trans.
        -- apply Forall_cons. split; [done |].
           eapply Forall_impl; [exact Hm |]. intros y Hy. simpl in Hy.
           by eapply Qle_lt_trans.
      * constructor.
      * exists b', a'. split; [| done]. rewrite <- Heq. simpl.
        by rewrite <- app_assoc.
    + apply Qgt_alt in E.
      destruct (IH before best (mid ++ [x])) as [b' [a' [Heq H]]].
      * done.
      * apply Forall_app. split; [done |]. apply Forall_singleton.
        by apply Qlt_le_weak.
      * exists b', a'. split; [| done]. rewrite <- Heq.
        by rewrite <- app_assoc.
Qed.

Lemma extract_amount_shape (text : pystr) :
  amount_shape (fst (Extractor._extract_currency_and_amount text))
    (snd (Extractor._extract_currency_and_amount text)).
Proof.
  rewrite extract_parsed.
  destruct (parsed_candidates text) as [|first others] eqn:E;
    [by repeat split |].
  destruct (max_amount_first_largest others [] first []) as [b [a [Heq _]]];
    [constructor | constructor |].
  simpl in Heq.
  assert (Hin : In (Extractor.max_amount first others)
                  (parsed_candidates text)).
  { rewrite E, Heq. apply in_app_iff. right. by left. }
  apply parsed_candidates_shape in Hin as [Hq Hc]. simpl.
  split; [done |]. split; [by intros q [= <-] | exact Hc].
Qed.

(** X14: what the heuristic engine reports as amount and currency, on
    every text: never a currency without an amount, never a negative
    amount, and never a currency outside the ten supported codes; the same
    holds of the fields of [extract_from_text] and, under a backend other
    than "llm", of every [COMPLETED] request the system stores. *)
Theorem amount_and_currency_are_sound (text : pystr) :
  amount_shape (fst (Extractor._extract_currency_and_amount text))
    (snd (Extractor._extract_currency_and_amount text))
  /\ (forall f, Extractor.extract_from_text text = Ok f ->
        amount_shape (currency f) (total_amount f))
  /\ (forall st r,
        _backend <> lit "llm" ->
        reachable st ->
        In r (db st) ->
        Models.status r = Models.COMPLETED ->
        amount_shape (Models.currency r) (Models.total_amount r)).
Proof.
  assert (Hf : forall t f, Extractor.extract_from_text t = Ok f ->
                 amount_shape (currency f) (total_amount f)).
  { intros t f. unfold Extractor.extract_from_text.
    destruct (Py.contains _ t); [done |].
    pose proof (extract_amount_shape t) as H.
    destruct (Extractor._extract_currency_and_amount t).
    by intros [= <-]. }
  split; [apply extract_amount_shape |]. split; [apply Hf |].
  intros st r Hb Hreach Hin Hs.
  assert (Hall : Forall (fun r => Models.status r = Models.COMPLETED ->
                    amount_shape (Models.currency r) (Models.total_amount r))
                   (db st)).
  { apply rows_invariant; [done | | done | done].
    intros req a f _ Ha _. simpl. apply (Hf (Models.document_text req)).
    apply eqb_neq in Hb. revert Ha.
    unfold Worker.attempt, Worker.execute_with_timeout, Worker.run_extractor.
    rewrite Hb. by destruct (guard a). }
  by apply (proj1 (List.Forall_forall _ _) Hall).
Qed.


(** ** Line ends *)

Lemma replace_absent (fuel : nat) (h : N) (old new s : pystr) :
  ~ In h s -> Py.replace_fuel fuel (h :: old) new s = s.
Proof.
  revert s. induction fuel as [|fuel IH]; intros s H; [done |].
  destruct s as [|c s]; [done |]. cbn [Py.replace_fuel Py.startswith].
  assert ((h =? c) = false) as ->.
  { apply N.eqb_neq. intros ->. apply H. by left. }
  simpl. f_equal. apply IH. intros Hin. apply H. by right.
Qed.

Lemma replace_cr_lf (fuel : nat) (s : pystr) :
  (length s <= fuel)%nat ->
  map (fun c => if c =? Extractor.CR then Extractor.LF else c)
    (Py.replace_fuel fuel [Extractor.CR; Extractor.LF] [Extractor.LF] s)
  = unix_newlines s.
Proof.
  revert s. induction fuel as [|fuel IH]; intros s Hlen.
  - by destruct s; [| simpl in Hlen; lia].
  - destruct s as [|c s]; [done |].
    cbn [Py.replace_fuel Py.startswith unix_newlines].
    rewrite (N.eqb_sym Extractor.CR c).
    destruct (c =? Extractor.CR) eqn:Ec.
    + destruct s as [|d s].
      * cbn [andb map]. rewrite Ec. by destruct fuel.
      * rewrite (N.eqb_sym Extractor.LF d).
        destruct (d =? Extractor.LF) eqn:Ed; cbn [andb].
        -- cbn [length drop app map]. f_equal. apply IH.
           simpl in Hlen. lia.
        -- cbn [map]. rewrite Ec. f_equal. apply IH.
           simpl in Hlen |- *. lia.
    + cbn [andb map]. rewrite Ec. f_equal. apply IH. simpl in Hlen. lia.
Qed.

Lemma replace_cr (fuel : nat) (s : pystr) :
  (length s <= fuel)%nat ->
  Py.replace_fuel fuel [Extractor.CR] [Extractor.LF] s
  = map (fun c => if c =? Extractor.CR then Extractor.LF else c) s.
Proof.
  revert s. induction fuel as [|fuel IH]; intros s Hlen.
  - by destruct s; [| simpl in Hlen; lia].
  - destruct s as [|c s]; [done |].
    cbn [Py.replace_fuel Py.startswith]. rewrite (N.eqb_sym Extractor.CR c).
    destruct (c =? Extractor.CR) eqn:Ec; simpl; rewrite Ec; f_equal;
      apply IH; simpl in Hlen; lia.
Qed.

Lemma normalize_text_unix (text : pystr) :
  Extractor._normalize_text text = unix_newlines text.
Proof.
  unfold Extractor._normalize_text, Py.replace.
  rewrite replace_cr by done. by apply replace_cr_lf.
Qed.

Lemma unix_newlines_id (s : pystr) :
  ~ In Extractor.CR s -> unix_newlines s = s.
Proof.
  induction s as [|c s IH]; [done |]. intros H. simpl.
  assert ((c =? Extractor.CR) = false) as ->.
  { apply N.eqb_neq. intros ->. apply H. by left. }
  f_equal. apply IH. intros Hin. apply H. by right.
Qed.

Lemma split_acc_lines (sep : N) (s cur line : pystr) :
  In line (Py.split_acc sep s cur) ->
  forall x, In x line -> x <> sep /\ (In x cur \/ In x s) \/ (In x cur).
Proof.
  revert cur. induction s as [|c s IH]; intros cur H x Hx; simpl in H.
  - destruct H as [<- | []]. right. by apply in_rev.
  - destruct (c =? sep) eqn:E.
    + destruct H as [<- | H].
      * right. by apply in_rev.
      * destruct (IH [] H x Hx) as [[Hne [[] | Hin]] | []].
        left. split; [done |]. right. by right.
    + apply N.eqb_neq in E.
      destruct (IH (c :: cur) H x Hx) as [[Hne [Hin | Hin]] | Hin].
      * destruct Hin as [<- | Hin]; [| left; split; [done | by left]].
        left. split; [done |]. right. by left.
      * left. split; [done |]. right. by right.
      * destruct Hin as [<- | Hin]; [| by right].
        left. split; [done |]. right. by left.
Qed.

(** X16: [_normalize_text] makes the line ends uniform: each CR LF pair
    becomes one LF and each CR left becomes an LF, so the result holds no
    CR, and a text without CR is returned as it is; the lines the amount
    heuristic then splits off hold neither CR nor LF. *)
Theorem line_ends_are_made_uniform (text : pystr) :
  Extractor._normalize_text text = unix_newlines text
  /\ ~ In Extractor.CR (Extractor._normalize_text text)
  /\ (~ In Extractor.CR text -> Extractor._normalize_text text = text)
  /\ (forall line,
        In line (Py.split Extractor.LF (Extractor._normalize_text text)) ->
        ~ In Extractor.CR line /\ ~ In Extractor.LF line).
Proof.
  assert (Hcr : ~ In Extractor.CR (Extractor._normalize_text text)).
  { unfold Extractor._normalize_text, Py.replace.
    rewrite replace_cr by done. intros H.
    apply in_map_iff in H as [c [H _]].
    by destruct (c =? Extractor.CR) eqn:E; [| apply N.eqb_neq in E]. }
  split; [apply normalize_text_unix |]. split; [exact Hcr |]. split.
  - intros H. rewrite normalize_text_unix. by apply unix_newlines_id.
  - intros line Hline. split; intros Hin.
    + destruct (split_acc_lines _ _ _ _ Hline _ Hin)
        as [[_ [[] | H]] | []]. by apply Hcr.
    + by destruct (split_acc_lines _ _ _ _ Hline _ Hin)
        as [[Hne _] | []].
Qed.

End Stored.

(** * More on the small system *)

Lemma done_state_reachable :
  Lifecycle.reachable demo_backend demo_retries demo_timeout done_state.
Proof.
  eapply rtc_r; [apply demo_state_reachable |].
  unfold done_state, demo_process. constructor.
Qed.


Lemma failed_state_reachable :
  Lifecycle.reachable demo_backend demo_retries demo_timeout failed_state.
Proof.
  eapply rtc_l;
    [apply (Lifecycle.step_submit _ _ _ failing_body (lit "req_b") 2) |].
  apply rtc_once. unfold failed_state, demo_run, failing_state. constructor.
Qed.

Lemma rows_settle_witness :
  exists r',
    Models.get (lit "req_a") (db done_state) = Some r'
    /\ Models.document_text r' = Schemas.document_text demo_body
    /\ Models.created_at r' = 1.
Proof.
  destruct (rows_settle demo_backend demo_retries demo_timeout
              demo_state done_state (lit "req_a")
              (Main.new_request demo_body (lit "req_a") 1))
    as [r' [Hget [_ [_ [Ht [Hc _]]]]]].
  - apply rtc_once. unfold done_state, demo_process. constructor.
  - vm_compute. reflexivity.
  - exists r'. repeat split; assumption.
Defined.

Lemma stored_codes_and_types_witness :
  Models.doc_type done_row = Some (lit "invoice")
  \/ Models.doc_type done_row = Some (lit "receipt")
  \/ Models.doc_type done_row = Some (lit "unknown").
Proof.
  destruct (stored_codes_and_types demo_backend demo_retries demo_timeout
              done_state done_row) as [_ [_ H]].
  - apply done_state_reachable.
  - vm_compute. left. reflexivity.
  - apply H.
    + vm_compute. discriminate.
    + vm_compute. reflexivity.
Defined.

Lemma process_touches_one_request_witness :
  Models.get (lit "req_b")
    (db (demo_process (lit "req_a") demo_attempt both_state))
  = Models.get (lit "req_b") (db both_state)
  /\ _attempts (demo_process (lit "req_a") demo_attempt both_state)
       !! lit "req_b"
     = _attempts both_state !! lit "req_b".
Proof.
  destruct (process_touches_one_request demo_backend demo_retries
              demo_timeout (lit "req_a") (lit "req_b") demo_attempt
              both_state) as [Hget [Hatt _]].
  - vm_compute. discriminate.
  - split; assumption.
Defined.

Lemma loop_turn_is_fifo_witness :
  demo_run [demo_attempt] both_state
  = demo_process (lit "req_a") demo_attempt
      (with_q [lit "req_b"] both_state).
Proof.
  destruct (loop_turn_is_fifo demo_backend demo_retries demo_timeout
              demo_attempt both_state (lit "req_a") [lit "req_b"])
    as [H _].
  - reflexivity.
  - vm_compute. reflexivity.
  - vm_compute. discriminate.
  - exact H.
Defined.

Lemma finished_fetch_is_final_witness :
  Fetch.get_extraction (lit "req_a") 3 (db (Worker.stop done_state))
    (fun _ => [])
  = Fetch.get_extraction (lit "req_a") 0 (db done_state) (fun _ => []).
Proof.
  apply (finished_fetch_is_final demo_backend demo_retries demo_timeout
           done_state (Worker.stop done_state) (lit "req_a") done_row).
  - apply rtc_once. constructor.
  - vm_compute. reflexivity.
  - vm_compute. discriminate.
Defined.

Lemma fetch_returns_the_stored_columns_witness :
  exists d,
    Models.doc_type done_row = Some d
    /\ Fetch.get_extraction (lit "req_a") 3 (db done_state) (fun _ => [])
       = Fetch.Responds
           (Fetch.mkGetResponse (lit "req_a") Models.COMPLETED
              (Some (Fetch.mkResult d (Models.invoice_number done_row)
                       (Models.invoice_date done_row)
                       (Models.total_amount done_row)
                       (Models.currency done_row)))
              None).
Proof.
  destruct (fetch_returns_the_stored_columns demo_backend demo_retries
              demo_timeout done_state (lit "req_a") done_row 3
              (fun _ => [])) as [_ H].
  - apply done_state_reachable.
  - vm_compute. reflexivity.
  - destruct H as [d [Hd [Hlit [Hget _]]]].
    + vm_compute. reflexivity.
    + exists d. split; [exact Hd |]. apply Hget, Hlit.
      vm_compute. discriminate.
Defined.

Lemma polling_is_a_late_look_witness :
  Fetch.get_extraction (lit "req_a") 1 (db demo_state)
    (fun _ => db done_state)
  = Fetch.get_extraction (lit "req_a") 0 (db done_state)
      (fun _ => db done_state).
Proof.
  destruct (polling_is_a_late_look demo_backend demo_retries demo_timeout
              demo_state (fun _ => done_state) (lit "req_a")
              (Main.new_request demo_body (lit "req_a") 1) 0) as [H _].
  - split.
    + apply rtc_once. unfold done_state, demo_process. constructor.
    + intros i. apply rtc_refl.
  - vm_compute. reflexivity.
  - exact H.
Defined.

Lemma foreign_doc_type_breaks_fetch_witness :
  Fetch.get_extraction (lit "req_a") 3
    (db (Lifecycle.process (lit "llm") demo_retries demo_timeout
           (lit "req_a") foreign_attempt demo_state))
    (fun _ => [])
  = Fetch.RaisesValidationError.
Proof.
  destruct (foreign_doc_type_breaks_fetch (lit "llm") demo_retries
              demo_timeout demo_state
              (Lifecycle.process (lit "llm") demo_retries demo_timeout
                 (lit "req_a") foreign_attempt demo_state)
              (lit "req_a") (Main.new_request demo_body (lit "req_a") 1)
              foreign_attempt
              (mkFields (Some (lit "bill")) None None None None)
              (lit "bill") 3 (fun _ => [])) as [_ H].
  - reflexivity.
  - vm_compute. reflexivity.
  - reflexivity.
  - apply contains_false. vm_compute. reflexivity.
  - reflexivity.
  - reflexivity.
  - reflexivity.
  - vm_compute. discriminate.
  - vm_compute. intros [H | [H | [H | []]]]; discriminate.
  - apply rtc_refl.
  - exact H.
Defined.

Lemma attempts_are_bounded_witness :
  Lifecycle.attempts_of (lit "req_b") failed_state
  = (Z.max demo_retries 0 + 1)%Z.
Proof.
  destruct (attempts_are_bounded demo_backend demo_retries demo_timeout
              failed_state (lit "req_b")) as [_ [H _]].
  - apply failed_state_reachable.
  - destruct (H failed_row) as [Hf _].
    + vm_compute. reflexivity.
    + apply Hf. reflexivity.
Defined.


(** * The patterns *)

Section Patterns.

Lemma rmatch_rep (r : Re.regex) (lo : nat) (hi : option nat)
    (g : Re.groups) (cur : Re.cursor)
    (k : Re.groups -> Re.cursor -> option (Re.groups * Re.cursor)) :
  Re.rmatch (Re.Rep r lo hi) g cur k
  = rep_loop (Re.rmatch r) lo hi k (length (Re.rest cur)) 0 g cur.
Proof. reflexivity. Qed.

Lemma rep_loop_sound rm M (lo : nat) (hi : option nat) k :
  (forall g cur k' res,
     rm g cur k' = Some res ->
     exists w g' cur', M g cur w g' cur' /\ k' g' cur' = Some res) ->
  forall fuel n g cur res,
    within hi n ->
    rep_loop rm lo hi k fuel n g cur = Some res ->
    exists m w g' cur',
      reps M m g cur w g' cur' /\ (lo <= n + m)%nat
      /\ within hi (n + m) /\ k g' cur' = Some res.
Proof.
  intros Hrm.
  assert (Hstop : forall n g cur res,
             within hi n ->
             (if Nat.leb lo n then k g cur else None) = Some res ->
             exists m w g' cur',
               reps M m g cur w g' cur' /\ (lo <= n + m)%nat
               /\ within hi (n + m) /\ k g' cur' = Some res).
  { intros n g cur res Hn H. destruct (Nat.leb_spec lo n); [| done].
    exists O, [], g, cur. rewrite Nat.add_0_r. simpl. by repeat split. }
  intros fuel. induction fuel as [|fuel IH]; intros n g cur res Hn H;
    simpl in H; [by apply Hstop |].
  destruct (Re.below hi n) eqn:Hb; [| by apply Hstop].
  destruct (rm g cur _) as [m0|] eqn:Hm; [| by apply Hstop].
  injection H as ->.
  apply Hrm in Hm as (w1 & g1 & cur1 & HM & Hk).
  destruct (Nat.ltb _ _); [| done].
  apply IH in Hk as (m & w2 & g' & cur' & Hreps & Hlo & Hhi & Hk).
  - exists (S m), (w1 ++ w2), g', cur'. rewrite Nat.add_succ_r.
    split; [| done]. simpl. by exists w1, w2, g1, cur1.
  - destruct hi as [h|]; [| done]. simpl in *.
    apply Nat.ltb_lt in Hb. lia.
Qed.

Lemma matches_rest (r : Re.regex) :
  forall g cur w g' cur',
    matches r g cur w g' cur' -> Re.rest cur = w ++ Re.rest cur'.
Proof.
  induction r as [|p|r1 IH1 r2 IH2|r1 IH1 r2 IH2|r IH lo hi|n r IH|];
    intros g cur w g' cur'; simpl.
  - by intros (-> & -> & ->).
  - by intros (c & _ & Hr & _ & -> & _).
  - intros (w1 & w2 & g1 & cur1 & H1 & H2 & ->).
    rewrite (IH1 _ _ _ _ _ H1), (IH2 _ _ _ _ _ H2). by rewrite app_assoc.
  - intros [H | H]; eauto.
  - intros (count & _ & _ & H). revert g cur w H.
    induction count as [|count IHc]; intros g cur w; simpl.
    + by intros (-> & -> & ->).
    + intros (w1 & w2 & g1 & cur1 & H1 & H2 & ->).
      rewrite (IH _ _ _ _ _ H1), (IHc _ _ _ H2). by rewrite app_assoc.
  - intros (g1 & H & _). eauto.
  - by intros (_ & -> & _ & ->).
Qed.

Lemma span_rest (cur cur' : Re.cursor) (w : pystr) :
  Re.rest cur = w ++ Re.rest cur' -> Re.span cur cur' = w.
Proof.
  intros H. unfold Re.span. rewrite H, length_app.
  replace (length w + length (Re.rest cur') - length (Re.rest cur'))%nat
    with (length w) by lia.
  apply take_app_length.
Qed.

Lemma rmatch_sound (r : Re.regex) :
  forall g cur k res,
    Re.rmatch r g cur k = Some res ->
    exists w g' cur', matches r g cur w g' cur' /\ k g' cur' = Some res.
Proof.
  induction r as [|p|r1 IH1 r2 IH2|r1 IH1 r2 IH2|r IH lo hi|n r IH|];
    intros g cur k res H.
  - by exists [], g, cur.
  - simpl in H. destruct cur as [pv [|c s]]; simpl in H; [done |].
    destruct (p c) eqn:Hp; [| done].
    exists [c], g, (Re.Cursor (Some c) s). split; [| done]. by exists c.
  - simpl in H. apply IH1 in H as (w1 & g1 & cur1 & H1 & H).
    apply IH2 in H as (w2 & g2 & cur2 & H2 & H).
    exists (w1 ++ w2), g2, cur2. split; [| done]. simpl.
    by exists w1, w2, g1, cur1.
  - simpl in H. destruct (Re.rmatch r1 g cur k) as [m|] eqn:E.
    + injection H as ->. apply IH1 in E as (w & g' & cur' & H1 & H).
      exists w, g', cur'. split; [by left | done].
    + apply IH2 in H as (w & g' & cur' & H2 & H).
      exists w, g', cur'. split; [by right | done].
  - rewrite rmatch_rep in H.
    apply (rep_loop_sound _ (matches r) lo hi k IH) in H
      as (m & w & g' & cur' & Hreps & Hlo & Hhi & H).
    + exists w, g', cur'. split; [| done]. simpl. by exists m.
    + destruct hi; simpl; [lia | done].
  - simpl in H. apply IH in H as (w & g1 & cur' & HM & H).
    rewrite (span_rest cur cur' w (matches_rest _ _ _ _ _ _ HM)) in H.
    exists w, (<[n := w]> g1), cur'. split; [| done]. simpl. by exists g1.
  - simpl in H. destruct (Re.at_boundary cur) eqn:Hb; [| done].
    by exists [], g, cur.
Qed.

(** A match [re.search] finds is a match of the pattern, on a piece of
    the text. *)
Lemma search_at_sound (r : Re.regex) (s : pystr) :
  forall p m,
    Re.search_at r p s = Some m ->
    exists pre cur w,
      s = pre ++ w ++ Re.rest (Re.m_end m)
      /\ matches r ∅ cur w (Re.m_groups m) (Re.m_end m).
Proof.
  induction s as [|c s IH]; intros p m H; simpl in H.
  - unfold Re.match_here in H.
    destruct (Re.rmatch r ∅ _ _) as [[g e]|] eqn:E; [| done].
    injection H as <-.
    apply rmatch_sound in E as (w & g' & cur' & HM & [= -> ->]).
    exists [], (Re.Cursor p []), w. split; [| done].
    by apply matches_rest in HM.
  - unfold Re.match_here in H.
    destruct (Re.rmatch r ∅ _ _) as [[g e]|] eqn:E.
    + injection H as <-.
      apply rmatch_sound in E as (w & g' & cur' & HM & [= -> ->]).
      exists [], (Re.Cursor p (c :: s)), w. split; [| done].
      by apply matches_rest in HM.
    + apply IH in H as (pre & cur & w & -> & HM).
      by exists (c :: pre), cur, w.
Qed.

Lemma reps_chr (p : N -> bool) (count : nat) :
  forall g cur w g' cur',
    reps (matches (Re.Chr p)) count g cur w g' cur' ->
    length w = count /\ Forall (fun c => p c = true) w /\ g' = g.
Proof.
  induction count as [|count IH]; intros g cur w g' cur'; simpl.
  - by intros (-> & -> & _).
  - intros (w1 & w2 & g1 & cur1 & (c & Hp & _ & _ & -> & ->) & H & ->).
    apply IH in H as (Hlen & Hall & ->). simpl.
    split; [by rewrite Hlen |]. split; [| done]. by constructor.
Qed.

Lemma matches_seq_of_last (rs : list Re.regex) (r : Re.regex) :
  forall g cur w g' cur',
    matches (Re.seq_of (rs ++ [r])) g cur w g' cur' ->
    exists g0 cur0 w0 w1,
      w = w0 ++ w1 /\ matches r g0 cur0 w1 g' cur'.
Proof.
  induction rs as [|a rs IH]; intros g cur w g' cur' H.
  - by exists g, cur, [], w.
  - assert (E : Re.seq_of ((a :: rs) ++ [r])
                = Re.Seq a (Re.seq_of (rs ++ [r]))) by (by destruct rs).
    rewrite E in H. simpl in H.
    destruct H as (w1 & w2 & g1 & cur1 & _ & H & ->).
    apply IH in H as (g0 & cur0 & w0 & w3 & -> & H).
    exists g0, cur0, (w1 ++ w0), w3. by rewrite app_assoc.
Qed.

(** ** The invoice number *)

Lemma token_is_no_space (c : N) :
  is_token_char c = true -> Py.is_space c = false.
Proof.
  unfold is_token_char, Py.is_alpha_ascii, Py.is_upper_ascii,
    Py.is_lower_ascii, Py.is_digit_ascii, Py.is_space.
  intros H. apply not_true_is_false. intros Hs.
  repeat match goal with
         | H : _ || _ = true |- _ =>
             apply orb_true_iff in H; destruct H as [H | H]
         | H : _ && _ = true |- _ =>
             apply andb_true_iff in H; destruct H
         | H : (_ <=? _) = true |- _ => apply N.leb_le in H
         | H : (_ =? _) = true |- _ => apply N.eqb_eq in H
         end; lia.
Qed.

Lemma lstrip_id (s : pystr) :
  Forall (fun c => Py.is_space c = false) s -> Py.lstrip s = s.
Proof. intros H. destruct H as [|c s Hc _]; [done |]. simpl. by rewrite Hc. Qed.

Lemma strip_id (s : pystr) :
  Forall (fun c => Py.is_space c = false) s -> Py.strip s = s.
Proof.
  intros H. unfold Py.strip. rewrite (lstrip_id s H), lstrip_id.
  - apply rev_involutive.
  - apply List.Forall_forall. intros c Hc. apply in_rev in Hc.
    by apply (proj1 (List.Forall_forall _ _) H).
Qed.

Lemma first_match_found (pats : list Re.regex) (text n : pystr) :
  Extractor.first_match pats text = Some n ->
  exists pat m,
    In pat pats /\ Re.search pat text = Some m
    /\ n = Py.strip (Extractor.grp m 1).
Proof.
  induction pats as [|pat pats IH]; simpl; [done |].
  destruct (Re.search pat text) as [m|] eqn:E.
  - intros [= <-]. exists pat, m. split; [by left | done].
  - intros H. apply IH in H as (pat' & m & Hin & H). exists pat', m.
    split; [by right | done].
Qed.

Lemma invoice_pattern_last (pat : Re.regex) :
  In pat Extractor.invoice_patterns ->
  exists rs,
    pat = Re.seq_of (rs ++ [Re.Grp 1 (Re.plus (Re.Chr is_token_char))]).
Proof.
  unfold Extractor.invoice_patterns.
  intros [<- | [<- | [<- | [<- | [<- | []]]]]].
  - by exists [Re.str_ci "Invoice"; Re.star Re.space; Re.str_ci "Number";
               Re.opt Extractor.colon_hash; Re.star Re.space].
  - by exists [Re.str_ci "Invoice"; Re.star Re.space; Re.chr 35;
               Re.star Extractor.colon_space].
  - by exists [Re.str_ci "Invoice"; Re.plus Extractor.colon_space].
  - by exists [Re.str_ci "Transaction"; Re.star Re.space; Re.chr 35;
               Re.star Extractor.colon_space].
  - by exists [Re.str_ci "Transaction"; Re.star Re.space;
               Re.str_ci "Number"; Re.opt Extractor.colon_hash;
               Re.star Re.space].
Qed.

(** X17: an invoice number, when [_extract_invoice_number] finds one, is
    a piece of the text as it stands: it is never empty, it holds no white
    space (so that [strip] had nothing to take off), and in a text of ASCII
    characters it is made of letters, digits, '-', '_' and '/'. *)
Theorem invoice_number_is_a_token (text n : pystr) :
  Extractor._extract_invoice_number text = Some n ->
  n <> []
  /\ occurs_in n text
  /\ Forall (fun c => Py.is_space c = false) n
  /\ (Forall (fun c => c < 128) text ->
      Forall (fun c => is_token_char c = true) n).
Proof.
  unfold Extractor._extract_invoice_number. intros H.
  apply first_match_found in H as (pat & m & Hin & Hs & ->).
  apply invoice_pattern_last in Hin as [rs ->].
  unfold Re.search in Hs.
  apply search_at_sound in Hs as (pre & cur & w & Htext & HM).
  apply matches_seq_of_last in HM as (g0 & cur0 & w0 & w1 & -> & HM).
  simpl in HM. destruct HM as (g1 & (count & Hlo & _ & Hreps) & Hg).
  apply reps_chr in Hreps as (Hlen & Hall & ->).
  assert (Hgrp : Extractor.grp m 1 = w1).
  { unfold Extractor.grp, Re.group.
    assert (Re.m_groups m !! 1%nat = Some w1) as ->; [| done].
    rewrite Hg. apply lookup_insert_eq. }
  assert (Hns : Forall (fun c => Py.is_space c = false) w1).
  { eapply Forall_impl; [exact Hall |]. apply token_is_no_space. }
  rewrite Hgrp, (strip_id w1 Hns). split; [| split; [| split]].
  - intros ->. simpl in Hlen. lia.
  - exists (pre ++ w0), (Re.rest (Re.m_end m)). rewrite Htext.
    by rewrite <- !app_assoc.
  - done.
  - done.
Qed.

(** ** The date *)





End Patterns.

Lemma invoice_number_is_a_token_witness :
  occurs_in (lit "INV-1") (Schemas.document_text demo_body)
  /\ Forall (fun c => Py.is_space c = false) (lit "INV-1").
Proof.
  destruct (invoice_number_is_a_token (Schemas.document_text demo_body)
              (lit "INV-1")) as [_ [Hocc [Hsp _]]].
  - vm_compute. reflexivity.
  - split; assumption.
Defined.



(** * The lenient JSON reader *)

Section BestEffort.

Variable value : Type.
Variable none : value.
Variable json_loads : pystr -> option value.

Lemma occurs_in_refl (s : pystr) : occurs_in s s.
Proof. exists [], []. by rewrite app_nil_r. Qed.

Lemma occurs_in_trans (a b c : pystr) :
  occurs_in a b -> occurs_in b c -> occurs_in a c.
Proof.
  intros (p1 & q1 & ->) (p2 & q2 & ->).
  exists (p2 ++ p1), (q1 ++ q2). by rewrite <- !app_assoc.
Qed.

Lemma occurs_in_take (n : nat) (s : pystr) : occurs_in (take n s) s.
Proof. exists [], (drop n s). simpl. by rewrite take_drop. Qed.

Lemma occurs_in_drop (n : nat) (s : pystr) : occurs_in (drop n s) s.
Proof. exists (take n s), []. by rewrite app_nil_r, take_drop. Qed.

Lemma occurs_in_slice (a b : Z) (s : pystr) : occurs_in (LLM.slice a b s) s.
Proof.
  unfold LLM.slice.
  eapply occurs_in_trans; [apply occurs_in_take | apply occurs_in_drop].
Qed.

Lemma lstrip_suffix (s : pystr) : exists pre, s = pre ++ Py.lstrip s.
Proof.
  induction s as [|c s [pre IH]]; [by exists [] |]. simpl.
  destruct (Py.is_space c); [| by exists []].
  exists (c :: pre). simpl. by rewrite <- IH.
Qed.

Lemma occurs_in_strip (s : pystr) : occurs_in (Py.strip s) s.
Proof.
  unfold Py.strip. destruct (lstrip_suffix s) as [p1 H1].
  destruct (lstrip_suffix (rev (Py.lstrip s))) as [p2 H2].
  exists p1, (rev p2). rewrite H1 at 1. f_equal.
  rewrite <- (rev_involutive (Py.lstrip s)) at 1. rewrite H2 at 1.
  by rewrite rev_app_distr.
Qed.

Lemma fenced_of_occurs (text sub : pystr) :
  LLM.fenced_of text = Some sub -> occurs_in sub text.
Proof.
  unfold LLM.fenced_of. destruct (Py.contains LLM.fence text); [| done].
  destruct (_ >? _)%Z; [| done].
  set (inner := LLM.slice _ _ text).
  assert (H : occurs_in (Py.strip inner) text).
  { eapply occurs_in_trans; [apply occurs_in_strip |].
    apply occurs_in_slice. }
  destruct (_ && _); intros [= <-]; [| done].
  eapply occurs_in_trans; [| exact H]. apply occurs_in_drop.
Qed.

Lemma braced_of_occurs (text sub : pystr) :
  LLM.braced_of text = Some sub -> occurs_in sub text.
Proof.
  unfold LLM.braced_of. destruct (_ && _); [| done].
  intros [= <-]. apply occurs_in_slice.
Qed.

(** X19: [_best_effort_parse_json] invents nothing.  A text that
    [json.loads] reads is read as a whole, fences and braces or not;
    otherwise whatever is returned, [None] apart, is what [json.loads]
    made of one contiguous piece of the text; and where [json.loads]
    reads no piece of the text at all, the result is [None]. *)
Theorem lenient_json_reads_a_piece (text : pystr) :
  (forall v, json_loads text = Some v ->
     LLM._best_effort_parse_json value none json_loads text = v)
  /\ (LLM._best_effort_parse_json value none json_loads text = none
      \/ exists sub,
           occurs_in sub text
           /\ json_loads sub
              = Some (LLM._best_effort_parse_json value none json_loads
                        text))
  /\ ((forall sub, occurs_in sub text -> json_loads sub = None) ->
      LLM._best_effort_parse_json value none json_loads text = none).
Proof.
  unfold LLM._best_effort_parse_json. split; [| split].
  - intros v H. by rewrite H.
  - destruct (json_loads text) as [v|] eqn:E.
    { right. exists text. split; [apply occurs_in_refl | done]. }
    destruct (LLM.fenced_of text) as [fenced|] eqn:Ef; simpl.
    + destruct (json_loads fenced) as [v|] eqn:E1.
      { right. exists fenced. split; [by apply fenced_of_occurs | done]. }
      destruct (LLM.braced_of text) as [braced|] eqn:Eb; simpl;
        [| by left].
      destruct (json_loads braced) as [v|] eqn:E2; [| by left].
      right. exists braced. split; [by apply braced_of_occurs | done].
    + destruct (LLM.braced_of text) as [braced|] eqn:Eb; simpl;
        [| by left].
      destruct (json_loads braced) as [v|] eqn:E2; [| by left].
      right. exists braced. split; [by apply braced_of_occurs | done].
  - intros Hnone. rewrite (Hnone text (occurs_in_refl text)).
    destruct (LLM.fenced_of text) as [fenced|] eqn:Ef; simpl.
    + rewrite (Hnone fenced) by (by apply fenced_of_occurs).
      destruct (LLM.braced_of text) as [braced|] eqn:Eb; simpl; [| done].
      by rewrite (Hnone braced) by (by apply braced_of_occurs).
    + destruct (LLM.braced_of text) as [braced|] eqn:Eb; simpl; [| done].
      by rewrite (Hnone braced) by (by apply braced_of_occurs).
Qed.

(** ** A JSON object in a fenced block, or in prose *)

Lemma find_from_skip (h : N) (t before rest : pystr) (i : Z) :
  ~ In h before ->
  LLM.find_from i (h :: t) (before ++ (h :: t) ++ rest)
  = (i + Z.of_nat (length before))%Z.
Proof.
  revert i. induction before as [|c before IH]; intros i Hno.
  - assert (E : Py.startswith ((h :: t) ++ rest) (h :: t) = true)
      by (apply startswith_spec; by exists rest).
    simpl app. destruct t; simpl in *; rewrite E; lia.
  - assert ((h =? c) = false) as Ec.
    { apply N.eqb_neq. intros ->. apply Hno. by left. }
    cbn [app LLM.find_from Py.startswith]. rewrite Ec. cbn [andb].
    rewrite IH by (intros Hin; apply Hno; by right).
    cbn [length]. lia.
Qed.

Lemma rfind_from_absent (sub s : pystr) (i last : Z) :
  Py.contains sub s = false -> LLM.rfind_from i sub s last = last.
Proof.
  revert i. induction s as [|c s IH]; intros i H; simpl in *.
  - apply orb_false_iff in H as [-> _]. done.
  - apply orb_false_iff in H as [E H]. rewrite E. by apply IH.
Qed.

Lemma rfind_from_last (h : N) (t x after : pystr) (i last : Z) :
  Py.contains (h :: t) (t ++ after) = false ->
  LLM.rfind_from i (h :: t) (x ++ (h :: t) ++ after) last
  = (i + Z.of_nat (length x))%Z.
Proof.
  intros Hno. revert i last. induction x as [|c x IH]; intros i last.
  - assert (E : Py.startswith ((h :: t) ++ after) (h :: t) = true)
      by (apply startswith_spec; by exists after).
    cbn [app] in *. cbn [LLM.rfind_from]. rewrite E.
    rewrite rfind_from_absent by done. simpl. lia.
  - cbn [app LLM.rfind_from]. rewrite IH. cbn [length]. lia.
Qed.

Lemma contains_absent (h : N) (t s : pystr) :
  ~ In h s -> Py.contains (h :: t) s = false.
Proof.
  intros Hno. apply contains_false. intros (pre & post & ->).
  apply Hno. apply in_app_iff. right. by left.
Qed.

Lemma slice_middle (x mid y : pystr) :
  LLM.slice (Z.of_nat (length x)) (Z.of_nat (length x + length mid))
    (x ++ mid ++ y) = mid.
Proof.
  unfold LLM.slice. rewrite Nat2Z.id.
  replace (Z.to_nat (Z.of_nat (length x + length mid) - Z.of_nat (length x)))
    with (length mid) by lia.
  by rewrite drop_app_length, take_app_length.
Qed.

Lemma lstrip_head (c : N) (s : pystr) :
  Py.is_space c = false -> Py.lstrip (c :: s) = c :: s.
Proof. intros H. simpl. by rewrite H. Qed.

Lemma strip_between (c z : N) (s : pystr) :
  Py.is_space c = false -> Py.is_space z = false ->
  Py.strip ((c :: s) ++ [z; Extractor.LF]) = (c :: s) ++ [z].
Proof.
  intros Hc Hz. unfold Py.strip. cbn [app]. rewrite (lstrip_head c) by done.
  change (c :: s ++ [z; Extractor.LF])
    with ((c :: s) ++ [z] ++ [Extractor.LF]).
  rewrite app_assoc, rev_app_distr. cbn [rev app].
  assert (Py.is_space Extractor.LF = true) as E by done.
  cbn [Py.lstrip]. rewrite E. rewrite rev_app_distr. cbn [rev app].
  rewrite (lstrip_head z) by done.
  simpl. by rewrite rev_app_distr, rev_involutive.
Qed.

Lemma no_fence_behind (after : pystr) :
  ~ In 96 after -> Py.contains [96; 96; 96] ([96; 96] ++ after) = false.
Proof.
  intros Hno. apply contains_false. intros (pre & post & E).
  destruct pre as [|p0 [|p1 pre]]; simpl in E; injection E as E;
    subst; apply Hno.
  - by left.
  - by left.
  - apply in_app_iff. right. by left.
Qed.

Lemma strip_leading_newline (s : pystr) :
  Py.strip (Extractor.LF :: s) = Py.strip s.
Proof. done. Qed.

Lemma fenced_of_block (before tag inner after : pystr) :
  ~ In 96 before ->
  ~ In 96 after ->
  Forall (fun c => Py.is_space c = false) tag ->
  head tag <> Some 123 ->
  LLM.fenced_of (fenced_block before tag (json_object inner) after)
  = Some (json_object inner).
Proof.
  intros Hb Ha Htag Hhead.
  set (body := json_object inner).
  set (mid := tag ++ [Extractor.LF] ++ body ++ [Extractor.LF]).
  set (text := fenced_block before tag body after).
  assert (Etext : text = before ++ [96; 96; 96] ++ mid
                         ++ [96; 96; 96] ++ after).
  { unfold text, fenced_block, mid. change LLM.fence with [96; 96; 96].
    by rewrite <- !app_assoc. }
  assert (Hc : Py.contains LLM.fence text = true).
  { apply contains_spec. exists before, (mid ++ [96; 96; 96] ++ after).
    by rewrite Etext. }
  assert (Hfind : LLM.find LLM.fence text = Z.of_nat (length before)).
  { unfold LLM.find. change LLM.fence with (96 :: [96; 96]). rewrite Etext.
    by rewrite (find_from_skip 96 [96; 96] before _ 0 Hb). }
  assert (Hrfind : LLM.rfind LLM.fence text
                   = Z.of_nat (length (before ++ [96; 96; 96] ++ mid))).
  { unfold LLM.rfind. change LLM.fence with (96 :: [96; 96]).
    rewrite Etext.
    replace (before ++ [96; 96; 96] ++ mid ++ [96; 96; 96] ++ after)
      with ((before ++ [96; 96; 96] ++ mid) ++ (96 :: [96; 96]) ++ after)
      by (by rewrite <- !app_assoc).
    rewrite rfind_from_last; [done |]. by apply no_fence_behind. }
  assert (Hslice : LLM.slice (Z.of_nat (length before) + 3)
                     (Z.of_nat (length (before ++ [96; 96; 96] ++ mid)))
                     text = mid).
  { replace (Z.of_nat (length before) + 3)%Z
      with (Z.of_nat (length (before ++ [96; 96; 96])))
      by (rewrite length_app; simpl; lia).
    replace (Z.of_nat (length (before ++ [96; 96; 96] ++ mid)))
      with (Z.of_nat (length (before ++ [96; 96; 96]) + length mid))
      by (rewrite !length_app; simpl; lia).
    rewrite Etext.
    replace (before ++ [96; 96; 96] ++ mid ++ [96; 96; 96] ++ after)
      with ((before ++ [96; 96; 96]) ++ mid ++ [96; 96; 96] ++ after)
      by (by rewrite <- !app_assoc).
    apply slice_middle. }
  unfold LLM.fenced_of. fold text. rewrite Hc, Hfind, Hrfind.
  assert (Z.gtb (Z.of_nat (length (before ++ [96; 96; 96] ++ mid)))
            (Z.of_nat (length before)) = true) as ->.
  { apply Z.gtb_lt. rewrite !length_app. simpl. lia. }
  rewrite Hslice. unfold mid, body, json_object.
  change (lit "{") with [123]. change (lit "}") with [125].
  destruct tag as [|c tag].
  - cbn [app]. rewrite strip_leading_newline.
    replace (123 :: (inner ++ [125]) ++ [Extractor.LF])
      with ((123 :: inner) ++ [125; Extractor.LF])
      by (simpl; by rewrite <- app_assoc).
    rewrite strip_between by done. cbn [app].
    rewrite (lstrip_head 123) by done. cbn [Py.startswith].
    rewrite N.eqb_refl. cbn [andb negb]. by rewrite andb_false_r.
  - apply Forall_cons in Htag as [Hc0 Htag].
    replace ((c :: tag) ++ [Extractor.LF] ++ ([123] ++ inner ++ [125])
             ++ [Extractor.LF])
      with ((c :: tag ++ Extractor.LF :: 123 :: inner)
            ++ [125; Extractor.LF])
      by (simpl; by rewrite <- !app_assoc).
    rewrite strip_between by done.
    set (fenced := (c :: tag ++ Extractor.LF :: 123 :: inner) ++ [125]).
    assert (Ef : fenced = (c :: tag) ++ [Extractor.LF]
                          ++ 123 :: inner ++ [125]).
    { unfold fenced. simpl. by rewrite <- app_assoc. }
    assert (Py.contains [Extractor.LF] fenced = true) as ->.
    { apply contains_spec. exists (c :: tag), (123 :: inner ++ [125]).
      by rewrite Ef. }
    assert (Py.startswith (Py.lstrip fenced) [123] = false) as ->.
    { unfold fenced. cbn [app]. rewrite (lstrip_head c) by done.
      cbn [Py.startswith]. apply andb_false_iff. left.
      apply N.eqb_neq. intros <-. by apply Hhead. }
    cbn [andb negb]. f_equal.
    assert (Hnl : ~ In Extractor.LF (c :: tag)).
    { intros Hin.
      assert (Hall : Forall (fun c => Py.is_space c = false) (c :: tag))
        by (by constructor).
      by apply (proj1 (List.Forall_forall _ _) Hall) in Hin. }
    unfold LLM.find, LLM.slice_from. rewrite Ef.
    rewrite (find_from_skip Extractor.LF [] (c :: tag) _ 0 Hnl).
    replace (Z.to_nat (0 + Z.of_nat (length (c :: tag)) + 1))
      with (length ((c :: tag) ++ [Extractor.LF]))
      by (rewrite length_app; simpl; lia).
    rewrite (app_assoc (c :: tag)). by rewrite drop_app_length.
Qed.

(** X20: a JSON object in a fenced block is unwrapped.  When the text
    as a whole is no JSON, and holds a fenced block, with a language tag
    or without, in prose that has no backtick of its own, what is read is
    the object between the fences: the fences, the tag and the prose are
    dropped, and nothing of the object is. *)
Theorem fenced_object_is_unwrapped (before tag inner after : pystr)
    (v : value) :
  ~ In 96 before ->
  ~ In 96 after ->
  Forall (fun c => Py.is_space c = false) tag ->
  head tag <> Some 123 ->
  json_loads (fenced_block before tag (json_object inner) after) = None ->
  json_loads (json_object inner) = Some v ->
  LLM.fenced_of (fenced_block before tag (json_object inner) after)
  = Some (json_object inner)
  /\ LLM._best_effort_parse_json value none json_loads
       (fenced_block before tag (json_object inner) after) = v.
Proof.
  intros Hb Ha Htag Hhead Hwhole Hbody.
  pose proof (fenced_of_block before tag inner after Hb Ha Htag Hhead) as E.
  split; [exact E |].
  unfold LLM._best_effort_parse_json. rewrite Hwhole, E. simpl.
  by rewrite Hbody.
Qed.

(** X21: a JSON object in prose is cut out.  When the text as a whole
    is no JSON and holds no fence, what is read is the text from the first
    opening brace to the last closing one: an object that stands in prose
    without braces of its own is read whole. *)
Theorem object_in_prose_is_cut_out (before inner after : pystr)
    (v : value) :
  ~ In 123 before ->
  ~ In 125 after ->
  ~ occurs_in LLM.fence (before ++ json_object inner ++ after) ->
  json_loads (before ++ json_object inner ++ after) = None ->
  json_loads (json_object inner) = Some v ->
  LLM.braced_of (before ++ json_object inner ++ after)
  = Some (json_object inner)
  /\ LLM._best_effort_parse_json value none json_loads
       (before ++ json_object inner ++ after) = v.
Proof.
  intros Hb Ha Hf Hwhole Hbody.
  set (text := before ++ json_object inner ++ after) in *.
  assert (Etext : text = before ++ [123] ++ inner ++ [125] ++ after).
  { unfold text, json_object. change (lit "{") with [123].
    change (lit "}") with [125]. by rewrite <- !app_assoc. }
  assert (Hl : LLM.find (lit "{") text = Z.of_nat (length before)).
  { unfold LLM.find. change (lit "{") with [123]. rewrite Etext.
    by rewrite (find_from_skip 123 [] before _ 0 Hb). }
  assert (Hr : LLM.rfind (lit "}") text
               = Z.of_nat (length (before ++ [123] ++ inner))).
  { unfold LLM.rfind. change (lit "}") with [125]. rewrite Etext.
    replace (before ++ [123] ++ inner ++ [125] ++ after)
      with ((before ++ [123] ++ inner) ++ [125] ++ after)
      by (by rewrite <- !app_assoc).
    rewrite rfind_from_last; [done |]. by apply contains_absent. }
  assert (E : LLM.braced_of text = Some (json_object inner)).
  { unfold LLM.braced_of. rewrite Hl, Hr.
    assert ((Z.of_nat (length before) =? -1)%Z = false) as ->
      by (apply Z.eqb_neq; lia).
    assert (Z.eqb (Z.of_nat (length (before ++ [123] ++ inner))) (-1)
            = false) as -> by (apply Z.eqb_neq; lia).
    assert (Z.gtb (Z.of_nat (length (before ++ [123] ++ inner)))
              (Z.of_nat (length before)) = true) as ->.
    { apply Z.gtb_lt. rewrite !length_app. simpl. lia. }
    cbn [negb andb]. f_equal.
    replace (Z.add (Z.of_nat (length (before ++ [123] ++ inner))) 1)
      with (Z.of_nat (length before + length (json_object inner))).
    - unfold text. apply slice_middle.
    - unfold json_object. rewrite !length_app. simpl. lia. }
  split; [exact E |].
  unfold LLM._best_effort_parse_json. fold text. rewrite Hwhole.
  assert (LLM.fenced_of text = None) as ->.
  { unfold LLM.fenced_of. by apply contains_false in Hf as ->. }
  simpl. rewrite E. simpl. by rewrite Hbody.
Qed.

End BestEffort.

Lemma fenced_object_is_unwrapped_witness :
  LLM._best_effort_parse_json bool false demo_loads
    (fenced_block (lit "Here it is: ") (lit "json") (json_object []) [])
  = true.
Proof.
  destruct (fenced_object_is_unwrapped bool false demo_loads
              (lit "Here it is: ") (lit "json") [] [] true) as [_ H].
  - vm_compute. intuition discriminate.
  - vm_compute. intuition.
  - vm_compute. repeat constructor.
  - vm_compute. discriminate.
  - vm_compute. reflexivity.
  - vm_compute. reflexivity.
  - exact H.
Defined.

Lemma object_in_prose_is_cut_out_witness :
  LLM._best_effort_parse_json bool false demo_loads
    (lit "Here it is: " ++ json_object [] ++ lit ", as asked.")
  = true.
Proof.
  destruct (object_in_prose_is_cut_out bool false demo_loads
              (lit "Here it is: ") [] (lit ", as asked.") true) as [_ H].
  - vm_compute. intuition discriminate.
  - vm_compute. intuition discriminate.
  - apply contains_false. vm_compute. reflexivity.
  - vm_compute. reflexivity.
  - vm_compute. reflexivity.
  - exact H.
Defined.

Lemma stop_ends_the_loop_witness :
  _stop_event
    (snd (Main.submit_extraction failing_body (lit "req_b") 2 (fun s => s)
            (Worker.stop demo_state))) = true
  /\ Models.get (lit "req_a")
       (db (snd (Main.submit_extraction failing_body (lit "req_b") 2
                   (fun s => s) (Worker.stop demo_state))))
     = Some (Main.new_request demo_body (lit "req_a") 1).
Proof.
  destruct (stop_ends_the_loop demo_backend demo_retries demo_timeout
              demo_state
              (snd (Main.submit_extraction failing_body (lit "req_b") 2
                      (fun s => s) (Worker.stop demo_state))))
    as [Hs [_ [Hkeep _]]].
  - apply rtc_once. constructor.
  - split; [exact Hs |]. apply Hkeep. vm_compute. reflexivity.
Defined.

Lemma result_and_error_exclusive_witness :
  (~ result_null done_row /\ error_null done_row
   /\ exactly_one_group_null done_row)
  /\ (result_null failed_row /\ ~ error_null failed_row
      /\ exactly_one_group_null failed_row).
Proof.
  split.
  - destruct (proj1 (result_and_error_exclusive demo_backend demo_retries
                       demo_timeout done_state done_state_reachable)
                done_row) as [_ [Hc [_ Hx]]].
    + vm_compute. left. reflexivity.
    + destruct Hc as [H1 H2]; [vm_compute; reflexivity |].
      split; [exact H1 |]. split; [exact H2 |].
      apply Hx. vm_compute. discriminate.
  - destruct (proj1 (result_and_error_exclusive demo_backend demo_retries
                       demo_timeout failed_state failed_state_reachable)
                failed_row) as [_ [_ [Hf Hx]]].
    + vm_compute. left. reflexivity.
    + destruct Hf as [H1 H2]; [reflexivity |].
      split; [exact H1 |]. split; [exact H2 |].
      apply Hx. vm_compute. discriminate.
Defined.
